(** * DGL array primitives: coordinate sort, identifier compaction, sampling

    A shallow embedding of
    - [src/array/cpu/coo_sort.cc]   ([TupleRef], [COOSort_], [COOIsSorted]),
    - [src/array/cpu/array_utils.h] ([IdHashMap]),
    - [src/random/cpu/choice.cc]    ([RandomEngine::Choice],
                                     [RandomEngine::UniformChoice]),
    together with the properties the specification states about them.

    Conventions.  [IdType] values ([int32_t] / [int64_t]) are integers in [Z];
    the modelled arithmetic on them cannot overflow, and the conversions
    between [size_t] and [IdType] ([IdHashMap::Update], the loop test of
    [UniformChoice]) have their wrap-around written out.  Arrays are lists,
    indexed from 0.  Part one holds the definitions, part two the
    properties. *)

From Stdlib Require Import ZArith Lia.
From stdpp Require Import base numbers list list_numbers sorting gmap strings pretty.

Local Open Scope Z_scope.

(* ===================================================================== *)
(** * Coordinate sort ([coo_sort.cc])                                     *)
(* ===================================================================== *)

Module CooSort.

(** [std::tuple<IdType, IdType, IdType>]: the value type of [CooIterator]. *)
Definition Tuple : Type := Z * Z * Z.

Definition get0 (t : Tuple) : Z := t.1.1.
Definition get1 (t : Tuple) : Z := t.1.2.
Definition get2 (t : Tuple) : Z := t.2.

(** The three parallel buffers a [CooIterator] walks over
    ([IdType *row, *col, *data]).  Position [i] of the iterator range is the
    iterator [first + i]; dereferencing it gives the [TupleRef] that points
    at [row[i]], [col[i]], [data[i]]. *)
Record Buffers : Type := mkBuffers {
  b_row : list Z;
  b_col : list Z;
  b_data : list Z
}.

(** [TupleRef::operator std::tuple<IdType, IdType, IdType>() const]. *)
Definition TupleRef_tuple (b : Buffers) (i : nat) : Tuple :=
  (b_row b !!! i, b_col b !!! i, b_data b !!! i).

(** [TupleRef& operator=(const std::tuple<IdType, IdType, IdType>& val)]. *)
Definition TupleRef_assign_tuple (b : Buffers) (i : nat) (val : Tuple) : Buffers :=
  {| b_row := <[i := get0 val]> (b_row b);
     b_col := <[i := get1 val]> (b_col b);
     b_data := <[i := get2 val]> (b_data b) |}.

(** [TupleRef& operator=(const TupleRef& other)]: [*this] is at position
    [i], [other] at position [j]. *)
Definition TupleRef_assign (b : Buffers) (i j : nat) : Buffers :=
  {| b_row := <[i := b_row b !!! j]> (b_row b);
     b_col := <[i := b_col b !!! j]> (b_col b);
     b_data := <[i := b_data b !!! j]> (b_data b) |}.

(** [std::swap] of two array cells. *)
Definition swap_cells (l : list Z) (i j : nat) : list Z :=
  <[j := l !!! i]> (<[i := l !!! j]> l).

(** [void Swap(const TupleRef& other) const]. *)
Definition TupleRef_Swap (b : Buffers) (i j : nat) : Buffers :=
  {| b_row := swap_cells (b_row b) i j;
     b_col := swap_cells (b_col b) i j;
     b_data := swap_cells (b_data b) i j |}.

(** The sequence of values of the iterator range [first, first + nnz). *)
Definition range_values (b : Buffers) (nnz : nat) : list Tuple :=
  TupleRef_tuple b <$> seq 0 nnz.

(** What a sorting routine does to the range through the iterator: it
    exchanges two positions ([std::iter_swap], which resolves to the
    [swap] overload on [TupleRef] and so to [Swap]), assigns one position
    to another ([*a = std::move( *b)], the assignment from a [TupleRef]), or
    assigns a value it holds to a position ([*a = std::move(val)], the
    assignment from a tuple).  Reading a position ([value_type val =
    std::move( *a)], the conversion) changes nothing. *)
Inductive iter_op : Type :=
  | op_swap (i j : nat)
  | op_assign (i j : nat)
  | op_assign_tuple (i : nat) (val : Tuple).

Definition exec_op (b : Buffers) (op : iter_op) : Buffers :=
  match op with
  | op_swap i j => TupleRef_Swap b i j
  | op_assign i j => TupleRef_assign b i j
  | op_assign_tuple i val => TupleRef_assign_tuple b i val
  end.

Definition exec_ops (ops : list iter_op) (b : Buffers) : Buffers :=
  foldl exec_op b ops.

(** The same operations on an array of whole records. *)
Definition apply_op (l : list Tuple) (op : iter_op) : list Tuple :=
  match op with
  | op_swap i j => <[j := l !!! i]> (<[i := l !!! j]> l)
  | op_assign i j => <[i := l !!! j]> l
  | op_assign_tuple i val => <[i := val]> l
  end.

Definition apply_ops (ops : list iter_op) (l : list Tuple) : list Tuple :=
  foldl apply_op l ops.

(** The operation stays within a range of [n] positions. *)
Definition op_in_range (n : nat) (op : iter_op) : Prop :=
  match op with
  | op_swap i j | op_assign i j => (i < n)%nat ∧ (j < n)%nat
  | op_assign_tuple i _ => (i < n)%nat
  end.

(** ** The comparison predicates of [COOSort_] *)

(** [[](const Tuple& a, const Tuple& b) {
      return (get<0>(a) != get<0>(b)) ? (get<0>(a) < get<0>(b))
                                      : (get<1>(a) < get<1>(b)); }] *)
Definition comp_row_col (a b : Tuple) : bool :=
  if negb (get0 a =? get0 b) then get0 a <? get0 b else get1 a <? get1 b.

(** [[](const Tuple& a, const Tuple& b) { return get<0>(a) < get<0>(b); }] *)
Definition comp_row (a b : Tuple) : bool := get0 a <? get0 b.

(** ** [std::sort]

    [std::sort] belongs to the C++ standard library.  [std_sort comp l] is
    the sequence of operations it performs on a range that holds the values
    [l].  It is taken through its contract ([alg.sort],
    [alg.sorting.general]): for a comparison that is a strict weak ordering,
    it stays within the range, and the range afterwards holds a permutation
    of its former values in which no element compares less than an earlier
    one.  The sort need not be stable. *)

Class StrictWeakOrdering {T : Type} (comp : T → T → bool) : Prop := {
  swo_irrefl x : comp x x = false;
  swo_trans x y z : comp x y = true → comp y z = true → comp x z = true;
  swo_equiv_trans x y z :
    comp x y = false → comp y x = false →
    comp y z = false → comp z y = false →
    comp x z = false ∧ comp z x = false
}.

(** [ordered_by comp l]: for all positions [i < j], [!comp(l[j], l[i])]. *)
Definition ordered_by {T : Type} (comp : T → T → bool) : list T → Prop :=
  StronglySorted (λ a b, comp b a = false).

Class StdSort : Type := {
  std_sort : (Tuple → Tuple → bool) → list Tuple → list iter_op
}.

(** The values a range that held [l] holds after [std::sort]. *)
Definition sorted_values `{StdSort} (comp : Tuple → Tuple → bool)
    (l : list Tuple) : list Tuple :=
  apply_ops (std_sort comp l) l.

Class StdSortLaws `{StdSort} : Prop := {
  std_sort_in_range comp l :
    StrictWeakOrdering comp → Forall (op_in_range (length l)) (std_sort comp l);
  std_sort_perm comp l :
    StrictWeakOrdering comp → sorted_values comp l ≡ₚ l;
  std_sort_ordered comp l :
    StrictWeakOrdering comp → ordered_by comp (sorted_values comp l)
}.

(** [std::sort(CooIterator(row, col, data), CooIterator(row, col, data) + nnz, comp)]:
    the operations of the sort, carried out on the three buffers through
    [TupleRef]. *)
Definition sort_range `{StdSort} (comp : Tuple → Tuple → bool)
    (b : Buffers) (nnz : nat) : Buffers :=
  exec_ops (std_sort comp (range_values b nnz)) b.

(** ** The matrix *)

(** [COOMatrix], restricted to the fields the two functions touch.  A null
    [data] array is [None]. *)
Record COOMatrix : Type := mkCOO {
  row : list Z;
  col : list Z;
  data : option (list Z);
  row_sorted : bool;
  col_sorted : bool
}.

(** [COOHasData]: the data array is not null. *)
Definition COOHasData (coo : COOMatrix) : bool :=
  match data coo with Some _ => true | None => false end.

(** Modelled from the spec: [aten::Range(low, high, nbits, ctx)] is declared
    in [dgl/array.h], which is not part of the sources at hand; the
    specification describes the synthesized payload as the sequence
    [0, 1, ..., nnz-1]. *)
Definition Range (low high : Z) : list Z := seqZ low (high - low).

(** [template <DLDeviceType XPU, typename IdType>
    void COOSort_(COOMatrix* coo, bool sort_column)] *)
Definition COOSort_ `{StdSort} (coo : COOMatrix) (sort_column : bool) : COOMatrix :=
  let nnz := length (row coo) in
  let coo_row := row coo in
  let coo_col := col coo in
  let coo_data :=
    if COOHasData coo then default [] (data coo)
    else Range 0 (Z.of_nat nnz) in
  let b := mkBuffers coo_row coo_col coo_data in
  let b' :=
    if sort_column then sort_range comp_row_col b nnz
    else sort_range comp_row b nnz in
  {| row := b_row b';
     col := b_col b';
     data := Some (b_data b');
     row_sorted := true;
     col_sorted := sort_column |}.

(** ** [COOIsSorted] *)

(** The loop
    [for (int64_t i = 1; row_sorted && i < nnz; ++i) { ... }]
    with its two accumulators; [fuel] bounds the number of iterations. *)
Fixpoint COOIsSorted_loop (row col : list Z) (nnz : nat) (fuel : nat) (i : nat)
    (row_sorted col_sorted : bool) : bool * bool :=
  match fuel with
  | O => (row_sorted, col_sorted)
  | S fuel' =>
      if row_sorted && bool_decide (i < nnz)%nat then
        let row_sorted' := row !!! (i - 1)%nat <=? row !!! i in
        let col_sorted' :=
          col_sorted &&
          ((row !!! (i - 1)%nat <? row !!! i) || (col !!! (i - 1)%nat <=? col !!! i)) in
        COOIsSorted_loop row col nnz fuel' (S i) row_sorted' col_sorted'
      else (row_sorted, col_sorted)
  end.

(** [std::pair<bool, bool> COOIsSorted(COOMatrix coo)] *)
Definition COOIsSorted (coo : COOMatrix) : bool * bool :=
  let nnz := length (row coo) in
  let '(row_sorted, col_sorted) :=
    COOIsSorted_loop (row coo) (col coo) nnz nnz 1 true true in
  let col_sorted := if negb row_sorted then false else col_sorted in
  (row_sorted, col_sorted).

(** ** Vocabulary of the statements *)

(** The three arrays have one length (the invariant of a coordinate
    matrix). *)
Definition coo_wf (coo : COOMatrix) : Prop :=
  length (col coo) = length (row coo) ∧
  match data coo with
  | Some d => length d = length (row coo)
  | None => True
  end.

(** The payload array, the null array standing for [0, 1, ..., nnz-1]. *)
Definition payload (coo : COOMatrix) : list Z :=
  match data coo with
  | Some d => d
  | None => Range 0 (Z.of_nat (length (row coo)))
  end.

(** The triples [(row[i], col[i], payload[i])], [i] in [[0, nnz)]. *)
Definition triples (coo : COOMatrix) : list Tuple :=
  TupleRef_tuple (mkBuffers (row coo) (col coo) (payload coo)) <$> seq 0 (length (row coo)).

(** The row array is non-decreasing. *)
Definition rows_nondecreasing (coo : COOMatrix) : Prop :=
  ∀ i j : nat, (i ≤ j < length (row coo))%nat → row coo !!! i ≤ row coo !!! j.

(** Within every run of equal rows (positions [i..j] that all hold one row
    value) the column array is non-decreasing.  A maximal run has every
    such segment inside it, and is one itself. *)
Definition cols_nondecreasing_in_runs (coo : COOMatrix) : Prop :=
  ∀ i j : nat, (i ≤ j < length (row coo))%nat →
    (∀ k : nat, (i ≤ k ≤ j)%nat → row coo !!! k = row coo !!! i) →
    col coo !!! i ≤ col coo !!! j.

(** ** An executable [std::sort]: straight insertion, as libstdc++ runs on
    short ranges.  It serves to run [COOSort_] on concrete matrices. *)

(** Moving [val] down from position [j]: while the element before is
    greater, it is moved one position up; then [val] is assigned.  [l] is
    the array as it was when [val] was read. *)
Fixpoint linear_insert (comp : Tuple → Tuple → bool) (val : Tuple)
    (l : list Tuple) (j : nat) : list iter_op :=
  match j with
  | O => [op_assign_tuple 0 val]
  | S j' =>
      if comp val (l !!! j') then op_assign (S j') j' :: linear_insert comp val l j'
      else [op_assign_tuple (S j') val]
  end.

(** [for (i = first + 1; i != last; ++i)] insert [*i] into the sorted
    stretch before it; [n] positions remain from [i] on. *)
Fixpoint insertion_ops (comp : Tuple → Tuple → bool) (l : list Tuple)
    (i n : nat) : list iter_op :=
  match n with
  | O => []
  | S n' =>
      let ops := linear_insert comp (l !!! i) l i in
      ops ++ insertion_ops comp (apply_ops ops l) (S i) n'
  end.

Definition insertion_StdSort : StdSort :=
  {| std_sort comp l := insertion_ops comp l 1 (length l - 1) |}.

(** [val] inserted into [l] from the right end: it goes before the
    longest final stretch of elements it compares less than. *)
Fixpoint insert_from_end (comp : Tuple → Tuple → bool) (val : Tuple)
    (rev_l : list Tuple) : list Tuple :=
  match rev_l with
  | [] => [val]
  | y :: rev_l' =>
      if comp val y then y :: insert_from_end comp val rev_l'
      else val :: y :: rev_l'
  end.

Definition insert_right (comp : Tuple → Tuple → bool) (val : Tuple)
    (l : list Tuple) : list Tuple :=
  reverse (insert_from_end comp val (reverse l)).

(** The comparison [COOSort_] sorts by. *)
Definition comp_of (sort_column : bool) : Tuple → Tuple → bool :=
  if sort_column then comp_row_col else comp_row.

(** The three buffers hold [n] cells each. *)
Definition buffers_wf (b : Buffers) (n : nat) : Prop :=
  length (b_row b) = n ∧ length (b_col b) = n ∧ length (b_data b) = n.

(** What one iteration of [COOIsSorted] tests at position [k]. *)
Definition row_step (row : list Z) (k : nat) : Prop :=
  row !!! (k - 1)%nat ≤ row !!! k.
Definition col_step (row col : list Z) (k : nat) : Prop :=
  row !!! (k - 1)%nat < row !!! k ∨ col !!! (k - 1)%nat ≤ col !!! k.

(** The worked example of the specification: rows [2,0,1,0], columns
    [1,3,0,1], no payload array. *)
Definition example_coo : COOMatrix :=
  {| row := [2; 0; 1; 0]; col := [1; 3; 0; 1]; data := None;
     row_sorted := false; col_sorted := false |}.

(** ** [CooIterator] *)

(** The three pointers of a [CooIterator], as addresses counted in
    elements of [IdType]. *)
Record CooIterator : Type := mkCooIterator {
  it_row : Z;
  it_col : Z;
  it_data : Z
}.

(** The three pointers of a [TupleRef]. *)
Record TupleRef : Type := mkTupleRef {
  ref_row : Z;
  ref_col : Z;
  ref_data : Z
}.

(** [operator==], [operator!=], [operator<], [operator>], [operator<=],
    [operator>=]: each looks at [row] only. *)
Definition CooIterator_eq (a b : CooIterator) : bool := it_row a =? it_row b.
Definition CooIterator_ne (a b : CooIterator) : bool := negb (it_row a =? it_row b).
Definition CooIterator_lt (a b : CooIterator) : bool := it_row a <? it_row b.
Definition CooIterator_gt (a b : CooIterator) : bool := it_row a >? it_row b.
Definition CooIterator_le (a b : CooIterator) : bool := it_row a <=? it_row b.
Definition CooIterator_ge (a b : CooIterator) : bool := it_row a >=? it_row b.

(** [CooIterator& operator+=(const std::ptrdiff_t& movement)] *)
Definition CooIterator_add_assign (it : CooIterator) (movement : Z) : CooIterator :=
  {| it_row := it_row it + movement;
     it_col := it_col it + movement;
     it_data := it_data it + movement |}.

(** [CooIterator& operator-=(const std::ptrdiff_t& movement)] *)
Definition CooIterator_sub_assign (it : CooIterator) (movement : Z) : CooIterator :=
  {| it_row := it_row it - movement;
     it_col := it_col it - movement;
     it_data := it_data it - movement |}.

(** [operator++()] and [operator--()]. *)
Definition CooIterator_inc (it : CooIterator) : CooIterator :=
  CooIterator_add_assign it 1.
Definition CooIterator_dec (it : CooIterator) : CooIterator :=
  CooIterator_sub_assign it 1.

(** [operator++(int)] and [operator--(int)]: the iterator returned and the
    iterator afterwards. *)
Definition CooIterator_post_inc (it : CooIterator) : CooIterator * CooIterator :=
  let ret := it in (ret, CooIterator_inc it).
Definition CooIterator_post_dec (it : CooIterator) : CooIterator * CooIterator :=
  let ret := it in (ret, CooIterator_dec it).

(** [CooIterator operator+(const std::ptrdiff_t& movement) const] and
    [operator-(const std::ptrdiff_t& movement) const]. *)
Definition CooIterator_plus (it : CooIterator) (movement : Z) : CooIterator :=
  let ret := it in CooIterator_add_assign ret movement.
Definition CooIterator_minus (it : CooIterator) (movement : Z) : CooIterator :=
  let ret := it in CooIterator_sub_assign ret movement.

(** [std::ptrdiff_t operator-(const CooIterator& other) const] *)
Definition CooIterator_diff (a b : CooIterator) : Z := it_row a - it_row b.

(** [TupleRef<IdType> operator*() const] *)
Definition CooIterator_deref (it : CooIterator) : TupleRef :=
  {| ref_row := it_row it; ref_col := it_col it; ref_data := it_data it |}.

(** The iterators a routine gets from [first] with the operators that
    move an iterator. *)
Inductive iter_of (first : CooIterator) : CooIterator → Prop :=
  | iter_first : iter_of first first
  | iter_add it movement :
      iter_of first it → iter_of first (CooIterator_add_assign it movement)
  | iter_sub it movement :
      iter_of first it → iter_of first (CooIterator_sub_assign it movement).

(** The pairs [(row[i], col[i])] of a matrix. *)
Definition keys (coo : COOMatrix) : list (Z * Z) :=
  (λ t, (get0 t, get1 t)) <$> triples coo.

(** The order of [comp_row_col] on such pairs, made reflexive. *)
Definition key_le (p q : Z * Z) : Prop :=
  p.1 < q.1 ∨ (p.1 = q.1 ∧ p.2 ≤ q.2).

(** ** [radix_sort] *)

(** [size_t(1) << k] (defined for [k < 64]) and the sum of two [size_t]. *)
Definition size_t_shl1 (k : Z) : Z := Z.shiftl 1 k `mod` 2 ^ 64.
Definition size_t_add (a b : Z) : Z := (a + b) `mod` 2 ^ 64.

(** [while ((size_t(1) << (3 * (max_bits+1))) <= data.size()) ++max_bits;]
    with a bound [fuel] on the iterations. *)
Fixpoint max_bits_loop (fuel : nat) (size max_bits : Z) : option Z :=
  if size_t_shl1 (3 * (max_bits + 1)) <=? size then
    match fuel with
    | O => None
    | S fuel' => max_bits_loop fuel' size (max_bits + 1)
    end
  else Some max_bits.

(** [(x >> start) & mask], as an index. *)
Definition digit (start mask x : Z) : nat :=
  Z.to_nat (Z.land (Z.shiftr x start) mask).

(** [for (const T &x : data) ++count[(x >> start) & mask];] *)
Definition count_step (start mask : Z) (count : list Z) (x : Z) : list Z :=
  let i := digit start mask x in
  <[i := size_t_add (count !!! i) 1]> count.

Definition count_digits (start mask : Z) (data count : list Z) : list Z :=
  foldl (count_step start mask) count data.

(** [for (size_t &c : count) { new_sum = sum + c; c = sum; sum = new_sum; }] *)
Fixpoint prefix_sums (sum : Z) (count : list Z) : list Z :=
  match count with
  | [] => []
  | c :: count' => sum :: prefix_sums (size_t_add sum c) count'
  end.

(** [for (const T &x : data) { size_t &pos = count[(x >> start) & mask];
                               new_data[pos++] = x; }]
    on the pair of [count] and [new_data]. *)
Definition shuffle_step (start mask : Z) (st : list Z * list Z) (x : Z)
    : list Z * list Z :=
  let i := digit start mask x in
  let pos := st.1 !!! i in
  (<[i := size_t_add pos 1]> st.1, <[Z.to_nat pos := x]> st.2).

Definition shuffle (start mask : Z) (data count new_data : list Z)
    : list Z * list Z :=
  foldl (shuffle_step start mask) (count, new_data) data.

(** The body of the loop over the bit groups, on the pair of [data] and
    [new_data]; [word_bits] is [numeric_limits<T>::digits]. *)
Definition radix_pass (word_bits num_groups : Z) (st : list Z * list Z)
    (group : Z) : list Z * list Z :=
  let data := st.1 in
  let new_data := st.2 in
  let start := (group * word_bits) `quot` num_groups in
  let end_ := ((group + 1) * word_bits) `quot` num_groups in
  let mask := (size_t_shl1 (end_ - start) - 1) `mod` 2 ^ word_bits in
  let count := replicate (Z.to_nat (size_t_shl1 (end_ - start))) 0 in
  let count := count_digits start mask data count in
  let count := prefix_sums 0 count in
  let new_data := (shuffle start mask data count new_data).2 in
  (new_data, data).

(** [template<class T> void radix_sort(vector<T> &data)]: the contents of
    [data] at the end. *)
Definition radix_sort (word_bits : Z) (fuel : nat) (data : list Z)
    : option (list Z) :=
  max_bits ← max_bits_loop fuel (Z.of_nat (length data)) 1;
  let num_groups := (word_bits + max_bits - 1) `quot` max_bits in
  let new_data := replicate (length data) 0 in
  Some (foldl (radix_pass word_bits num_groups) (data, new_data)
              (seqZ 0 num_groups)).1.

(** Vocabulary: the elements of [l] distributed over [K] buckets by [key],
    bucket after bucket, each in the order of [l]. *)
Fixpoint bucket (key : Z → nat) (K : nat) (l : list Z) : list Z :=
  match K with
  | O => []
  | S K' => bucket key K' l ++ filter (λ x, key x = K') l
  end.

(** Order by the low [e] bits. *)
Definition low_le (e : Z) (x y : Z) : Prop := x `mod` 2 ^ e ≤ y `mod` 2 ^ e.

(** The number of elements of [l] in bucket [d], and the number of those in
    the buckets before it. *)
Definition bucket_size (key : Z → nat) (d : nat) (l : list Z) : nat :=
  length (filter (λ x, key x = d) l).
Definition bucket_start (key : Z → nat) (d : nat) (l : list Z) : nat :=
  length (filter (λ x, (key x < d)%nat) l).

(** [start] of the group [g] ([end] is the [start] of the next group). *)
Definition group_start (W G g : Z) : Z := (g * W) `quot` G.

(** What the loop over the groups keeps, before the group [g]. *)
Definition groups_inv (W G : Z) (data0 : list Z) (g : Z)
    (st : list Z * list Z) : Prop :=
  st.1 ≡ₚ data0 ∧ length st.2 = length data0 ∧
  StronglySorted (low_le (group_start W G g)) st.1.

End CooSort.

(* ===================================================================== *)
(** * Identifier compaction ([array_utils.h])                             *)
(* ===================================================================== *)

Module ArrayUtils.

(** [static constexpr int32_t kFilterMask = 0xFFFFFF;] *)
Definition kFilterMask : Z := 0xFFFFFF.
(** [static constexpr int32_t kFilterSize = kFilterMask + 1;] *)
Definition kFilterSize : Z := kFilterMask + 1.

(** Conversion of an integer to the signed [bits]-wide [IdType]
    (two's complement wrap-around), as applied to [oldv2newv_.size()] when
    the pair [{id, oldv2newv_.size()}] is built. *)
Definition to_IdType (bits : Z) (z : Z) : Z :=
  (z + 2 ^ (bits - 1)) `mod` 2 ^ bits - 2 ^ (bits - 1).

(** The members of [class IdHashMap]: [filter_] is the set of positions of
    the bitmap that hold [true]; [oldv2newv_] is the hash map. *)
Record IdHashMap : Type := mkIdHashMap {
  filter_ : gset Z;
  oldv2newv_ : gmap Z Z
}.

(** [IdHashMap(): filter_(kFilterSize, false) {}] *)
Definition IdHashMap_new : IdHashMap :=
  {| filter_ := ∅; oldv2newv_ := ∅ |}.

(** [phmap::flat_hash_map::insert]: no insertion when the key exists. *)
Definition flat_hash_map_insert (m : gmap Z Z) (k v : Z) : gmap Z Z :=
  match m !! k with
  | Some _ => m
  | None => <[k := v]> m
  end.

(** [inline size_t Size() const] *)
Definition Size (h : IdHashMap) : nat := size (oldv2newv_ h).

(** The functions below that build new ids take the width [bits] of
    [IdType] (32 or 64) as their first argument. *)

(** The body of the loop of [Update]:
    [oldv2newv_.insert({id, oldv2newv_.size()});
     filter_[id & kFilterMask] = true;] *)
Definition Update_step (bits : Z) (h : IdHashMap) (id : Z) : IdHashMap :=
  {| oldv2newv_ :=
       flat_hash_map_insert (oldv2newv_ h) id
         (to_IdType bits (Z.of_nat (size (oldv2newv_ h))));
     filter_ := {[ Z.land id kFilterMask ]} ∪ filter_ h |}.

(** [void Update(IdArray ids)] *)
Definition Update (bits : Z) (h : IdHashMap) (ids : list Z) : IdHashMap :=
  foldl (Update_step bits) h ids.

(** [explicit IdHashMap(IdArray ids)] *)
Definition IdHashMap_of (bits : Z) (ids : list Z) : IdHashMap :=
  Update bits IdHashMap_new ids.

(** [bool Contains(IdType id) const] *)
Definition Contains (h : IdHashMap) (id : Z) : bool :=
  bool_decide (Z.land id kFilterMask ∈ filter_ h) &&
  bool_decide (is_Some (oldv2newv_ h !! id)).

(** [IdType Map(IdType id, IdType default_val) const] *)
Definition Map (h : IdHashMap) (id default_val : Z) : Z :=
  if bool_decide (Z.land id kFilterMask ∈ filter_ h) then
    match oldv2newv_ h !! id with
    | None => default_val
    | Some second => second
    end
  else default_val.

(** [IdArray Map(IdArray ids, IdType default_val) const] (the stray
    token in front of the declaration of [values] is left out). *)
Definition Map_array (h : IdHashMap) (ids : list Z) (default_val : Z) : list Z :=
  (λ id, Map h id default_val) <$> ids.

(** Modelled from the spec: [NewIdArray(length, ctx, nbits)] is declared in
    [dgl/aten/types.h], which is not part of the sources at hand; it
    allocates an identifier array of the given length.  Its cells are not
    initialized: cell [i] holds whatever [garbage i] the memory held. *)
Definition NewIdArray (garbage : nat → Z) (len : nat) : list Z :=
  garbage <$> seq 0 len.

(** [values_data[second] = first].  A store outside the array is undefined
    in C++; here it leaves the array as it is. *)
Definition store (values : list Z) (second first : Z) : list Z :=
  if bool_decide (0 ≤ second < Z.of_nat (length values))
  then <[Z.to_nat second := first]> values
  else values.

(** [IdArray Values() const]: the pairs of the hash map are visited in the
    order of the table, whichever it is. *)
Definition Values (garbage : nat → Z) (h : IdHashMap) : list Z :=
  foldr (λ pair values, store values pair.2 pair.1)
        (NewIdArray garbage (size (oldv2newv_ h)))
        (map_to_list (oldv2newv_ h)).

(** ** Vocabulary of the statements *)

(** The distinct identifiers of an array, in the order of their first
    appearance. *)
Fixpoint first_seen (ids : list Z) : list Z :=
  match ids with
  | [] => []
  | x :: ids' => x :: filter (λ y, y ≠ x) (first_seen ids')
  end.

(** One step of collecting distinct identifiers from left to right. *)
Definition add_seen (seen : list Z) (x : Z) : list Z :=
  if decide (x ∈ seen) then seen else seen ++ [x].

(** [compacts h seen]: the table maps the identifiers of [seen], which are
    distinct, to their positions, and nothing else; the filter has the bit
    of every one of them. *)
Record compacts (h : IdHashMap) (seen : list Z) : Prop := {
  compacts_NoDup : NoDup seen;
  compacts_size : size (oldv2newv_ h) = length seen;
  compacts_lookup x v :
    oldv2newv_ h !! x = Some v ↔ ∃ i : nat, seen !! i = Some x ∧ v = Z.of_nat i;
  compacts_filter x : x ∈ seen → Z.land x kFilterMask ∈ filter_ h
}.

(** The filter has the bit of every key of the table (it may have more). *)
Definition filter_covers (h : IdHashMap) : Prop :=
  ∀ x : Z, is_Some (oldv2newv_ h !! x) → Z.land x kFilterMask ∈ filter_ h.

(** ** [FnvHash] and [PairHash] *)

Definition FNV_PRIME : Z := 16777619.
Definition OFFSET_BASIS : Z := 2166136261.

(** A [char] is the integer it holds; [hash ^ c] converts it to
    [unsigned int], and [* FNV_PRIME] is a product of [unsigned int]. *)
Definition to_unsigned (z : Z) : Z := z `mod` 2 ^ 32.

Definition fnv_step (hash c : Z) : Z :=
  to_unsigned (Z.lxor hash (to_unsigned c) * FNV_PRIME).

(** [strlen]: the number of characters before the first NUL of the array
    [str]; none when the array has no NUL. *)
Fixpoint strlen (str : list Z) : option nat :=
  match str with
  | [] => None
  | c :: str' => if c =? 0 then Some O else S <$> strlen str'
  end.

(** [static unsigned int fnvHash(const char* str)] *)
Definition fnvHash (str : list Z) : option Z :=
  n ← strlen str;
  let length := S n in
  Some (foldl fnv_step OFFSET_BASIS (take length str)).

(** [template <unsigned int N>
    static constexpr unsigned int fnvHashConst(const char (&str)[N],
                                               unsigned int I = N)]
    The recursion ends at [I == 1]; it is not entered with [I == 0], an
    array having at least one element. *)
Fixpoint fnvHashConst (str : list Z) (I : nat) : option Z :=
  match I with
  | O => None
  | S I' =>
      match I' with
      | O => c ← str !! 0%nat; Some (fnv_step OFFSET_BASIS c)
      | S _ =>
          h ← fnvHashConst str I';
          c ← str !! I';
          Some (fnv_step h c)
      end
  end.

(** [PairHash::operator()], for the functions [std::hash<T1>] and
    [std::hash<T2>] of the library. *)
Definition PairHash {T1 T2} (hash1 : T1 → Z) (hash2 : T2 → Z)
    (pair : T1 * T2) : Z :=
  Z.lxor (hash1 pair.1) (hash2 pair.2).

End ArrayUtils.

(* ===================================================================== *)
(** * Discrete sampling ([choice.cc])                                     *)
(* ===================================================================== *)

Module RandomChoice.

(** ** The collaborators of the sampler *)

(** The pseudo-random engine.  [RandInt n e] is [RandomEngine::RandInt(n)]
    on the engine in state [e]: the drawn integer and the next state.  The
    class [RandomEngine] is declared in [dgl/random.h], outside the sources
    at hand; its contract is the one the specification gives, a uniform
    integer draw over [[0, n)]. *)
Class RandomEngine (R : Type) : Type := {
  RandInt : Z → R → Z * R
}.

Class RandomEngineLaws (R : Type) `{RandomEngine R} : Prop := {
  RandInt_range n e : 0 < n → 0 ≤ (RandInt n e).1 < n
}.

(** The weighted samplers of [sample_utils.h] ([utils::BaseSampler] and
    [utils::TreeSampler<IdxType, FloatType, replace>]), outside the
    sources at hand: building one from the weights, and [Draw()], which
    gives an index and moves both the sampler and the engine on. *)
Class BaseSampler (R W T : Type) : Type := {
  TreeSampler : bool → list W → T;
  Draw : T → R → Z * T * R
}.

(** [phmap::flat_hash_set<IdxType>], from the parallel-hashmap library:
    a set is the [gset] of its elements, and the library decides the order
    in which [begin()] .. [end()] run through it: the order of its table,
    which depends on the hash function, on the capacity and on how the
    table came about.  [table_order X] is that order for a set with the
    elements [X] filled by [insert], [copy_order X] for a set with the
    elements [X] obtained by copy assignment; nothing relates the two. *)
Class FlatHashSet : Type := {
  table_order : gset Z → list Z;
  copy_order : gset Z → list Z
}.

(** What the library promises: the iterators run through each element
    once. *)
Class FlatHashSetLaws `{FlatHashSet} : Prop := {
  table_order_perm X : table_order X ≡ₚ elements X;
  copy_order_perm X : copy_order X ≡ₚ elements X
}.

(** ** Failures and the state of a call *)

Inductive failure : Type :=
  | CheckFailed (msg : string)   (* a [CHECK_LE] that does not hold: [dmlc::Error] *)
  | OutOfBounds                  (* an access outside the [out] buffer *)
  | OutOfFuel.                   (* the bound on loop iterations was reached *)

Inductive outcome (A : Type) : Type :=
  | Ok (a : A)
  | Fail (f : failure).
Arguments Ok {A} a.
Arguments Fail {A} f.

(** What a call can read and write: the engine, the static [cache_], and
    the caller's buffer [out] points to. *)
Record World (R : Type) : Type := mkWorld {
  engine : R;
  cache_ : gmap string (gset Z);
  out : list Z
}.
Arguments mkWorld {R} _ _ _.
Arguments engine {R} _.
Arguments cache_ {R} _.
Arguments out {R} _.

(** Computations over a world: a failure leaves the world as it is at the
    point of failure. *)
Definition M (R A : Type) : Type := World R → outcome A * World R.

#[export] Instance M_ret {R} : MRet (M R) := λ A a w, (Ok a, w).
#[export] Instance M_bind {R} : MBind (M R) := λ A B f m w,
  match m w with
  | (Ok a, w') => f a w'
  | (Fail e, w') => (Fail e, w')
  end.

Definition fail {R A} (e : failure) : M R A := λ w, (Fail e, w).

(** [CHECK_LE(a, b) << msg] *)
Definition CHECK_LE {R} (a b : Z) (msg : string) : M R unit :=
  if a <=? b then mret () else fail (CheckFailed msg).

(** [out[i]] as an rvalue and [out[i] = v]. *)
Definition read_out {R} (i : Z) : M R Z := λ w,
  if bool_decide (0 ≤ i < Z.of_nat (length (out w)))
  then (Ok (out w !!! Z.to_nat i), w)
  else (Fail OutOfBounds, w).

Definition write_out {R} (i v : Z) : M R unit := λ w,
  if bool_decide (0 ≤ i < Z.of_nat (length (out w)))
  then (Ok (), mkWorld (engine w) (cache_ w) (<[Z.to_nat i := v]> (out w)))
  else (Fail OutOfBounds, w).

Definition get_cache {R} : M R (gmap string (gset Z)) := λ w, (Ok (cache_ w), w).
Definition put_cache {R} (c : gmap string (gset Z)) : M R unit := λ w,
  (Ok (), mkWorld (engine w) c (out w)).

(** [for (IdxType i = lo; i < hi; ++i) body(i)] *)
Fixpoint for_loop {R} (n : nat) (i : Z) (body : Z → M R unit) : M R unit :=
  match n with
  | O => mret ()
  | S n' => body i ;; for_loop n' (i + 1) body
  end.

Definition for_ {R} (lo hi : Z) (body : Z → M R unit) : M R unit :=
  for_loop (Z.to_nat (hi - lo)) lo body.

(** [std::iota(out, out + num, value)] *)
Definition iota {R} (num value : Z) : M R unit :=
  for_ 0 num (λ i, write_out i (value + i)).

(** [std::copy(first, last, out)] for the sequence [l] the iterators run
    through. *)
Fixpoint copy_from {R} (i : Z) (l : list Z) : M R unit :=
  match l with
  | [] => mret ()
  | x :: l' => write_out i x ;; copy_from (i + 1) l'
  end.

(** [std::to_string] on an integer and on a [bool] (promoted to [int]). *)
Definition to_string (z : Z) : string := pretty z.
Definition to_string_bool (b : bool) : string := if b then "1" else "0".

(** Conversion of a signed integer to [size_t]. *)
Definition to_size_t (z : Z) : Z := z `mod` 2 ^ 64.

Definition check_msg : string :=
  "Cannot take more sample than population when 'replace=false'".

Definition rand_int {R} `{RandomEngine R} (n : Z) : M R Z := λ w,
  let '(v, e) := RandInt n (engine w) in (Ok v, mkWorld e (cache_ w) (out w)).

(** [while (selected.size() < num) selected.insert(RandInt(population));]
    The comparison is between a [size_t] and an [IdxType]. *)
Fixpoint fill_selected {R} `{RandomEngine R} (fuel : nat) (num population : Z)
    (selected : gset Z) : M R (gset Z) :=
  if Z.of_nat (size selected) <? to_size_t num then
    match fuel with
    | O => fail OutOfFuel
    | S fuel' =>
        v ← rand_int population;
        fill_selected fuel' num population ({[v]} ∪ selected)
    end
  else mret selected.

(** [template <typename IdxType>
    void RandomEngine::UniformChoice(IdxType num, IdxType population,
                                     IdxType* out, bool replace)]

    [std_hash] is [std::hash<std::string>], whichever function the library
    has; [fuel] bounds the iterations of the [while] loop.  In the branch
    of the hash set, the local [selected] ends up as the sequence
    [selected.begin()] .. [selected.end()] that [std::copy] runs through:
    that of the set the loop has filled, or that of the copy of the set
    filed in [cache_]. *)
Definition UniformChoice {R} `{RandomEngine R} `{FlatHashSet}
    (std_hash : string → N)
    (fuel : nat) (num population : Z) (replace : bool) : M R unit :=
  (if negb replace then CHECK_LE num population check_msg else mret ());;
  if replace then
    for_ 0 num (λ i, v ← rand_int population; write_out i v)
  else if num <? population `quot` 10 then
    out0 ← read_out 0;
    let hash_key := "" +:+ to_string num in
    let hash_key := hash_key +:+ to_string population in
    let hash_key := hash_key +:+ to_string_bool replace in
    let hash_key := hash_key +:+ to_string out0 in
    let hash_key1 := pretty (std_hash hash_key) in
    cache ← get_cache;
    selected ←
      match cache !! hash_key1 with
      | None =>
          selected ← fill_selected fuel num population ∅;
          put_cache (<[hash_key1 := selected]> cache);;
          mret (table_order selected)
      | Some cache_local => mret (copy_order cache_local)
      end;
    copy_from 0 selected
  else
    for_ 0 num (λ i, write_out i i);;
    for_ num population (λ i,
      j ← rand_int (i + 1);
      if j <? num then write_out j i else mret ()).

Definition draw {R W T} `{BaseSampler R W T} (sampler : T) : M R (Z * T) := λ w,
  let '(v, s, e) := Draw sampler (engine w) in
  (Ok (v, s), mkWorld e (cache_ w) (out w)).

(** [for (IdxType i = 0; i < num; ++i) out[i] = sampler->Draw();] *)
Fixpoint draw_loop {R W T} `{BaseSampler R W T} (n : nat) (i : Z) (sampler : T)
    : M R unit :=
  match n with
  | O => mret ()
  | S n' =>
      '(v, sampler') ← draw sampler;
      write_out i v;;
      draw_loop n' (i + 1) sampler'
  end.

(** [template<typename IdxType, typename FloatType>
    void RandomEngine::Choice(IdxType num, FloatArray prob,
                              IdxType* out, bool replace)]

    [N] is [prob->shape[0]] as it is: [prob] has no more entries than
    [IdxType] can count. *)
Definition Choice {R W T} `{BaseSampler R W T} (num : Z) (prob : list W)
    (replace : bool) : M R unit :=
  let N := Z.of_nat (length prob) in
  (if negb replace then CHECK_LE num N check_msg else mret ());;
  (if (num =? N) && negb replace then iota num 0 else mret ());;
  let sampler : T :=
    if replace then TreeSampler true prob else TreeSampler false prob in
  draw_loop (Z.to_nat (num - 0)) 0 sampler.

(** ** Executable collaborators, to run the samplers on concrete inputs *)

(** An engine that plays back a tape of raw values, each reduced to the
    requested range. *)
Definition Tape : Type := list Z.

#[export] Instance Tape_engine : RandomEngine Tape := {|
  RandInt n e :=
    match e with
    | [] => (0, [])
    | v :: e' => (v `mod` n, e')
    end
|}.

(** A hash set that is run through in ascending order. *)
#[export] Instance ascending_set : FlatHashSet := {|
  table_order X := merge_sort Z.le (elements X);
  copy_order X := merge_sort Z.le (elements X)
|}.

(** A string hash (polynomial, modulo [2^64]). *)
Definition string_hash (s : string) : N :=
  foldl (λ h c, ((h * 31 + Ascii.N_of_ascii c) `mod` 2 ^ 64)%N) 7%N
        (String.list_ascii_of_string s).

(** Modelled from the spec: [utils::TreeSampler] is defined in
    [sample_utils.h], which is not part of the sources at hand.  The
    specification describes a cumulative-weight sampler that draws an index
    in proportion to its weight and, without replacement, removes a drawn
    index from future consideration.  Weights are integers here. *)
Record TreeSamplerState : Type := mkTreeSampler {
  ts_replace : bool;
  ts_weight : list Z
}.

(** The index whose cumulative-weight interval holds [r]. *)
Fixpoint locate (weight : list Z) (r : Z) (i : Z) : Z :=
  match weight with
  | [] => i
  | w :: weight' => if r <? w then i else locate weight' (r - w) (i + 1)
  end.

#[export] Instance cumulative_sampler {R} `{RandomEngine R}
    : BaseSampler R Z TreeSamplerState := {|
  TreeSampler replace prob := mkTreeSampler replace prob;
  Draw s e :=
    let '(r, e') := RandInt (foldr Z.add 0 (ts_weight s)) e in
    let i := locate (ts_weight s) r 0 in
    (i,
     if ts_replace s then s
     else mkTreeSampler false (<[Z.to_nat i := 0]> (ts_weight s)),
     e')
|}.

(** ** Vocabulary of the statements *)

(** The selection of the specification, in its words: start from the first
    [num] natural numbers; then for each candidate [i] from [num] to
    [population - 1] draw [j] in [[0, i]] and, if [j < num], overwrite slot
    [j] with [i]. *)
Definition reservoir_step {R} `{RandomEngine R} (num : Z)
    (acc : list Z * R) (i : Z) : list Z * R :=
  let '(j, e) := RandInt (i + 1) acc.2 in
  (if j <? num then <[Z.to_nat j := i]> acc.1 else acc.1, e).

Definition reservoir_spec {R} `{RandomEngine R} (num population : Z) (e : R)
    : list Z * R :=
  foldl (reservoir_step num) (seqZ 0 num, e) (seqZ num (population - num)).

(** The indices [n] successive calls of [Draw()] give, and the engine
    afterwards. *)
Fixpoint draws_of {R W T} `{BaseSampler R W T} (n : nat) (sampler : T) (e : R)
    : list Z * R :=
  match n with
  | O => ([], e)
  | S n' =>
      let '(v, sampler', e') := Draw sampler e in
      let '(l, e'') := draws_of n' sampler' e' in
      (v :: l, e'')
  end.

(** The key under which [UniformChoice] files and looks up a sample
    ([replace] is [false] where the key is built). *)
Definition cache_key (std_hash : string → N) (num population out0 : Z) : string :=
  pretty (std_hash
    (((("" +:+ to_string num) +:+ to_string population)
        +:+ to_string_bool false) +:+ to_string out0)).


(** The values [n] successive calls of [RandInt(population)] give, and the
    engine afterwards. *)
Fixpoint rand_ints {R} `{RandomEngine R} (n : nat) (population : Z) (e : R)
    : list Z * R :=
  match n with
  | O => ([], e)
  | S n' =>
      let '(v, e') := RandInt population e in
      let '(l, e'') := rand_ints n' population e' in
      (v :: l, e'')
  end.

End RandomChoice.

(* ===================================================================== *)
(** * Properties                                                          *)
(* ===================================================================== *)

Module CooSortSpec.
Import CooSort.

(* --------------------------------------------------------------------- *)
(** ** The comparisons are strict weak orderings                          *)
(* --------------------------------------------------------------------- *)

Ltac zbool :=
  repeat match goal with
  | |- context [?a <? ?b] => destruct (Z.ltb_spec a b)
  | |- context [?a <=? ?b] => destruct (Z.leb_spec a b)
  | |- context [?a =? ?b] => destruct (Z.eqb_spec a b)
  | H : context [?a <? ?b] |- _ => destruct (Z.ltb_spec a b)
  | H : context [?a <=? ?b] |- _ => destruct (Z.leb_spec a b)
  | H : context [?a =? ?b] |- _ => destruct (Z.eqb_spec a b)
  end; simpl in *; try done; try lia.

Lemma comp_row_col_false a b :
  comp_row_col a b = false ↔
  get0 b < get0 a ∨ (get0 a = get0 b ∧ get1 b ≤ get1 a).
Proof. unfold comp_row_col. split; intros; zbool. Qed.

Lemma comp_row_col_true a b :
  comp_row_col a b = true ↔
  get0 a < get0 b ∨ (get0 a = get0 b ∧ get1 a < get1 b).
Proof. unfold comp_row_col. split; intros; zbool. Qed.

#[export] Instance comp_row_col_swo : StrictWeakOrdering comp_row_col.
Proof.
  split.
  - intros x. apply comp_row_col_false. lia.
  - intros x y z. rewrite !comp_row_col_true. lia.
  - intros x y z. rewrite !comp_row_col_false. lia.
Qed.

#[export] Instance comp_row_swo : StrictWeakOrdering comp_row.
Proof.
  unfold comp_row. split.
  - intros x. apply Z.ltb_irrefl.
  - intros x y z. rewrite !Z.ltb_lt. lia.
  - intros x y z. rewrite !Z.ltb_ge. lia.
Qed.

Lemma comp_of_swo sort_column : StrictWeakOrdering (comp_of sort_column).
Proof. destruct sort_column; apply _. Qed.


(** In a strict weak ordering, what is not less than [y] is not less than
    anything [y] is not greater than. *)
Lemma swo_not_less_trans {T : Type} (comp : T → T → bool)
    `{!StrictWeakOrdering comp} x y z :
  comp x y = false → comp y z = false → comp x z = false.
Proof.
  intros Hxy Hyz. destruct (comp x z) eqn:Hxz; [|done].
  destruct (comp y x) eqn:Hyx.
  { by rewrite (swo_trans _ _ _ Hyx Hxz) in Hyz. }
  destruct (comp z y) eqn:Hzy.
  { by rewrite (swo_trans _ _ _ Hxz Hzy) in Hxy. }
  destruct (swo_equiv_trans x y z Hxy Hyx Hyz Hzy) as [Hxz' _]. congruence.
Qed.

Lemma swo_asym {T : Type} (comp : T → T → bool)
    `{!StrictWeakOrdering comp} x y :
  comp x y = true → comp y x = false.
Proof.
  intros Hxy. destruct (comp y x) eqn:Hyx; [|done].
  pose proof (swo_trans _ _ _ Hxy Hyx) as Hxx. by rewrite swo_irrefl in Hxx.
Qed.

(* --------------------------------------------------------------------- *)
(** ** Insertion sort meets the contract of [std::sort]                   *)
(* --------------------------------------------------------------------- *)

Lemma insert_right_snoc comp val l y :
  insert_right comp val (l ++ [y])
  = if comp val y then insert_right comp val l ++ [y] else l ++ [y; val].
Proof.
  unfold insert_right. rewrite reverse_snoc. simpl.
  destruct (comp val y).
  - by rewrite reverse_cons.
  - rewrite !reverse_cons, reverse_involutive. by rewrite <-(assoc_L (++)).
Qed.

Lemma insert_right_perm comp val l : insert_right comp val l ≡ₚ val :: l.
Proof.
  induction l as [|y l IH] using rev_ind; [done|].
  rewrite insert_right_snoc. destruct (comp val y).
  - by rewrite IH.
  - change (l ++ [y; val]) with (l ++ [y] ++ [val]).
    rewrite (assoc_L (++)). by rewrite <-Permutation_cons_append.
Qed.

Lemma length_insert_right comp val l :
  length (insert_right comp val l) = S (length l).
Proof. by rewrite insert_right_perm. Qed.

Lemma insert_right_ordered comp val l :
  StrictWeakOrdering comp →
  ordered_by comp l → ordered_by comp (insert_right comp val l).
Proof.
  intros Hswo. unfold ordered_by.
  induction l as [|y l IH] using rev_ind; intros Hl.
  { repeat constructor. }
  apply StronglySorted_app in Hl as (Hly & Hl & _).
  rewrite insert_right_snoc. destruct (comp val y) eqn:Hvy.
  - apply StronglySorted_app. split_and!; [|by apply IH|repeat constructor].
    intros z ? Hz ->%list_elem_of_singleton.
    rewrite insert_right_perm in Hz.
    apply elem_of_cons in Hz as [->|Hz].
    + by apply swo_asym.
    + apply Hly; [done|by apply list_elem_of_singleton].
  - change (l ++ [y; val]) with (l ++ [y] ++ [val]).
    rewrite (assoc_L (++)). apply StronglySorted_app.
    split_and!; [|apply StronglySorted_app; split_and!;
                    [done..|repeat constructor]|repeat constructor].
    intros z ? Hz ->%list_elem_of_singleton.
    apply elem_of_app in Hz as [Hz| ->%list_elem_of_singleton]; [|done].
    apply (swo_not_less_trans comp val y z); [done|].
    apply Hly; [done|by apply list_elem_of_singleton].
Qed.

Lemma apply_ops_cons op ops l :
  apply_ops (op :: ops) l = apply_ops ops (apply_op l op).
Proof. done. Qed.

Lemma apply_ops_app ops1 ops2 l :
  apply_ops (ops1 ++ ops2) l = apply_ops ops2 (apply_ops ops1 l).
Proof. apply foldl_app. Qed.

(** The operations of [linear_insert] put [val] in its place among the
    positions before the one it came from. *)
Lemma linear_insert_apply comp val (A P Q : list Tuple) h :
  take (length P) A = P →
  apply_ops (linear_insert comp val A (length P)) (P ++ h :: Q)
  = insert_right comp val P ++ Q.
Proof.
  revert h Q. induction P as [|y P IH] using rev_ind; intros h Q Htake; [done|].
  rewrite length_app in Htake |- *. simpl in Htake |- *.
  rewrite Nat.add_1_r in Htake |- *. cbn [linear_insert].
  assert (A !!! length P = y) as ->.
  { apply list_lookup_total_correct.
    rewrite <-(lookup_take_lt A (S (length P))) by lia.
    rewrite Htake. by apply list_lookup_middle. }
  assert (take (length P) A = P) as HtakeP.
  { transitivity (take (length P) (take (S (length P)) A)).
    - rewrite take_take. f_equal. lia.
    - rewrite Htake. apply take_app_length. }
  rewrite insert_right_snoc, <-(assoc_L (++)). simpl.
  destruct (comp val y).
  - rewrite apply_ops_cons. simpl.
    rewrite (list_lookup_total_middle P (h :: Q) y (length P)) by done.
    replace (S (length P)) with (length P + 1)%nat by lia.
    rewrite insert_app_r. simpl.
    rewrite (IH y (y :: Q) HtakeP). by rewrite <-(assoc_L (++)).
  - simpl. replace (S (length P)) with (length P + 1)%nat by lia.
    rewrite insert_app_r. simpl. by rewrite <-(assoc_L (++)).
Qed.

Lemma linear_insert_in_range comp val A j n :
  (j < n)%nat → Forall (op_in_range n) (linear_insert comp val A j).
Proof.
  induction j as [|j IH]; intros Hj; simpl.
  - repeat constructor. done.
  - destruct (comp val (A !!! j)).
    + constructor; [simpl; lia|apply IH; lia].
    + repeat constructor. done.
Qed.

Lemma insertion_ops_correct comp n (P S : list Tuple) :
  StrictWeakOrdering comp → length S = n → ordered_by comp P →
  apply_ops (insertion_ops comp (P ++ S) (length P) n) (P ++ S) ≡ₚ P ++ S ∧
  ordered_by comp (apply_ops (insertion_ops comp (P ++ S) (length P) n) (P ++ S)) ∧
  Forall (op_in_range (length (P ++ S))) (insertion_ops comp (P ++ S) (length P) n).
Proof.
  intros Hswo. revert P S. induction n as [|n IH]; intros P S HS HP.
  { destruct S; [|done]. rewrite app_nil_r. simpl. by split_and!. }
  destruct S as [|x S]; [done|]. injection HS as HS.
  cbn [insertion_ops].
  rewrite (list_lookup_total_middle P S x (length P)) by done.
  rewrite apply_ops_app.
  rewrite (linear_insert_apply comp x (P ++ x :: S) P S x)
    by apply take_app_length.
  rewrite <-(length_insert_right comp x P).
  destruct (IH (insert_right comp x P) S HS
              (insert_right_ordered comp x P Hswo HP)) as (Hperm & Hord & Hrange).
  split_and!.
  - rewrite Hperm, insert_right_perm. simpl. apply Permutation_middle.
  - done.
  - apply Forall_app. split.
    + apply linear_insert_in_range. rewrite length_app. simpl. lia.
    + replace (length (P ++ x :: S))
        with (length (insert_right comp x P ++ S)); [done|].
      rewrite !length_app, length_insert_right. simpl. lia.
Qed.

Lemma insertion_StdSortLaws : @StdSortLaws insertion_StdSort.
Proof.
  assert (∀ comp l, StrictWeakOrdering comp →
    @sorted_values insertion_StdSort comp l ≡ₚ l ∧
    ordered_by comp (@sorted_values insertion_StdSort comp l) ∧
    Forall (op_in_range (length l)) (@std_sort insertion_StdSort comp l)) as Hall.
  { intros comp [|x l] Hswo.
    - unfold sorted_values. simpl. split_and!; [done|constructor|constructor].
    - unfold sorted_values. simpl. rewrite Nat.sub_0_r.
      apply (insertion_ops_correct comp (length l) [x] l Hswo eq_refl).
      repeat constructor. }
  split; intros comp l Hswo; by apply Hall.
Qed.

(* --------------------------------------------------------------------- *)
(** ** The proxy reference keeps the three arrays together                *)
(* --------------------------------------------------------------------- *)

Lemma TupleRef_assign_tuple_wf b n i v :
  buffers_wf b n → buffers_wf (TupleRef_assign_tuple b i v) n.
Proof. intros (?&?&?). unfold buffers_wf; simpl. by rewrite !length_insert. Qed.

(** Reading back the position just written gives the value written, and
    the other positions keep their three cells. *)
Lemma TupleRef_assign_tuple_eq b n i v :
  buffers_wf b n → (i < n)%nat →
  TupleRef_tuple (TupleRef_assign_tuple b i v) i = v.
Proof.
  intros (?&?&?) ?. unfold TupleRef_tuple; simpl.
  rewrite !list_lookup_total_insert_eq by lia. by destruct v as [[??]?].
Qed.

Lemma TupleRef_assign_tuple_ne b i j v :
  i ≠ j → TupleRef_tuple (TupleRef_assign_tuple b i v) j = TupleRef_tuple b j.
Proof.
  intros ?. unfold TupleRef_tuple; simpl.
  by rewrite !list_lookup_total_insert_ne by done.
Qed.

Lemma TupleRef_assign_wf b n i j :
  buffers_wf b n → buffers_wf (TupleRef_assign b i j) n.
Proof. intros (?&?&?). unfold buffers_wf; simpl. by rewrite !length_insert. Qed.

Lemma TupleRef_Swap_wf b n i j :
  buffers_wf b n → buffers_wf (TupleRef_Swap b i j) n.
Proof.
  intros (?&?&?). unfold buffers_wf, TupleRef_Swap, swap_cells.
  cbn [b_row b_col b_data]. by rewrite !length_insert.
Qed.

Lemma range_values_lookup b n i :
  (i < n)%nat → range_values b n !! i = Some (TupleRef_tuple b i).
Proof.
  intros ?. unfold range_values.
  by rewrite list_lookup_fmap, lookup_seq_lt by done.
Qed.

Lemma length_range_values b n : length (range_values b n) = n.
Proof. unfold range_values. by rewrite length_fmap, length_seq. Qed.

(** [TupleRef::operator=(const TupleRef&)] copies one whole record. *)
Lemma range_values_lookup_total b n i :
  (i < n)%nat → range_values b n !!! i = TupleRef_tuple b i.
Proof. intros ?. by apply list_lookup_total_correct, range_values_lookup. Qed.

(** [TupleRef::operator=(const std::tuple&)] writes one whole record. *)
Lemma TupleRef_assign_tuple_values b n i v :
  buffers_wf b n → (i < n)%nat →
  range_values (TupleRef_assign_tuple b i v) n = <[i := v]> (range_values b n).
Proof.
  intros Hb ?. apply list_eq_same_length with n;
    [by rewrite ?length_insert, length_range_values..|].
  intros k x y Hk. rewrite range_values_lookup by done.
  intros [= <-]. destruct (decide (i = k)) as [->|Hne].
  - rewrite list_lookup_insert_eq by (by rewrite length_range_values).
    intros [= <-]. by apply (TupleRef_assign_tuple_eq _ n).
  - rewrite list_lookup_insert_ne, range_values_lookup by done.
    intros [= <-]. by apply TupleRef_assign_tuple_ne.
Qed.

Lemma TupleRef_assign_values b n i j :
  buffers_wf b n → (i < n)%nat →
  range_values (TupleRef_assign b i j) n
  = <[i := TupleRef_tuple b j]> (range_values b n).
Proof.
  intros (?&?&?) ?. apply list_eq_same_length with n;
    [by rewrite ?length_insert, length_range_values..|].
  intros k x y Hk. rewrite range_values_lookup by done.
  intros [= <-]. destruct (decide (i = k)) as [->|Hne].
  - rewrite list_lookup_insert_eq by (by rewrite length_range_values).
    intros [= <-]. unfold TupleRef_tuple, TupleRef_assign; simpl.
    by rewrite !list_lookup_total_insert_eq by lia.
  - rewrite list_lookup_insert_ne, range_values_lookup by done.
    intros [= <-]. unfold TupleRef_tuple, TupleRef_assign; simpl.
    by rewrite !list_lookup_total_insert_ne by done.
Qed.

Lemma swap_cells_lookup (l : list Z) i j k :
  (i < length l)%nat → (j < length l)%nat →
  swap_cells l i j !!! k
  = if decide (k = j) then l !!! i else if decide (k = i) then l !!! j else l !!! k.
Proof.
  intros ??. unfold swap_cells. destruct (decide (k = j)) as [->|?].
  - by rewrite list_lookup_total_insert_eq by (by rewrite length_insert).
  - rewrite list_lookup_total_insert_ne by done.
    destruct (decide (k = i)) as [->|?].
    + by rewrite list_lookup_total_insert_eq.
    + by rewrite list_lookup_total_insert_ne.
Qed.

(** [TupleRef::Swap] exchanges two whole records. *)
Lemma TupleRef_Swap_values b n i j :
  buffers_wf b n → (i < n)%nat → (j < n)%nat →
  range_values (TupleRef_Swap b i j) n
  = <[j := TupleRef_tuple b i]> (<[i := TupleRef_tuple b j]> (range_values b n)).
Proof.
  intros (?&?&?) ??. apply list_eq_same_length with n;
    [by rewrite ?length_insert, length_range_values..|].
  intros k x y Hk. rewrite range_values_lookup by done.
  intros [= <-]. unfold TupleRef_tuple, TupleRef_Swap; cbn [b_row b_col b_data].
  rewrite !swap_cells_lookup by lia.
  destruct (decide (k = j)) as [->|?].
  - rewrite list_lookup_insert_eq
      by (by rewrite length_insert, length_range_values).
    by intros [= <-].
  - rewrite list_lookup_insert_ne by done.
    destruct (decide (k = i)) as [->|?].
    + rewrite list_lookup_insert_eq by (by rewrite length_range_values).
      by intros [= <-].
    + rewrite list_lookup_insert_ne, range_values_lookup by done.
      by intros [= <-].
Qed.

(** Writing [vals] back from position [i]. *)
(** Carried out through [TupleRef] on the three buffers, the operations of
    a sort do to the records what they do to an array of records. *)
Lemma exec_op_values b n op :
  buffers_wf b n → op_in_range n op →
  buffers_wf (exec_op b op) n ∧
  range_values (exec_op b op) n = apply_op (range_values b n) op.
Proof.
  intros Hb Hop. destruct op as [i j|i j|i v]; simpl in *.
  - destruct Hop. split; [by apply TupleRef_Swap_wf|].
    rewrite (TupleRef_Swap_values b n) by done.
    by rewrite !range_values_lookup_total by done.
  - destruct Hop. split; [by apply TupleRef_assign_wf|].
    rewrite (TupleRef_assign_values b n) by done.
    by rewrite !range_values_lookup_total by done.
  - split; [by apply TupleRef_assign_tuple_wf|].
    by apply TupleRef_assign_tuple_values.
Qed.

Lemma exec_ops_values b n ops :
  buffers_wf b n → Forall (op_in_range n) ops →
  buffers_wf (exec_ops ops b) n ∧
  range_values (exec_ops ops b) n = apply_ops ops (range_values b n).
Proof.
  intros Hb Hops. revert b Hb.
  induction Hops as [|op ops Hop Hops IH]; intros b Hb; [done|].
  destruct (exec_op_values b n op Hb Hop) as [Hb' Hv].
  unfold exec_ops, apply_ops. simpl. rewrite <-Hv. by apply IH.
Qed.

Lemma buffers_of_values b n :
  buffers_wf b n →
  b = mkBuffers (get0 <$> range_values b n) (get1 <$> range_values b n)
                (get2 <$> range_values b n).
Proof.
  intros (Hr & Hc & Hd). destruct b as [r c d]. simpl in *.
  f_equal; (apply list_eq_same_length with n;
    [by rewrite length_fmap, length_range_values|done|]);
    intros k x y Hk Hx; rewrite list_lookup_fmap, range_values_lookup by done;
    intros [= <-]; unfold TupleRef_tuple; simpl;
    by rewrite (list_lookup_total_correct _ _ _ Hx).
Qed.

(* --------------------------------------------------------------------- *)
(** ** [COOSort_] sorts the records                                       *)
(* --------------------------------------------------------------------- *)

Lemma length_Range_0 (n : nat) : length (Range 0 (Z.of_nat n)) = n.
Proof. unfold Range. rewrite length_seqZ. lia. Qed.

Lemma coo_wf_buffers coo :
  coo_wf coo →
  buffers_wf (mkBuffers (row coo) (col coo) (payload coo)) (length (row coo)).
Proof.
  intros [Hc Hd]. unfold buffers_wf, payload; simpl.
  split_and!; [done..|]. destruct (data coo); [done|apply length_Range_0].
Qed.

Lemma triples_lookup coo i :
  (i < length (row coo))%nat →
  triples coo !! i = Some (row coo !!! i, col coo !!! i, payload coo !!! i).
Proof. intros ?. unfold triples. by rewrite list_lookup_fmap, lookup_seq_lt by done. Qed.

Lemma length_triples coo : length (triples coo) = length (row coo).
Proof. unfold triples. by rewrite length_fmap, length_seq. Qed.

Lemma Buffers_eta b : mkBuffers (b_row b) (b_col b) (b_data b) = b.
Proof. by destruct b. Qed.

Lemma triples_values coo :
  triples coo
  = range_values (mkBuffers (row coo) (col coo) (payload coo)) (length (row coo)).
Proof. done. Qed.

Section COOSort_facts.
Context `{StdSortLaws}.

Lemma COOSort_unfold coo sort_column :
  COOSort_ coo sort_column
  = let b' := sort_range (comp_of sort_column)
                (mkBuffers (row coo) (col coo) (payload coo)) (length (row coo)) in
    {| row := b_row b'; col := b_col b'; data := Some (b_data b');
       row_sorted := true; col_sorted := sort_column |}.
Proof.
  unfold COOSort_, COOHasData, payload, comp_of.
  by destruct (data coo), sort_column.
Qed.

Lemma sort_range_values comp b n :
  StrictWeakOrdering comp → buffers_wf b n →
  buffers_wf (sort_range comp b n) n ∧
  range_values (sort_range comp b n) n = sorted_values comp (range_values b n).
Proof.
  intros Hswo Hb. unfold sort_range, sorted_values.
  apply exec_ops_values; [done|].
  pose proof (std_sort_in_range comp (range_values b n) Hswo) as Hr.
  by rewrite length_range_values in Hr.
Qed.

Lemma COOSort_length coo sort_column :
  coo_wf coo → length (row (COOSort_ coo sort_column)) = length (row coo).
Proof.
  intros Hwf%coo_wf_buffers. rewrite COOSort_unfold. simpl.
  by destruct (sort_range_values (comp_of sort_column) _ _
                 (comp_of_swo sort_column) Hwf) as [(?&?&?) _].
Qed.

Lemma COOSort_wf coo sort_column :
  coo_wf coo → coo_wf (COOSort_ coo sort_column).
Proof.
  intros Hwf%coo_wf_buffers. rewrite COOSort_unfold.
  destruct (sort_range_values (comp_of sort_column) _ _
              (comp_of_swo sort_column) Hwf) as [(?&?&?) _].
  unfold coo_wf; simpl; split; congruence.
Qed.

(** The records after the call are the sorted records of before. *)
Lemma COOSort_triples coo sort_column :
  coo_wf coo →
  triples (COOSort_ coo sort_column)
  = sorted_values (comp_of sort_column) (triples coo).
Proof.
  intros Hwf. pose proof (COOSort_length coo sort_column Hwf) as Hlen.
  apply coo_wf_buffers in Hwf.
  rewrite (triples_values (COOSort_ _ _)), Hlen, COOSort_unfold.
  unfold payload at 1. cbn [row col data]. rewrite Buffers_eta.
  by apply sort_range_values; [apply comp_of_swo|].
Qed.
End COOSort_facts.

Lemma ordered_by_lookup {T : Type} (comp : T → T → bool) (l : list T) i j x y :
  ordered_by comp l → (i < j)%nat →
  l !! i = Some x → l !! j = Some y → comp y x = false.
Proof.
  unfold ordered_by. intros Hl. revert i j.
  induction Hl as [|a l Hl IH Ha]; intros i j Hij Hi Hj; [done|].
  destruct j as [|j]; [lia|]. destruct i as [|i]; simpl in *.
  - injection Hi as ->. rewrite Forall_forall in Ha.
    apply Ha. by eapply list_elem_of_lookup_2.
  - apply (IH i j); [lia|done..].
Qed.

Lemma ordered_rows_nondecreasing coo comp :
  (∀ a b, comp b a = false → get0 a ≤ get0 b) →
  ordered_by comp (triples coo) → rows_nondecreasing coo.
Proof.
  intros Hcomp Hord i j Hij.
  destruct (decide (i = j)) as [->|Hne]; [done|].
  apply (Hcomp (row coo !!! i, col coo !!! i, payload coo !!! i)
               (row coo !!! j, col coo !!! j, payload coo !!! j)).
  apply (ordered_by_lookup comp (triples coo) i j);
    [done|lia|by apply triples_lookup; lia..].
Qed.

Lemma ordered_cols_nondecreasing coo :
  ordered_by comp_row_col (triples coo) → cols_nondecreasing_in_runs coo.
Proof.
  intros Hord i j Hij Hrun.
  destruct (decide (i = j)) as [->|Hne]; [done|].
  pose proof (ordered_by_lookup comp_row_col (triples coo) i j _ _ Hord
    ltac:(lia) (triples_lookup coo i ltac:(lia)) (triples_lookup coo j ltac:(lia)))
    as Hc.
  apply comp_row_col_false in Hc. unfold get0, get1 in Hc; simpl in Hc.
  specialize (Hrun j ltac:(lia)). lia.
Qed.

(* --------------------------------------------------------------------- *)
(** ** [COOIsSorted] decides sortedness                                   *)
(* --------------------------------------------------------------------- *)

Section IsSorted.
Variables (row col : list Z) (nnz : nat).



Lemma COOIsSorted_loop_spec fuel i rs cs :
  (nnz - i ≤ fuel)%nat →
  let r := COOIsSorted_loop row col nnz fuel i rs cs in
  (r.1 = true ↔ rs = true ∧ ∀ k, (i ≤ k < nnz)%nat → row_step row k) ∧
  (r.1 = true →
   (r.2 = true ↔ cs = true ∧ ∀ k, (i ≤ k < nnz)%nat → col_step row col k)).
Proof.
  revert i rs cs. induction fuel as [|fuel IH]; intros i rs cs Hfuel; simpl.
  - split; [|intros _]; (split; [intros ->; split; [done|intros; lia]|by intros [? _]]).
  - destruct (rs && bool_decide (i < nnz)%nat) eqn:Hguard.
    + apply andb_true_iff in Hguard as [-> Hi%bool_decide_eq_true].
      destruct (IH (S i) (row !!! (i - 1)%nat <=? row !!! i)
        (cs && ((row !!! (i - 1)%nat <? row !!! i) || (col !!! (i - 1)%nat <=? col !!! i)))
        ltac:(lia)) as [IHr IHc].
      assert (∀ P : nat → Prop,
        (∀ k, (i ≤ k < nnz)%nat → P k) ↔ P i ∧ ∀ k, (S i ≤ k < nnz)%nat → P k)
        as Hsplit.
      { intros P. split.
        - intros HP. split; [apply HP; lia|intros; apply HP; lia].
        - intros [Hi' HP] k Hk. destruct (decide (k = i)) as [->|]; [done|].
          apply HP; lia. }
      split.
      * rewrite IHr, Hsplit, Z.leb_le. unfold row_step. tauto.
      * intros Hr. rewrite (IHc Hr), Hsplit, andb_true_iff, orb_true_iff,
          Z.ltb_lt, Z.leb_le.
        unfold col_step. tauto.
    + apply andb_false_iff in Hguard as [->|Hi%bool_decide_eq_false]; simpl.
      * split; [|done]. split; [done|by intros [? _]].
      * split; [|intros _]; (split; [intros ->; split; [done|intros; lia]|by intros [? _]]).
Qed.
End IsSorted.

Lemma rows_nondecreasing_steps coo :
  rows_nondecreasing coo ↔
  ∀ k, (1 ≤ k < length (row coo))%nat → row_step (row coo) k.
Proof.
  unfold rows_nondecreasing, row_step. split.
  - intros Hr k Hk. apply Hr. lia.
  - intros Hs i j [Hij Hj]. induction Hij as [|j Hij IH]; [done|].
    etrans; [apply IH; lia|].
    specialize (Hs (S j) ltac:(lia)). by replace (S j - 1)%nat with j in Hs by lia.
Qed.

Lemma cols_nondecreasing_steps coo :
  rows_nondecreasing coo →
  cols_nondecreasing_in_runs coo ↔
  ∀ k, (1 ≤ k < length (row coo))%nat → col_step (row coo) (col coo) k.
Proof.
  intros Hrows. unfold cols_nondecreasing_in_runs, col_step. split.
  - intros Hc k Hk.
    destruct (decide (row coo !!! (k - 1)%nat < row coo !!! k)); [by left|right].
    apply Hc; [lia|]. intros k' Hk'.
    assert (k' = (k - 1)%nat ∨ k' = k) as [->| ->] by lia; [done|].
    specialize (Hrows (k - 1)%nat k ltac:(lia)). lia.
  - intros Hs i j [Hij Hj]. induction Hij as [|j Hij IH]; [done|].
    intros Hrun. etrans; [apply IH; [lia|intros; apply Hrun; lia]|].
    specialize (Hs (S j) ltac:(lia)). replace (S j - 1)%nat with j in Hs by lia.
    pose proof (Hrun j ltac:(lia)). pose proof (Hrun (S j) ltac:(lia)). lia.
Qed.

Lemma COOIsSorted_correct coo :
  ((COOIsSorted coo).1 = true ↔ rows_nondecreasing coo) ∧
  ((COOIsSorted coo).2 = true ↔
   rows_nondecreasing coo ∧ cols_nondecreasing_in_runs coo).
Proof.
  unfold COOIsSorted.
  pose proof (COOIsSorted_loop_spec (row coo) (col coo) (length (row coo))
                (length (row coo)) 1 true true ltac:(lia)) as [Hr Hc].
  destruct (COOIsSorted_loop _ _ _ _ _ _ _) as [rs cs]; simpl in *.
  assert (rs = true ↔ rows_nondecreasing coo) as Hrows.
  { rewrite rows_nondecreasing_steps, Hr. tauto. }
  split; [done|]. destruct rs; simpl.
  - pose proof (proj1 Hrows eq_refl) as Hrows'.
    rewrite (cols_nondecreasing_steps _ Hrows'), (Hc eq_refl). tauto.
  - split; [done|]. intros [Hrows' _]. by apply Hrows in Hrows'.
Qed.

(* --------------------------------------------------------------------- *)

Lemma sorted_values_example `{StdSortLaws} :
  sorted_values comp_row_col [(2, 1, 0); (0, 3, 1); (1, 0, 2); (0, 1, 3)]
  = [(0, 1, 3); (0, 3, 1); (1, 0, 2); (2, 1, 0)].
Proof.
  apply (StronglySorted_unique_strong (λ a b, comp_row_col b a = false)).
  - intros x1 x2 Hx1 Hx2 H12%comp_row_col_false H21%comp_row_col_false.
    rewrite (std_sort_perm _ _ comp_row_col_swo) in Hx1. set_unfold.
    destruct Hx1 as [->|[->|[->|[->|[]]]]], Hx2 as [->|[->|[->|[->|[]]]]];
      unfold get0, get1 in *; simpl in *; first [done|lia].
  - apply std_sort_ordered, _.
  - repeat constructor.
  - rewrite (std_sort_perm _ _ comp_row_col_swo).
    rewrite <-(std_sort_perm (H := insertion_StdSort)
                 (StdSortLaws := insertion_StdSortLaws) comp_row_col
                 [(2, 1, 0); (0, 3, 1); (1, 0, 2); (0, 1, 3)] comp_row_col_swo).
    by vm_compute.
Qed.

Lemma COOSort_example `{StdSortLaws} :
  COOSort_ example_coo true
  = {| row := [0; 0; 1; 2]; col := [1; 3; 0; 1]; data := Some [3; 1; 2; 0];
       row_sorted := true; col_sorted := true |}.
Proof.
  rewrite COOSort_unfold. cbv zeta.
  destruct (sort_range_values comp_row_col
              (mkBuffers (row example_coo) (col example_coo) (payload example_coo))
              (length (row example_coo)) comp_row_col_swo
              ltac:(by apply coo_wf_buffers)) as [Hwf Hvals].
  change (range_values _ _) with [(2, 1, 0); (0, 3, 1); (1, 0, 2); (0, 1, 3)]
    in Hvals at 2.
  rewrite sorted_values_example in Hvals.
  change (comp_of true) with comp_row_col.
  rewrite (buffers_of_values _ _ Hwf), Hvals. done.
Qed.

(* --------------------------------------------------------------------- *)
(** ** The statements of the specification                                *)
(* --------------------------------------------------------------------- *)

(** C7.  For every coordinate matrix, [COOIsSorted] returns
    [rowSorted = true] exactly when the row array is non-decreasing, and
    [colSorted = true] exactly when the row array is non-decreasing and the
    column values are non-decreasing within every run of equal row values;
    whenever [rowSorted] is [false], so is [colSorted]. *)
Theorem COOIsSorted_spec (coo : COOMatrix) :
  coo_wf coo →
  ((COOIsSorted coo).1 = true ↔ rows_nondecreasing coo) ∧
  ((COOIsSorted coo).2 = true ↔
   rows_nondecreasing coo ∧ cols_nondecreasing_in_runs coo) ∧
  ((COOIsSorted coo).1 = false → (COOIsSorted coo).2 = false).
Proof.
  intros _. destruct (COOIsSorted_correct coo) as [Hr Hc].
  split_and!; [done..|]. intros Hfalse.
  destruct (COOIsSorted coo) as [rs cs]; simpl in *.
  destruct cs; [|done].
  destruct (proj1 Hc eq_refl) as [Hrows%Hr _]. congruence.
Qed.

(** A matrix whose rows are sorted but whose columns are not, inside the
    run of rows equal to 1. *)
Lemma COOIsSorted_spec_witness :
  let coo := mkCOO [0; 1; 1; 2] [5; 4; 3; 0] (Some [0; 1; 2; 3]) false false in
  coo_wf coo ∧
  COOIsSorted coo = (true, false) ∧
  ((COOIsSorted coo).1 = true ↔ rows_nondecreasing coo) ∧
  ((COOIsSorted coo).2 = true ↔
   rows_nondecreasing coo ∧ cols_nondecreasing_in_runs coo) ∧
  ((COOIsSorted coo).1 = false → (COOIsSorted coo).2 = false).
Proof.
  intros coo.
  assert (coo_wf coo) as Hwf by (split; reflexivity).
  split; [exact Hwf|]. split; [reflexivity|].
  exact (COOIsSorted_spec coo Hwf).
Defined.

Section Statements.
Context `{StdSortLaws}.

(** C5.  After [COOSort_(matrix, true)] the row array is non-decreasing
    and within every run of equal rows the column array is
    non-decreasing, so [COOIsSorted] returns [(true, true)]; after
    [COOSort_(matrix, false)] the row array is non-decreasing; and on
    completion the flags are [row_sorted = true] and
    [col_sorted = sort_column]. *)
Theorem COOSort_sorts (coo : COOMatrix) :
  coo_wf coo →
  (rows_nondecreasing (COOSort_ coo true) ∧
   cols_nondecreasing_in_runs (COOSort_ coo true) ∧
   COOIsSorted (COOSort_ coo true) = (true, true)) ∧
  (rows_nondecreasing (COOSort_ coo false) ∧
   (COOIsSorted (COOSort_ coo false)).1 = true) ∧
  (∀ sort_column : bool,
     row_sorted (COOSort_ coo sort_column) = true ∧
     col_sorted (COOSort_ coo sort_column) = sort_column).
Proof.
  intros Hwf.
  assert (rows_nondecreasing (COOSort_ coo true)) as Hr1.
  { apply (ordered_rows_nondecreasing _ comp_row_col).
    - intros a b Hab%comp_row_col_false. lia.
    - rewrite (COOSort_triples coo true Hwf). apply std_sort_ordered, _. }
  assert (cols_nondecreasing_in_runs (COOSort_ coo true)) as Hc1.
  { apply ordered_cols_nondecreasing.
    rewrite (COOSort_triples coo true Hwf). apply std_sort_ordered, _. }
  assert (rows_nondecreasing (COOSort_ coo false)) as Hr0.
  { apply (ordered_rows_nondecreasing _ comp_row).
    - unfold comp_row. intros a b Hab%Z.ltb_ge. lia.
    - rewrite (COOSort_triples coo false Hwf). apply std_sort_ordered, _. }
  split_and!; try done.
  - destruct (COOIsSorted_correct (COOSort_ coo true)) as [Hr Hc].
    destruct (COOIsSorted (COOSort_ coo true)) as [rs cs]; simpl in *.
    f_equal; [by apply Hr|by apply Hc].
  - by apply (COOIsSorted_correct (COOSort_ coo false)).
Qed.

(** C6.  For either value of [sort_column], the multiset of triples
    [(row[i], col[i], payload[i])] is the same before and after
    [COOSort_]: one permutation of the positions carries all three
    arrays. *)
Theorem COOSort_permutes (coo : COOMatrix) (sort_column : bool) :
  coo_wf coo →
  triples (COOSort_ coo sort_column) ≡ₚ triples coo ∧
  ∃ f : nat → nat, Inj (=) (=) f ∧
    ∀ i : nat, (i < length (row coo))%nat →
      (f i < length (row coo))%nat ∧
      row (COOSort_ coo sort_column) !!! i = row coo !!! f i ∧
      col (COOSort_ coo sort_column) !!! i = col coo !!! f i ∧
      payload (COOSort_ coo sort_column) !!! i = payload coo !!! f i.
Proof.
  intros Hwf.
  assert (triples (COOSort_ coo sort_column) ≡ₚ triples coo) as Hperm.
  { rewrite (COOSort_triples coo sort_column Hwf).
    apply std_sort_perm, comp_of_swo. }
  split; [done|].
  apply Permutation_inj in Hperm as (_ & f & Hinj & Hf).
  exists f. split; [done|]. intros i Hi.
  specialize (Hf i).
  rewrite triples_lookup in Hf by (by rewrite COOSort_length).
  symmetry in Hf. pose proof (lookup_lt_Some _ _ _ Hf) as Hfi.
  rewrite length_triples in Hfi. rewrite triples_lookup in Hf by done.
  injection Hf as -> -> ->. done.
Qed.

(** C10 (amended).  For rows [2,0,1,0], columns [1,3,0,1] and no payload
    array, [COOSort_] first takes the payload to be [0,1,2,3]; sorting
    with [sort_column = true] gives rows [0,0,1,2], columns [1,3,0,1],
    payload [3,1,2,0] (the original positions) and flags
    [(true, true)]. *)
Theorem COOSort_example_result :
  payload example_coo = [0; 1; 2; 3] ∧
  COOSort_ example_coo true
  = {| row := [0; 0; 1; 2]; col := [1; 3; 0; 1]; data := Some [3; 1; 2; 0];
       row_sorted := true; col_sorted := true |}.
Proof. split; [reflexivity|apply COOSort_example]. Qed.
End Statements.

Lemma COOSort_sorts_witness :
  let coo := mkCOO [3; 1; 3; 0; 1] [0; 7; -2; 4; 7] (Some [10; 11; 12; 13; 14])
                   false false in
  coo_wf coo ∧
  COOIsSorted (@COOSort_ insertion_StdSort coo true) = (true, true) ∧
  (COOIsSorted (@COOSort_ insertion_StdSort coo false)).1 = true.
Proof.
  intros coo.
  assert (coo_wf coo) as Hwf by (split; reflexivity).
  split; [exact Hwf|].
  destruct (@COOSort_sorts insertion_StdSort insertion_StdSortLaws coo Hwf)
    as ((_ & _ & Htrue) & (_ & Hfalse) & _).
  split; [exact Htrue|exact Hfalse].
Defined.

Lemma COOSort_permutes_witness :
  let coo := mkCOO [3; 1; 3; 0; 1] [0; 7; -2; 4; 7] None false false in
  coo_wf coo ∧
  triples (@COOSort_ insertion_StdSort coo false) ≡ₚ triples coo.
Proof.
  intros coo.
  assert (coo_wf coo) as Hwf by (split; reflexivity).
  split; [exact Hwf|].
  exact (proj1 (@COOSort_permutes insertion_StdSort insertion_StdSortLaws
                  coo false Hwf)).
Defined.

Lemma COOSort_example_result_witness :
  payload example_coo = [0; 1; 2; 3] ∧
  @COOSort_ insertion_StdSort example_coo true
  = {| row := [0; 0; 1; 2]; col := [1; 3; 0; 1]; data := Some [3; 1; 2; 0];
       row_sorted := true; col_sorted := true |}.
Proof.
  exact (@COOSort_example_result insertion_StdSort insertion_StdSortLaws).
Defined.

(** C10 as the specification words it (payload [1,3,2,0]) does not hold:
    insertion sort does not give that payload, and neither does any other
    [std::sort]. *)
Lemma COOSort_example_payload_counterexample :
  @COOSort_ insertion_StdSort example_coo true
  ≠ {| row := [0; 0; 1; 2]; col := [1; 3; 0; 1]; data := Some [1; 3; 2; 0];
       row_sorted := true; col_sorted := true |} ∧
  ¬ ∃ S : StdSort, @StdSortLaws S ∧
      @COOSort_ S example_coo true
      = {| row := [0; 0; 1; 2]; col := [1; 3; 0; 1]; data := Some [1; 3; 2; 0];
           row_sorted := true; col_sorted := true |}.
Proof.
  split.
  - by vm_compute.
  - intros (S & HL & HS). by rewrite COOSort_example in HS.
Qed.

(* --------------------------------------------------------------------- *)
(** ** Further properties of [TupleRef] and [CooIterator]                 *)
(* --------------------------------------------------------------------- *)

Lemma list_eq_total (l1 l2 : list Z) :
  length l1 = length l2 →
  (∀ k, (k < length l1)%nat → l1 !!! k = l2 !!! k) → l1 = l2.
Proof.
  intros Hlen Hk. apply list_eq_same_length with (length l1); [done..|].
  intros k x y Hlt Hx Hy.
  apply list_lookup_total_correct in Hx, Hy. rewrite <-Hx, <-Hy. by apply Hk.
Qed.

Lemma length_swap_cells (l : list Z) i j : length (swap_cells l i j) = length l.
Proof. unfold swap_cells. by rewrite !length_insert. Qed.

Lemma swap_cells_involutive (l : list Z) i j :
  (i < length l)%nat → (j < length l)%nat →
  swap_cells (swap_cells l i j) i j = l.
Proof.
  intros Hi Hj. apply list_eq_total; [by rewrite !length_swap_cells|].
  intros k _. rewrite swap_cells_lookup by (by rewrite length_swap_cells).
  rewrite !swap_cells_lookup by done.
  repeat case_decide; congruence.
Qed.

(** X1.  Assigning through a [TupleRef] writes one whole record: after
    [*ref = val] the reference converts back to [val], after
    [*ref = other] it converts to what [other] converted to, and every
    other position keeps its record. *)
Theorem TupleRef_assign_read_back (b : Buffers) (n i j k : nat) (val : Tuple) :
  buffers_wf b n → (i < n)%nat → (j < n)%nat → k ≠ i →
  (buffers_wf (TupleRef_assign_tuple b i val) n ∧
   TupleRef_tuple (TupleRef_assign_tuple b i val) i = val ∧
   TupleRef_tuple (TupleRef_assign_tuple b i val) k = TupleRef_tuple b k) ∧
  (buffers_wf (TupleRef_assign b i j) n ∧
   TupleRef_tuple (TupleRef_assign b i j) i = TupleRef_tuple b j ∧
   TupleRef_tuple (TupleRef_assign b i j) k = TupleRef_tuple b k).
Proof.
  intros Hb Hi Hj Hk. split; split_and!.
  - by apply TupleRef_assign_tuple_wf.
  - by apply (TupleRef_assign_tuple_eq b n).
  - by apply TupleRef_assign_tuple_ne.
  - by apply TupleRef_assign_wf.
  - destruct Hb as (?&?&?). unfold TupleRef_tuple, TupleRef_assign; simpl.
    by rewrite !list_lookup_total_insert_eq by lia.
  - unfold TupleRef_tuple, TupleRef_assign; simpl.
    by rewrite !list_lookup_total_insert_ne by done.
Qed.

Lemma TupleRef_assign_read_back_witness :
  let b := mkBuffers [5; 6; 7] [1; 2; 3] [0; 1; 2] in
  (buffers_wf b 3 ∧ (0 < 3)%nat ∧ (2 < 3)%nat ∧ 1%nat ≠ 0%nat) ∧
  TupleRef_assign_tuple b 0 (9, 8, 7) = mkBuffers [9; 6; 7] [8; 2; 3] [7; 1; 2] ∧
  TupleRef_tuple (TupleRef_assign b 0 2) 0 = (7, 3, 2).
Proof.
  intros b.
  assert (buffers_wf b 3) as Hb by (by repeat split).
  assert (0 < 3)%nat as H0 by lia.
  assert (2 < 3)%nat as H2 by lia.
  assert (1%nat ≠ 0%nat) as H1 by lia.
  split; [done|]. split; [reflexivity|].
  exact (proj1 (proj2 (proj2
           (TupleRef_assign_read_back b 3 0 2 1 (9, 8, 7) Hb H0 H2 H1)))).
Defined.

(** X2.  [TupleRef::Swap] (and so the [swap] overload [std::sort] finds)
    exchanges the records of two positions, leaves the others, and undoes
    itself when applied again. *)
Theorem TupleRef_Swap_exchanges (b : Buffers) (n i j : nat) :
  buffers_wf b n → (i < n)%nat → (j < n)%nat →
  buffers_wf (TupleRef_Swap b i j) n ∧
  TupleRef_tuple (TupleRef_Swap b i j) i = TupleRef_tuple b j ∧
  TupleRef_tuple (TupleRef_Swap b i j) j = TupleRef_tuple b i ∧
  (∀ k : nat, k ≠ i → k ≠ j →
     TupleRef_tuple (TupleRef_Swap b i j) k = TupleRef_tuple b k) ∧
  TupleRef_Swap (TupleRef_Swap b i j) i j = b.
Proof.
  intros Hb Hi Hj. pose proof Hb as (Hr & Hc & Hd).
  split_and!.
  - by apply TupleRef_Swap_wf.
  - unfold TupleRef_tuple, TupleRef_Swap. cbn [b_row b_col b_data].
    rewrite !swap_cells_lookup by lia. by repeat case_decide; subst.
  - unfold TupleRef_tuple, TupleRef_Swap. cbn [b_row b_col b_data].
    rewrite !swap_cells_lookup by lia. by repeat case_decide; subst.
  - intros k Hki Hkj. unfold TupleRef_tuple, TupleRef_Swap.
    cbn [b_row b_col b_data].
    rewrite !swap_cells_lookup by lia. by repeat case_decide; subst.
  - destruct b as [r c d]. unfold TupleRef_Swap. simpl in *.
    by rewrite !swap_cells_involutive by lia.
Qed.

Lemma TupleRef_Swap_exchanges_witness :
  let b := mkBuffers [5; 6; 7] [1; 2; 3] [0; 1; 2] in
  (buffers_wf b 3 ∧ (0 < 3)%nat ∧ (2 < 3)%nat) ∧
  TupleRef_Swap b 0 2 = mkBuffers [7; 6; 5] [3; 2; 1] [2; 1; 0] ∧
  TupleRef_Swap (TupleRef_Swap b 0 2) 0 2 = b.
Proof.
  intros b.
  assert (buffers_wf b 3) as Hb by (by repeat split).
  assert (0 < 3)%nat as H0 by lia.
  assert (2 < 3)%nat as H2 by lia.
  split; [done|]. split; [reflexivity|].
  exact (proj2 (proj2 (proj2 (proj2 (TupleRef_Swap_exchanges b 3 0 2 Hb H0 H2))))).
Defined.

Lemma iter_of_in_step first it :
  iter_of first it →
  it = CooIterator_plus first (CooIterator_diff it first).
Proof.
  unfold CooIterator_plus, CooIterator_diff, CooIterator_add_assign.
  induction 1 as [|it m _ IH|it m _ IH].
  - destruct first; simpl. f_equal; lia.
  - rewrite IH at 1. unfold CooIterator_add_assign. simpl. f_equal; lia.
  - rewrite IH at 1. unfold CooIterator_sub_assign. simpl. f_equal; lia.
Qed.

(** X3.  The operators of [CooIterator] move the three pointers in step.
    So for iterators obtained from one [first], although the comparisons
    and the difference look at [row] only, [a == b] holds exactly when all
    three pointers agree, [a < b] exactly when [a - b < 0], [b + (a - b)]
    is [a], and [*a] refers to the three cells at one offset from
    those of [first]. *)
Theorem CooIterator_in_step (first a b : CooIterator) :
  iter_of first a → iter_of first b →
  (CooIterator_eq a b = true ↔ a = b) ∧
  (CooIterator_ne a b = true ↔ a ≠ b) ∧
  (CooIterator_lt a b = true ↔ CooIterator_diff a b < 0) ∧
  CooIterator_plus b (CooIterator_diff a b) = a ∧
  CooIterator_deref a
  = {| ref_row := it_row first + CooIterator_diff a first;
       ref_col := it_col first + CooIterator_diff a first;
       ref_data := it_data first + CooIterator_diff a first |}.
Proof.
  intros Ha%iter_of_in_step Hb%iter_of_in_step.
  set (ka := CooIterator_diff a first) in *.
  set (kb := CooIterator_diff b first) in *.
  assert (a = b ↔ ka = kb) as Heq.
  { split; [by intros ->|]. intros Hk. rewrite Ha, Hb. by rewrite Hk. }
  assert (it_row a = it_row first + ka ∧ it_row b = it_row first + kb) as [Hra Hrb].
  { rewrite Ha, Hb at 1. done. }
  unfold CooIterator_eq, CooIterator_ne, CooIterator_lt, CooIterator_diff.
  rewrite negb_true_iff, Z.eqb_eq, Z.eqb_neq, Z.ltb_lt, Heq, Hra, Hrb.
  split_and!; [lia..| |].
  - rewrite Ha, Hb. unfold CooIterator_plus, CooIterator_add_assign. simpl.
    f_equal; lia.
  - by rewrite Ha at 1.
Qed.

Lemma CooIterator_in_step_witness :
  let first := mkCooIterator 100 200 300 in
  let a := CooIterator_inc (CooIterator_plus first 4) in
  let b := (CooIterator_post_dec (CooIterator_minus a 2)).2 in
  (iter_of first a ∧ iter_of first b) ∧
  CooIterator_diff a b = 3 ∧
  CooIterator_plus b (CooIterator_diff a b) = a ∧
  CooIterator_deref b = mkTupleRef 102 202 302.
Proof.
  intros first a b.
  assert (iter_of first a) as Ha by (do 2 apply iter_add; apply iter_first).
  assert (iter_of first b) as Hb by (do 2 apply iter_sub; exact Ha).
  split; [done|]. split; [reflexivity|].
  destruct (CooIterator_in_step first a b Ha Hb) as (_ & _ & _ & Hplus & _).
  split; [exact Hplus|reflexivity].
Defined.

(* --------------------------------------------------------------------- *)
(** ** Further properties of [COOSort_] and [COOIsSorted]                 *)
(* --------------------------------------------------------------------- *)

Lemma triples_fields coo :
  coo_wf coo →
  row coo = get0 <$> triples coo ∧
  col coo = get1 <$> triples coo ∧
  payload coo = get2 <$> triples coo.
Proof.
  intros Hwf%coo_wf_buffers. apply buffers_of_values in Hwf.
  rewrite <-triples_values in Hwf. by injection Hwf.
Qed.

Lemma StronglySorted_of_lookup {A : Type} (R : relation A) (l : list A) :
  (∀ i j x y, (i < j)%nat → l !! i = Some x → l !! j = Some y → R x y) →
  StronglySorted R l.
Proof.
  induction l as [|a l IH]; intros Hl; constructor.
  - apply IH. intros i j x y Hij Hi Hj. apply (Hl (S i) (S j)); [lia|done..].
  - apply Forall_forall. intros y [j Hj]%list_elem_of_lookup.
    apply (Hl 0%nat (S j)); [lia|done..].
Qed.

Lemma keys_lookup coo i :
  (i < length (row coo))%nat → keys coo !! i = Some (row coo !!! i, col coo !!! i).
Proof.
  intros Hi. unfold keys. by rewrite list_lookup_fmap, triples_lookup by done.
Qed.

Lemma length_keys coo : length (keys coo) = length (row coo).
Proof. unfold keys. by rewrite length_fmap, length_triples. Qed.

Lemma keys_fields coo :
  coo_wf coo → row coo = fst <$> keys coo ∧ col coo = snd <$> keys coo.
Proof.
  intros (Hr & Hc & _)%triples_fields. unfold keys.
  rewrite <-!list_fmap_compose. by split.
Qed.

Lemma sorted_keys coo :
  rows_nondecreasing coo → cols_nondecreasing_in_runs coo →
  StronglySorted key_le (keys coo).
Proof.
  intros Hrows Hcols. apply StronglySorted_of_lookup.
  intros i j x y Hij Hi Hj.
  pose proof (lookup_lt_Some _ _ _ Hj) as Hjn. rewrite length_keys in Hjn.
  rewrite keys_lookup in Hi, Hj by lia. injection Hi as <-. injection Hj as <-.
  unfold key_le; simpl.
  pose proof (Hrows i j ltac:(lia)) as Hle.
  destruct (decide (row coo !!! i < row coo !!! j)); [by left|right].
  split; [lia|]. apply Hcols; [lia|]. intros k Hk.
  pose proof (Hrows i k ltac:(lia)). pose proof (Hrows k j ltac:(lia)). lia.
Qed.

#[export] Instance key_le_antisym : AntiSymm (=) key_le.
Proof.
  intros [p1 p2] [q1 q2]. unfold key_le; simpl. intros H1 H2. f_equal; lia.
Qed.

Section COOSort_more.
Context `{StdSortLaws}.

Lemma COOSort_keys_sorted coo :
  coo_wf coo → StronglySorted key_le (keys (COOSort_ coo true)).
Proof.
  intros Hwf. unfold keys. rewrite (COOSort_triples coo true Hwf).
  eapply StronglySorted_fmap; [|apply std_sort_ordered, comp_row_col_swo].
  intros a b Hab%comp_row_col_false. unfold key_le; simpl. lia.
Qed.

Lemma COOSort_keys_perm coo sort_column :
  coo_wf coo → keys (COOSort_ coo sort_column) ≡ₚ keys coo.
Proof.
  intros Hwf. unfold keys. rewrite (COOSort_triples coo sort_column Hwf).
  apply fmap_Permutation, std_sort_perm, comp_of_swo.
Qed.

Lemma COOSort_rows_sorted coo sort_column :
  coo_wf coo → StronglySorted Z.le (get0 <$> triples (COOSort_ coo sort_column)).
Proof.
  intros Hwf. rewrite (COOSort_triples coo sort_column Hwf).
  eapply StronglySorted_fmap;
    [|apply std_sort_ordered, (comp_of_swo sort_column)].
  intros a b. destruct sort_column; simpl.
  - intros Hab%comp_row_col_false. lia.
  - unfold comp_row. intros Hab%Z.ltb_ge. lia.
Qed.

(** X4.  Sorting a matrix that is already in order changes no key: when
    [COOIsSorted] reports [(true, true)], [COOSort_(matrix, true)] leaves
    the row and column arrays as they are, and when it reports sorted rows,
    [COOSort_] with either flag leaves the row array as it is.  (Entries
    with equal keys may still exchange their payloads.) *)
Theorem COOSort_keeps_sorted_keys (coo : COOMatrix) :
  coo_wf coo →
  (COOIsSorted coo = (true, true) →
   row (COOSort_ coo true) = row coo ∧ col (COOSort_ coo true) = col coo) ∧
  ((COOIsSorted coo).1 = true →
   ∀ sort_column : bool, row (COOSort_ coo sort_column) = row coo).
Proof.
  intros Hwf. destruct (COOIsSorted_correct coo) as [Hr Hc]. split.
  - intros Hsorted. rewrite Hsorted in Hc. simpl in Hc.
    destruct (proj1 Hc eq_refl) as [Hrows Hcols].
    assert (keys (COOSort_ coo true) = keys coo) as Hkeys.
    { apply (StronglySorted_unique key_le);
        [by apply COOSort_keys_sorted|by apply sorted_keys
        |by apply COOSort_keys_perm]. }
    destruct (keys_fields _ (COOSort_wf coo true Hwf)) as [-> ->].
    destruct (keys_fields _ Hwf) as [Hrow Hcol].
    by rewrite Hkeys, <-Hrow, <-Hcol.
  - intros Hrows%Hr sort_column.
    destruct (triples_fields _ (COOSort_wf coo sort_column Hwf)) as (-> & _).
    destruct (triples_fields _ Hwf) as (Hrow & _).
    transitivity (get0 <$> triples coo); [|done].
    apply (StronglySorted_unique Z.le).
    + by apply COOSort_rows_sorted.
    + rewrite <-Hrow. apply StronglySorted_of_lookup.
      intros i j x y Hij Hi Hj.
      pose proof (lookup_lt_Some _ _ _ Hj).
      apply list_lookup_total_correct in Hi, Hj. subst. apply Hrows. lia.
    + rewrite (COOSort_triples coo sort_column Hwf).
      apply fmap_Permutation, std_sort_perm, comp_of_swo.
Qed.

(** X5.  When the matrix has no payload array, the payload [COOSort_]
    leaves behind is a permutation of [0 .. nnz-1] that tells where each
    entry came from: entry [i] of the result is the entry at position
    [payload[i]] of the input. *)
Theorem COOSort_payload_positions (coo : COOMatrix) (sort_column : bool) :
  coo_wf coo → data coo = None →
  payload (COOSort_ coo sort_column)
  ≡ₚ seqZ 0 (Z.of_nat (length (row coo))) ∧
  ∀ i : nat, (i < length (row coo))%nat →
    ∃ p : nat,
      payload (COOSort_ coo sort_column) !!! i = Z.of_nat p ∧
      (p < length (row coo))%nat ∧
      row (COOSort_ coo sort_column) !!! i = row coo !!! p ∧
      col (COOSort_ coo sort_column) !!! i = col coo !!! p.
Proof.
  intros Hwf Hnone.
  assert (payload coo = seqZ 0 (Z.of_nat (length (row coo)))) as Hpay.
  { unfold payload, Range. rewrite Hnone. f_equal. lia. }
  assert (triples (COOSort_ coo sort_column) ≡ₚ triples coo) as Hperm.
  { rewrite (COOSort_triples coo sort_column Hwf).
    apply std_sort_perm, comp_of_swo. }
  split.
  - destruct (triples_fields _ (COOSort_wf coo sort_column Hwf)) as (_ & _ & ->).
    rewrite Hperm. destruct (triples_fields _ Hwf) as (_ & _ & <-). by rewrite Hpay.
  - apply Permutation_inj in Hperm as (_ & f & Hinj & Hf).
    intros i Hi. specialize (Hf i).
    rewrite triples_lookup in Hf by (by rewrite COOSort_length).
    symmetry in Hf. pose proof (lookup_lt_Some _ _ _ Hf) as Hfi.
    rewrite length_triples in Hfi. rewrite triples_lookup in Hf by done.
    exists (f i). apply (inj Some) in Hf.
    apply pair_equal_spec in Hf as [[Hrow Hcol]%pair_equal_spec Hdata].
    split_and!; [|done..].
    rewrite <-Hdata, Hpay, lookup_total_seqZ_lt by lia. lia.
Qed.
End COOSort_more.

Lemma COOSort_keeps_sorted_keys_witness :
  let coo := mkCOO [0; 1; 1; 4] [3; 2; 2; 0] (Some [7; 8; 9; 6]) false false in
  (coo_wf coo ∧ COOIsSorted coo = (true, true)) ∧
  row (@COOSort_ insertion_StdSort coo true) = row coo ∧
  col (@COOSort_ insertion_StdSort coo true) = col coo.
Proof.
  intros coo.
  assert (coo_wf coo) as Hwf by (split; reflexivity).
  assert (COOIsSorted coo = (true, true)) as Hs by reflexivity.
  split; [done|].
  exact (proj1 (@COOSort_keeps_sorted_keys insertion_StdSort
                  insertion_StdSortLaws coo Hwf) Hs).
Defined.

Lemma COOSort_payload_positions_witness :
  let coo := mkCOO [3; 1; 3; 0; 1] [0; 7; -2; 4; 7] None false false in
  (coo_wf coo ∧ data coo = None) ∧
  payload (@COOSort_ insertion_StdSort coo true)
  ≡ₚ seqZ 0 (Z.of_nat (length (row coo))).
Proof.
  intros coo.
  assert (coo_wf coo) as Hwf by (split; reflexivity).
  assert (data coo = None) as Hn by reflexivity.
  split; [done|].
  exact (proj1 (@COOSort_payload_positions insertion_StdSort
                  insertion_StdSortLaws coo true Hwf Hn)).
Defined.

(** X6.  A matrix with at most one entry is reported sorted in both
    senses, whatever its arrays hold: the loop of [COOIsSorted] starts at
    position 1 and reads nothing. *)
Theorem COOIsSorted_short (coo : COOMatrix) :
  (length (row coo) ≤ 1)%nat → COOIsSorted coo = (true, true).
Proof.
  intros Hlen. unfold COOIsSorted.
  destruct (row coo) as [|r [|r' rs]]; [done..|simpl in Hlen; lia].
Qed.

Lemma COOIsSorted_short_witness :
  let coo := mkCOO [7] [] None false false in
  (length (row coo) ≤ 1)%nat ∧ COOIsSorted coo = (true, true).
Proof.
  intros coo. assert (length (row coo) ≤ 1)%nat as Hlen by (simpl; lia).
  split; [done|]. exact (COOIsSorted_short coo Hlen).
Defined.

(* --------------------------------------------------------------------- *)
(** ** [radix_sort]                                                       *)
(* --------------------------------------------------------------------- *)

Section Bucket.
Variable key : Z → nat.

Lemma bucket_size_cons d x l :
  bucket_size key d (x :: l) = ((if decide (key x = d) then 1 else 0) + bucket_size key d l)%nat.
Proof.
  unfold bucket_size. rewrite filter_cons. by destruct (decide (key x = d)).
Qed.

Lemma bucket_size_app d l1 l2 : bucket_size key d (l1 ++ l2) = (bucket_size key d l1 + bucket_size key d l2)%nat.
Proof. unfold bucket_size. by rewrite filter_app, length_app. Qed.

Lemma bucket_start_0 l : bucket_start key 0 l = 0%nat.
Proof.
  unfold bucket_start. induction l as [|x l IH]; [done|].
  rewrite filter_cons_False by lia. done.
Qed.

Lemma bucket_start_S d l : bucket_start key (S d) l = (bucket_start key d l + bucket_size key d l)%nat.
Proof.
  unfold bucket_start, bucket_size. induction l as [|x l IH]; [done|].
  rewrite !filter_cons.
  destruct (decide (key x < S d)%nat), (decide (key x < d)%nat),
    (decide (key x = d)); simpl; lia.
Qed.

Lemma bucket_start_mono d d' l : (d ≤ d')%nat → (bucket_start key d l ≤ bucket_start key d' l)%nat.
Proof. induction 1; [done|]. rewrite bucket_start_S. lia. Qed.

Lemma bucket_start_all K l :
  Forall (λ x, (key x < K)%nat) l → bucket_start key K l = length l.
Proof.
  unfold bucket_start. induction 1 as [|x l Hx _ IH]; [done|].
  rewrite filter_cons_True by done. simpl. by rewrite IH.
Qed.

Lemma bucket_start_le_length d l : (bucket_start key d l ≤ length l)%nat.
Proof. apply length_filter. Qed.

Lemma length_bucket K l : length (bucket key K l) = bucket_start key K l.
Proof.
  induction K as [|K IH]; simpl; [by rewrite bucket_start_0|].
  rewrite length_app, IH, bucket_start_S. done.
Qed.

Lemma bucket_lookup K l d j :
  (d < K)%nat → (j < bucket_size key d l)%nat →
  bucket key K l !! (bucket_start key d l + j)%nat = filter (λ x, key x = d) l !! j.
Proof.
  intros Hd Hj. induction K as [|K IH]; [lia|]. simpl.
  destruct (decide (d = K)) as [->|Hne].
  - rewrite lookup_app_r by (rewrite length_bucket; lia).
    rewrite length_bucket. f_equal. lia.
  - rewrite lookup_app_l; [apply IH; lia|].
    rewrite length_bucket.
    pose proof (bucket_start_mono (S d) K l ltac:(lia)) as Hm. rewrite bucket_start_S in Hm. lia.
Qed.

Lemma elem_of_bucket K l x :
  x ∈ bucket key K l ↔ x ∈ l ∧ (key x < K)%nat.
Proof.
  induction K as [|K IH]; simpl.
  - rewrite elem_of_nil. lia.
  - rewrite elem_of_app, IH, list_elem_of_filter.
    split; [intros [[? ?]|[? ?]]; split; (done || lia)|].
    intros [? ?]. destruct (decide (key x = K)); [by right|left; split; [done|lia]].
Qed.

Lemma bucket_filter K l :
  bucket key K l ≡ₚ filter (λ x, (key x < K)%nat) l.
Proof.
  induction K as [|K IH]; simpl.
  - induction l as [|x l IHl]; [done|]. by rewrite filter_cons_False by lia.
  - rewrite IH. clear IH. induction l as [|x l IHl]; [done|].
    rewrite !filter_cons.
    destruct (decide (key x < S K)%nat), (decide (key x < K)%nat),
      (decide (key x = K)); try lia; simpl.
    + by rewrite IHl.
    + rewrite <-IHl. by rewrite Permutation_middle.
    + done.
Qed.

Lemma bucket_perm K l :
  Forall (λ x, (key x < K)%nat) l → bucket key K l ≡ₚ l.
Proof.
  intros Hall. rewrite bucket_filter.
  induction Hall as [|x l Hx _ IH]; [done|].
  rewrite filter_cons_True by done. by rewrite IH.
Qed.

(** The distribution loop, for the digit of the pass. *)
Context (start mask : Z).
Hypothesis key_digit : ∀ x, key x = digit start mask x.

Lemma count_digits_spec (p count : list Z) :
  Forall (λ x, (key x < length count)%nat) p →
  (∀ d, (d < length count)%nat →
        0 ≤ count !!! d ∧ count !!! d + Z.of_nat (bucket_size key d p) < 2 ^ 64) →
  length (count_digits start mask p count) = length count ∧
  ∀ d, (d < length count)%nat →
       count_digits start mask p count !!! d
       = count !!! d + Z.of_nat (bucket_size key d p).
Proof.
  revert count. induction p as [|x p IH]; intros count Hkey Hbound.
  { split; [done|]. intros d Hd. unfold bucket_size. simpl. lia. }
  apply Forall_cons in Hkey as [Hx Hkey].
  unfold count_digits. cbn [foldl]. fold (count_digits start mask p).
  unfold count_step. rewrite <-key_digit.
  assert (size_t_add (count !!! key x) 1 = count !!! key x + 1) as ->.
  { specialize (Hbound (key x) Hx). rewrite bucket_size_cons in Hbound.
    rewrite decide_True in Hbound by done.
    unfold size_t_add. rewrite Z.mod_small; lia. }
  destruct (IH (<[key x := count !!! key x + 1]> count)) as [Hlen Hval].
  - by rewrite length_insert.
  - intros d Hd. rewrite length_insert in Hd.
    specialize (Hbound d Hd). rewrite bucket_size_cons in Hbound.
    destruct (decide (key x = d)) as [<-|Hne].
    + rewrite list_lookup_total_insert_eq by done. simpl in Hbound. lia.
    + rewrite list_lookup_total_insert_ne by done. simpl in Hbound. lia.
  - rewrite length_insert in Hlen, Hval. split; [done|].
    intros d Hd. rewrite Hval by done. rewrite bucket_size_cons.
    destruct (decide (key x = d)) as [<-|Hne].
    + rewrite list_lookup_total_insert_eq by done. simpl. lia.
    + rewrite list_lookup_total_insert_ne by done. simpl. lia.
Qed.

Lemma prefix_sums_spec (data count : list Z) (d0 : nat) (sum : Z) :
  Z.of_nat (length data) < 2 ^ 64 →
  (∀ i, (i < length count)%nat →
        count !!! i = Z.of_nat (bucket_size key (d0 + i) data)) →
  sum = Z.of_nat (bucket_start key d0 data) →
  length (prefix_sums sum count) = length count ∧
  ∀ i, (i < length count)%nat →
       prefix_sums sum count !!! i = Z.of_nat (bucket_start key (d0 + i) data).
Proof.
  intros Hsize. revert d0 sum.
  induction count as [|c count IH]; intros d0 sum Hcount ->.
  { split; [done|]. simpl. lia. }
  cbn [prefix_sums length].
  pose proof (Hcount 0%nat ltac:(simpl; lia)) as Hc. simpl in Hc.
  rewrite Nat.add_0_r in Hc. subst c.
  pose proof (bucket_start_le_length (S d0) data) as Hle. rewrite bucket_start_S in Hle.
  destruct (IH (S d0) (size_t_add (Z.of_nat (bucket_start key d0 data))
                                  (Z.of_nat (bucket_size key d0 data)))) as [Hlen Hval].
  - intros i Hi. specialize (Hcount (S i) ltac:(simpl; lia)). simpl in Hcount.
    rewrite Hcount. do 2 f_equal. lia.
  - unfold size_t_add. rewrite Z.mod_small by lia. rewrite bucket_start_S. lia.
  - split; [by rewrite Hlen|].
    intros [|i] Hi; simpl.
    + by rewrite Nat.add_0_r.
    + rewrite Hval by lia. do 2 f_equal. lia.
Qed.

Lemma shuffle_inv (data : list Z) (K : nat) (s p count new_data : list Z) :
  Z.of_nat (length data) < 2 ^ 64 →
  Forall (λ x, (key x < K)%nat) data →
  data = p ++ s →
  length count = K → length new_data = length data →
  (∀ d, (d < K)%nat →
        count !!! d = Z.of_nat (bucket_start key d data) + Z.of_nat (bucket_size key d p)) →
  (∀ d j, (d < K)%nat → (j < bucket_size key d p)%nat →
          new_data !! (bucket_start key d data + j)%nat = filter (λ x, key x = d) p !! j) →
  let r := foldl (shuffle_step start mask) (count, new_data) s in
  length r.2 = length data ∧
  ∀ d j, (d < K)%nat → (j < bucket_size key d data)%nat →
         r.2 !! (bucket_start key d data + j)%nat = filter (λ x, key x = d) data !! j.
Proof.
  intros Hsize Hkeys. revert p count new_data.
  induction s as [|x s IH]; intros p count new_data Hdata Hcl Hnl Hcount Hnd.
  { rewrite app_nil_r in Hdata. subst p. simpl. done. }
  assert (key x < K)%nat as Hx.
  { rewrite Forall_forall in Hkeys. apply Hkeys. subst data.
    apply elem_of_app. right. left. }
  assert (bucket_size key (key x) data = bucket_size key (key x) p + 1 + bucket_size key (key x) s)%nat as Hcx.
  { subst data. rewrite bucket_size_app, bucket_size_cons, decide_True by done. lia. }
  pose proof (bucket_start_le_length (S (key x)) data) as Hle. rewrite bucket_start_S in Hle.
  assert (shuffle_step start mask (count, new_data) x
          = (<[key x := Z.of_nat (bucket_start key (key x) data + bucket_size key (key x) p + 1)]> count,
             <[(bucket_start key (key x) data + bucket_size key (key x) p)%nat := x]> new_data))
    as Hstep.
  { unfold shuffle_step. cbn [fst snd]. rewrite <-key_digit.
    rewrite (Hcount (key x) Hx). f_equal; f_equal.
    - unfold size_t_add. rewrite Z.mod_small; lia.
    - lia. }
  cbn [foldl]. rewrite Hstep.
  apply (IH (p ++ [x])).
  - by rewrite <-(assoc_L (++)).
  - by rewrite length_insert.
  - by rewrite length_insert.
  - intros d Hd. rewrite bucket_size_app, bucket_size_cons. change (bucket_size key d []) with 0%nat.
    destruct (decide (key x = d)) as [<-|Hne].
    + rewrite list_lookup_total_insert_eq by lia. lia.
    + rewrite list_lookup_total_insert_ne by done. rewrite Hcount by done.
      lia.
  - intros d j Hd Hj. rewrite bucket_size_app, bucket_size_cons in Hj.
    change (bucket_size key d []) with 0%nat in Hj.
    rewrite filter_app, filter_cons.
    destruct (decide (key x = d)) as [<-|Hne].
    + destruct (decide (j = bucket_size key (key x) p)) as [->|Hjne].
      * rewrite list_lookup_insert_eq by lia.
        rewrite lookup_app_r by done. unfold bucket_size at 1.
        by rewrite Nat.sub_diag.
      * rewrite list_lookup_insert_ne by lia.
        rewrite lookup_app_l by (fold (bucket_size key (key x) p); lia).
        apply Hnd; [done|lia].
    + rewrite app_nil_r.
      rewrite list_lookup_insert_ne; [apply Hnd; [done|lia]|].
      destruct (decide (d < key x)%nat).
      * pose proof (bucket_start_mono (S d) (key x) data ltac:(lia)) as Hm.
        rewrite bucket_start_S in Hm.
        assert (bucket_size key d p ≤ bucket_size key d data)%nat
          by (subst data; rewrite bucket_size_app; lia).
        lia.
      * pose proof (bucket_start_mono (S (key x)) d data ltac:(lia)) as Hm.
        rewrite bucket_start_S in Hm. lia.
Qed.

Lemma bucket_start_find K l i :
  (i < bucket_start key K l)%nat →
  ∃ d, (d < K)%nat ∧ (bucket_start key d l ≤ i < bucket_start key d l + bucket_size key d l)%nat.
Proof.
  induction K as [|K IH]; [rewrite bucket_start_0; lia|].
  rewrite bucket_start_S. intros Hi.
  destruct (decide (i < bucket_start key K l)%nat) as [Hlt|Hge].
  - destruct (IH Hlt) as (d & ? & ?). exists d. split; [lia|done].
  - exists K. split; lia.
Qed.

(** One pass distributes [data] over the buckets of its digit. *)
Lemma pass_bucket (data new_data : list Z) (K : nat) :
  Z.of_nat (length data) < 2 ^ 64 →
  Forall (λ x, (key x < K)%nat) data →
  length new_data = length data →
  (shuffle start mask data
     (prefix_sums 0 (count_digits start mask data (replicate K 0)))
     new_data).2
  = bucket key K data.
Proof.
  intros Hsize Hkeys Hnl.
  destruct (count_digits_spec data (replicate K 0)) as [Hl1 Hv1].
  { by rewrite length_replicate. }
  { intros d Hd. rewrite length_replicate in Hd.
    rewrite lookup_total_replicate_2 by done.
    pose proof (length_filter (λ x, key x = d) data). unfold bucket_size. lia. }
  rewrite length_replicate in Hl1, Hv1.
  destruct (prefix_sums_spec data
              (count_digits start mask data (replicate K 0)) 0 0 Hsize)
    as [Hl2 Hv2].
  { intros i Hi. rewrite Hl1 in Hi. rewrite Hv1 by done.
    rewrite lookup_total_replicate_2 by done. simpl. lia. }
  { by rewrite bucket_start_0. }
  rewrite Hl1 in Hl2, Hv2.
  destruct (shuffle_inv data K data []
              (prefix_sums 0 (count_digits start mask data (replicate K 0)))
              new_data Hsize Hkeys eq_refl Hl2 Hnl) as [Hl3 Hv3].
  { intros d Hd. rewrite Hv2 by done. unfold bucket_size. simpl. lia. }
  { intros d j _ Hj. unfold bucket_size in Hj. simpl in Hj. lia. }
  fold (shuffle start mask data
          (prefix_sums 0 (count_digits start mask data (replicate K 0)))
          new_data) in Hl3, Hv3.
  apply list_eq. intros i.
  destruct (decide (i < length data)%nat) as [Hi|Hi].
  - rewrite <-(bucket_start_all K data Hkeys) in Hi.
    destruct (bucket_start_find K data i Hi) as (d & Hd & Hrange).
    replace i with (bucket_start key d data + (i - bucket_start key d data))%nat by lia.
    rewrite Hv3, bucket_lookup by lia. done.
  - rewrite !lookup_ge_None_2; [done| |].
    + rewrite length_bucket, bucket_start_all by done. lia.
    + lia.
Qed.
End Bucket.

(** Digits and the order by the low bits *)

Lemma digit_div start w x :
  0 ≤ start → 0 ≤ w →
  digit start (2 ^ w - 1) x = Z.to_nat ((x / 2 ^ start) `mod` 2 ^ w).
Proof.
  intros Hs Hw. unfold digit. rewrite Z.shiftr_div_pow2 by done.
  replace (2 ^ w - 1) with (Z.ones w) by (rewrite Z.ones_equiv; lia).
  by rewrite Z.land_ones by done.
Qed.

Lemma low_split s w x :
  0 ≤ s → 0 ≤ w →
  x `mod` 2 ^ (s + w) = x `mod` 2 ^ s + 2 ^ s * ((x / 2 ^ s) `mod` 2 ^ w).
Proof.
  intros Hs Hw. rewrite Z.pow_add_r by done.
  apply Z.rem_mul_r; [|by apply Z.pow_pos_nonneg].
  pose proof (Z.pow_pos_nonneg 2 s). lia.
Qed.

Lemma low_le_same_digit s w x y :
  0 ≤ s → 0 ≤ w →
  (x / 2 ^ s) `mod` 2 ^ w = (y / 2 ^ s) `mod` 2 ^ w →
  low_le s x y → low_le (s + w) x y.
Proof.
  intros Hs Hw Heq. unfold low_le. rewrite !low_split, Heq by done. lia.
Qed.

Lemma low_le_less_digit s w x y :
  0 ≤ s → 0 ≤ w →
  (x / 2 ^ s) `mod` 2 ^ w < (y / 2 ^ s) `mod` 2 ^ w →
  low_le (s + w) x y.
Proof.
  intros Hs Hw Hlt. unfold low_le. rewrite !low_split by done.
  pose proof (Z.pow_pos_nonneg 2 s ltac:(lia) Hs) as Hpos.
  pose proof (Z.mod_pos_bound x (2 ^ s) Hpos).
  pose proof (Z.mod_pos_bound y (2 ^ s) Hpos).
  nia.
Qed.

Lemma bucket_sorted (key : Z → nat) s w K l :
  0 ≤ s → 0 ≤ w →
  (∀ x, key x = Z.to_nat ((x / 2 ^ s) `mod` 2 ^ w)) →
  StronglySorted (low_le s) l →
  StronglySorted (low_le (s + w)) (bucket key K l).
Proof.
  intros Hs Hw Hkey Hsorted.
  pose proof (Z.pow_pos_nonneg 2 w ltac:(lia) Hw) as Hpos.
  induction K as [|K IH]; simpl; [constructor|].
  apply StronglySorted_app_2; [|done|].
  - intros x1 x2 [_ H1]%elem_of_bucket [H2 _]%list_elem_of_filter.
    apply low_le_less_digit; [done..|].
    rewrite !Hkey in *.
    pose proof (Z.mod_pos_bound (x1 / 2 ^ s) (2 ^ w) Hpos).
    pose proof (Z.mod_pos_bound (x2 / 2 ^ s) (2 ^ w) Hpos).
    lia.
  - clear IH. induction Hsorted as [|x l Hsorted IH Hx]; [constructor|].
    rewrite filter_cons. destruct (decide (key x = K)) as [Hk|]; [|done].
    constructor; [done|].
    rewrite Forall_forall in Hx. apply Forall_forall.
    intros y [Hy Hin]%list_elem_of_filter.
    apply low_le_same_digit; [done..| |by apply Hx].
    rewrite !Hkey in *.
    pose proof (Z.mod_pos_bound (x / 2 ^ s) (2 ^ w) Hpos).
    pose proof (Z.mod_pos_bound (y / 2 ^ s) (2 ^ w) Hpos).
    lia.
Qed.

(** The loop that sets [max_bits] *)

Lemma size_t_shl1_small k : 0 ≤ k < 64 → size_t_shl1 k = 2 ^ k.
Proof.
  intros Hk. unfold size_t_shl1. rewrite Z.shiftl_1_l.
  apply Z.mod_small. split; [by apply Z.pow_nonneg|].
  apply Z.pow_lt_mono_r; lia.
Qed.

Lemma max_bits_loop_spec (size : Z) (fuel : nat) (max_bits : Z) :
  0 ≤ size < 2 ^ 63 →
  1 ≤ max_bits → max_bits = 1 ∨ 2 ^ (3 * max_bits) ≤ size →
  21 ≤ max_bits + Z.of_nat fuel →
  ∃ m, max_bits_loop fuel size max_bits = Some m ∧ 1 ≤ m ≤ 20.
Proof.
  intros Hsize. revert max_bits.
  assert (∀ m, 1 ≤ m → m = 1 ∨ 2 ^ (3 * m) ≤ size → m ≤ 20) as Hbound.
  { intros m Hm [->|Hle]; [lia|].
    destruct (decide (m ≤ 20)) as [|Hgt]; [done|].
    pose proof (Z.pow_le_mono_r 2 63 (3 * m) ltac:(lia) ltac:(lia)). lia. }
  induction fuel as [|fuel IH]; intros m Hm Hinv Hfuel;
    pose proof (Hbound m Hm Hinv) as H20; [lia|].
  cbn [max_bits_loop]. rewrite size_t_shl1_small by lia.
  destruct (2 ^ (3 * (m + 1)) <=? size) eqn:Hc.
  - apply Z.leb_le in Hc.
    destruct (IH (m + 1)) as (m' & -> & Hm'); [lia|by right|lia|].
    by exists m'.
  - by exists m.
Qed.

(** The bit ranges of the groups *)

Lemma group_start_div W G g : 0 ≤ W → 0 < G → 0 ≤ g → group_start W G g = g * W / G.
Proof. intros. unfold group_start. apply Z.quot_div_nonneg; nia. Qed.

Lemma group_start_0 W G : group_start W G 0 = 0.
Proof. done. Qed.

Lemma group_start_G W G : 0 < G → group_start W G G = W.
Proof. intros. unfold group_start. rewrite Z.mul_comm. apply Z.quot_mul. lia. Qed.

Lemma group_start_nonneg W G g : 0 ≤ W → 0 < G → 0 ≤ g → 0 ≤ group_start W G g.
Proof. intros. rewrite group_start_div by done. apply Z.div_pos; nia. Qed.

Lemma group_start_le W G g : 0 ≤ W → 0 < G → 0 ≤ g ≤ G → group_start W G g ≤ W.
Proof.
  intros. rewrite group_start_div by lia.
  apply Z.div_le_upper_bound; nia.
Qed.

Lemma group_start_width W G m g :
  0 ≤ W → 0 < G → W ≤ G * m → 0 ≤ g →
  0 ≤ group_start W G (g + 1) - group_start W G g ≤ m.
Proof.
  intros HW HG Hm Hg. rewrite !group_start_div by lia.
  pose proof (Z.mul_div_le (g * W) G HG).
  pose proof (Z.mul_succ_div_gt (g * W) G HG).
  pose proof (Z.mul_div_le ((g + 1) * W) G HG).
  pose proof (Z.mul_succ_div_gt ((g + 1) * W) G HG).
  nia.
Qed.

Lemma num_groups_spec W m :
  0 < W → 1 ≤ m →
  let G := (W + m - 1) `quot` m in 0 < G ∧ W ≤ G * m.
Proof.
  intros HW Hm G. unfold G. rewrite Z.quot_div_nonneg by lia.
  pose proof (Z.mul_div_le (W + m - 1) m ltac:(lia)).
  pose proof (Z.mul_succ_div_gt (W + m - 1) m ltac:(lia)).
  nia.
Qed.

(** One pass of the loop over the groups *)

Lemma radix_pass_bucket W G g (data new_data : list Z) :
  0 < W ≤ 64 → 0 < G → 0 ≤ g < G →
  0 ≤ group_start W G (g + 1) - group_start W G g ≤ 20 →
  Z.of_nat (length data) < 2 ^ 63 →
  length new_data = length data →
  let s := group_start W G g in
  let w := group_start W G (g + 1) - group_start W G g in
  radix_pass W G (data, new_data) g
  = (bucket (digit s (2 ^ w - 1)) (Z.to_nat (2 ^ w)) data, data).
Proof.
  intros HW HG Hg Hw Hsize Hnl s w.
  unfold radix_pass. cbn [fst snd]. fold (group_start W G g) (group_start W G (g + 1)).
  fold s w. f_equal.
  pose proof (group_start_le W G (g + 1) ltac:(lia) HG ltac:(lia)) as Hle.
  pose proof (group_start_nonneg W G g ltac:(lia) HG ltac:(lia)) as Hge.
  rewrite size_t_shl1_small by (unfold w; lia).
  assert (0 < 2 ^ w) as Hpos by (apply Z.pow_pos_nonneg; unfold w; lia).
  assert (2 ^ w ≤ 2 ^ W) as Hpw by (apply Z.pow_le_mono_r; unfold w; lia).
  rewrite (Z.mod_small (2 ^ w - 1)) by lia.
  apply pass_bucket; [done|lia| |done].
  apply Forall_forall. intros x _.
  rewrite digit_div by (unfold w; lia).
  pose proof (Z.mod_pos_bound (x / 2 ^ s) (2 ^ w) Hpos). lia.
Qed.

Section Groups.
Context (W G : Z) (data0 : list Z).
Hypothesis HW : 0 < W ≤ 64.
Hypothesis HG : 0 < G.
Hypothesis Hwidth : ∀ g, 0 ≤ g → 0 ≤ group_start W G (g + 1) - group_start W G g ≤ 20.
Hypothesis Hsize : Z.of_nat (length data0) < 2 ^ 63.

Lemma radix_pass_inv g st :
  0 ≤ g < G → groups_inv W G data0 g st →
  groups_inv W G data0 (g + 1) (radix_pass W G st g).
Proof.
  intros Hg (Hperm & Hlen & Hsorted). destruct st as [data new_data].
  cbn [fst snd] in *.
  pose proof (Permutation_length Hperm) as Hl.
  pose proof (Hwidth g ltac:(lia)) as Hw.
  rewrite radix_pass_bucket by (done || lia).
  pose proof (group_start_nonneg W G g ltac:(lia) HG ltac:(lia)) as Hs.
  split_and!; cbn [fst snd].
  - rewrite bucket_perm; [done|].
    apply Forall_forall. intros x _. rewrite digit_div by lia.
    assert (0 < 2 ^ (group_start W G (g + 1) - group_start W G g)) as Hpos
      by (apply Z.pow_pos_nonneg; lia).
    pose proof (Z.mod_pos_bound (x / 2 ^ group_start W G g) _ Hpos). lia.
  - lia.
  - set (w := group_start W G (g + 1) - group_start W G g) in *.
    replace (group_start W G (g + 1)) with (group_start W G g + w) by (unfold w; lia).
    apply bucket_sorted; [lia..| |done].
    intros x. apply digit_div; lia.
Qed.

Lemma groups_loop_inv (n : nat) g st :
  0 ≤ g → g + Z.of_nat n ≤ G → groups_inv W G data0 g st →
  groups_inv W G data0 (g + Z.of_nat n)
             (foldl (radix_pass W G) st (seqZ g (Z.of_nat n))).
Proof.
  revert g st. induction n as [|n IH]; intros g st Hg Hn Hinv.
  { by rewrite Z.add_0_r. }
  rewrite seqZ_cons by lia. cbn [foldl].
  replace (Z.pred (Z.of_nat (S n))) with (Z.of_nat n) by lia.
  replace (g + Z.of_nat (S n)) with (Z.succ g + Z.of_nat n) by lia.
  apply IH; [lia..|]. by apply radix_pass_inv; [lia|].
Qed.
End Groups.

(** X17.  [radix_sort] on a vector of fewer than [2^63] values of an
    unsigned type of [word_bits] bits (at most 64) returns, and [data]
    then holds the same values, each as often as before, in nondecreasing
    order. *)
Theorem radix_sort_sorts (word_bits : Z) (fuel : nat) (data : list Z) :
  0 < word_bits ≤ 64 →
  Forall (λ x, 0 ≤ x < 2 ^ word_bits) data →
  Z.of_nat (length data) < 2 ^ 63 →
  (20 ≤ fuel)%nat →
  ∃ sorted,
    radix_sort word_bits fuel data = Some sorted ∧
    sorted ≡ₚ data ∧
    StronglySorted Z.le sorted.
Proof.
  intros HW Hrange Hsize Hfuel. unfold radix_sort.
  destruct (max_bits_loop_spec (Z.of_nat (length data)) fuel 1)
    as (m & -> & Hm); [lia|lia|by left|lia|].
  cbn [mbind option_bind].
  destruct (num_groups_spec word_bits m ltac:(lia) ltac:(lia)) as [HG Hceil].
  set (G := (word_bits + m - 1) `quot` m) in *.
  assert (∀ g, 0 ≤ g → 0 ≤ group_start word_bits G (g + 1) - group_start word_bits G g ≤ 20)
    as Hwidth.
  { intros g Hg.
    pose proof (group_start_width word_bits G m g ltac:(lia) HG Hceil Hg). lia. }
  pose proof (groups_loop_inv word_bits G data HW HG Hwidth Hsize
                (Z.to_nat G) 0 (data, replicate (length data) 0)
                ltac:(lia) ltac:(lia)) as Hinv.
  rewrite Z2Nat.id, Z.add_0_l in Hinv by lia. unfold groups_inv in Hinv.
  rewrite group_start_G, group_start_0 in Hinv by lia.
  destruct Hinv as (Hperm & _ & Hsorted).
  { split_and!; cbn [fst snd]; [done|by rewrite length_replicate|].
    clear. induction data as [|x l IH]; constructor; [done|].
    apply Forall_forall. intros y _. unfold low_le.
    by rewrite !Z.mod_1_r. }
  eexists. split; [done|]. split; [done|].
  assert (Forall (λ x, 0 ≤ x < 2 ^ word_bits)
            (foldl (radix_pass word_bits G)
               (data, replicate (length data) 0) (seqZ 0 G)).1) as Hr
    by (by rewrite Hperm).
  revert Hsorted Hr. generalize (foldl (radix_pass word_bits G)
               (data, replicate (length data) 0) (seqZ 0 G)).1.
  intros l Hsorted. induction Hsorted as [|x l Hsorted IH Hx]; [constructor|].
  intros [Hx0 Hl]%Forall_cons. constructor; [by apply IH|].
  rewrite Forall_forall in Hx, Hl. apply Forall_forall. intros y Hy.
  specialize (Hx y Hy). specialize (Hl y Hy). unfold low_le in Hx.
  by rewrite !Z.mod_small in Hx by done.
Qed.

Lemma radix_sort_sorts_witness :
  (0 < 8 ≤ 64 ∧ Forall (λ x, 0 ≤ x < 2 ^ 8) [200; 3; 77; 3] ∧
   Z.of_nat (length [200; 3; 77; 3]) < 2 ^ 63 ∧ (20 ≤ 20)%nat) ∧
  ∃ sorted,
    radix_sort 8 20 [200; 3; 77; 3] = Some sorted ∧
    sorted ≡ₚ [200; 3; 77; 3] ∧
    StronglySorted Z.le sorted.
Proof.
  assert (0 < 8 ≤ 64) as H1 by lia.
  assert (Forall (λ x, 0 ≤ x < 2 ^ 8) [200; 3; 77; 3]) as H2
    by (repeat constructor; lia).
  assert (Z.of_nat (length [200; 3; 77; 3]) < 2 ^ 63) as H3 by (simpl; lia).
  assert (20 ≤ 20)%nat as H4 by lia.
  split; [done|].
  exact (radix_sort_sorts 8 20 [200; 3; 77; 3] H1 H2 H3 H4).
Defined.

Example radix_sort_run : radix_sort 8 20 [200; 3; 77; 3] = Some [3; 3; 77; 200].
Proof. vm_compute. reflexivity. Qed.

End CooSortSpec.

Module ArrayUtilsSpec.
Import ArrayUtils.

(* --------------------------------------------------------------------- *)
(** ** First appearances                                                  *)
(* --------------------------------------------------------------------- *)

Lemma elem_of_first_seen ids x : x ∈ first_seen ids ↔ x ∈ ids.
Proof.
  induction ids as [|y ids IH]; simpl; [done|].
  rewrite !elem_of_cons, list_elem_of_filter, IH.
  destruct (decide (x = y)); tauto.
Qed.

Lemma NoDup_first_seen ids : NoDup (first_seen ids).
Proof.
  induction ids as [|y ids IH]; simpl; [constructor|].
  constructor; [|by apply NoDup_filter].
  rewrite list_elem_of_filter. by intros [? _].
Qed.

Lemma length_first_seen ids : (length (first_seen ids) ≤ length ids)%nat.
Proof.
  induction ids as [|y ids IH]; simpl; [done|].
  pose proof (length_filter (λ z, z ≠ y) (first_seen ids)). lia.
Qed.

Lemma foldl_add_seen seen ids :
  foldl add_seen seen ids = seen ++ filter (λ x, x ∉ seen) (first_seen ids).
Proof.
  revert seen. induction ids as [|x ids IH]; intros seen; simpl.
  - by rewrite app_nil_r.
  - rewrite IH. unfold add_seen. destruct (decide (x ∈ seen)) as [Hx|Hx].
    + rewrite filter_cons_False by (by intros ?).
      rewrite list_filter_filter_l; [done|]. intros z Hz ->. done.
    + rewrite filter_cons_True by done.
      rewrite <-(assoc_L (++)). simpl. do 2 f_equal.
      rewrite list_filter_filter. apply list_filter_iff.
      intros z. rewrite elem_of_app, list_elem_of_singleton. tauto.
Qed.

Lemma foldl_add_seen_nil ids : foldl add_seen [] ids = first_seen ids.
Proof.
  rewrite foldl_add_seen. simpl.
  induction (first_seen ids) as [|x l IH]; [done|].
  rewrite filter_cons_True by apply not_elem_of_nil. by rewrite IH.
Qed.

Lemma length_foldl_add_seen seen ids :
  (length (foldl add_seen seen ids) ≤ length seen + length ids)%nat.
Proof.
  revert seen. induction ids as [|x ids IH]; intros seen; simpl; [lia|].
  etrans; [apply IH|]. unfold add_seen.
  destruct (decide (x ∈ seen)); rewrite ?length_app; simpl; lia.
Qed.

(* --------------------------------------------------------------------- *)
(** ** [Update] keeps the table a compaction                              *)
(* --------------------------------------------------------------------- *)

Lemma to_IdType_small bits z :
  0 < bits → 0 ≤ z < 2 ^ (bits - 1) → to_IdType bits z = z.
Proof.
  intros Hbits Hz. unfold to_IdType.
  replace (2 ^ bits) with (2 * 2 ^ (bits - 1)).
  - rewrite Z.mod_small; lia.
  - rewrite <-Z.pow_succ_r by lia. f_equal. lia.
Qed.

Lemma compacts_new : compacts IdHashMap_new [].
Proof.
  split; simpl.
  - constructor.
  - apply map_size_empty.
  - intros x v. rewrite lookup_empty. split; [done|]. by intros (i & ? & _).
  - intros x Hx. by apply not_elem_of_nil in Hx.
Qed.

Lemma compacts_lookup_None h seen x :
  compacts h seen → x ∉ seen → oldv2newv_ h !! x = None.
Proof.
  intros Hc Hx. destruct (oldv2newv_ h !! x) as [v|] eqn:Hv; [|done].
  apply (compacts_lookup _ _ Hc) in Hv as (i & Hi & _).
  destruct Hx. by eapply list_elem_of_lookup_2.
Qed.

Lemma compacts_lookup_Some h seen i x :
  compacts h seen → seen !! i = Some x → oldv2newv_ h !! x = Some (Z.of_nat i).
Proof. intros Hc Hi. apply (compacts_lookup _ _ Hc). eauto. Qed.

Lemma Update_step_compacts bits h seen x :
  0 < bits → Z.of_nat (length seen) < 2 ^ (bits - 1) →
  compacts h seen → compacts (Update_step bits h x) (add_seen seen x).
Proof.
  intros Hbits Hlen Hc. unfold Update_step, add_seen, flat_hash_map_insert.
  destruct (decide (x ∈ seen)) as [Hx|Hx].
  - apply list_elem_of_lookup in Hx as [i Hi].
    rewrite (compacts_lookup_Some _ _ _ _ Hc Hi).
    split; simpl; [apply Hc..|].
    intros y Hy. apply elem_of_union_r. by apply Hc.
  - rewrite (compacts_lookup_None _ _ _ Hc Hx).
    rewrite (compacts_size _ _ Hc), to_IdType_small by lia.
    split; simpl.
    + apply NoDup_app. split_and!; [apply Hc| |apply NoDup_singleton].
      intros y Hy ->%list_elem_of_singleton. done.
    + rewrite map_size_insert_None by (by eapply compacts_lookup_None).
      rewrite length_app, (compacts_size _ _ Hc). simpl. lia.
    + intros y v. rewrite lookup_insert. case_decide as Hxy.
      * subst y. split.
        -- intros [= <-]. exists (length seen). split; [|done].
           by apply list_lookup_middle.
        -- intros (i & Hi & ->). f_equal.
           apply lookup_snoc_Some in Hi as [[_ Hi]|[-> _]]; [|done].
           destruct Hx. by eapply list_elem_of_lookup_2.
      * rewrite (compacts_lookup _ _ Hc). split.
        -- intros (i & Hi & ->). exists i. split; [|done].
           rewrite lookup_app_l; [done|]. by eapply lookup_lt_Some.
        -- intros (i & Hi & ->). exists i. split; [|done].
           apply lookup_snoc_Some in Hi as [[_ Hi]|[_ ?]]; [done|congruence].
    + intros y [Hy| ->%list_elem_of_singleton]%elem_of_app.
      * apply elem_of_union_r. by apply Hc.
      * apply elem_of_union_l. by apply elem_of_singleton.
Qed.

Lemma length_add_seen seen x : (length (add_seen seen x) ≤ S (length seen))%nat.
Proof.
  unfold add_seen. destruct (decide (x ∈ seen)); rewrite ?length_app; simpl; lia.
Qed.

Lemma Update_compacts bits h seen ids :
  0 < bits → Z.of_nat (length seen + length ids) ≤ 2 ^ (bits - 1) →
  compacts h seen → compacts (Update bits h ids) (foldl add_seen seen ids).
Proof.
  intros Hbits. unfold Update. revert h seen.
  induction ids as [|x ids IH]; intros h seen Hlen Hc; simpl in *; [done|].
  apply IH.
  - pose proof (length_add_seen seen x). lia.
  - apply Update_step_compacts; [done|lia|done].
Qed.

(* --------------------------------------------------------------------- *)
(** ** Reading a compaction: [Map] and [Values]                           *)
(* --------------------------------------------------------------------- *)

Lemma compacts_Map h seen i x default_val :
  compacts h seen → seen !! i = Some x → Map h x default_val = Z.of_nat i.
Proof.
  intros Hc Hi. unfold Map.
  rewrite bool_decide_eq_true_2
    by (by eapply (compacts_filter _ _ Hc), list_elem_of_lookup_2).
  by rewrite (compacts_lookup_Some _ _ _ _ Hc Hi).
Qed.

Lemma compacts_Map_absent h seen x default_val :
  compacts h seen → x ∉ seen → Map h x default_val = default_val.
Proof.
  intros Hc Hx. unfold Map. rewrite (compacts_lookup_None _ _ _ Hc Hx).
  by case_bool_decide.
Qed.

Lemma length_store values second first :
  length (store values second first) = length values.
Proof. unfold store. case_bool_decide; [apply length_insert|done]. Qed.

Lemma length_fold_store (pairs : list (Z * Z)) (values : list Z) :
  length (foldr (λ pair values, store values pair.2 pair.1) values pairs)
  = length values.
Proof.
  induction pairs as [|p pairs IH]; simpl; [done|]. by rewrite length_store.
Qed.

(** When no two pairs share their second component, the cell of each pair
    holds its first component after all the stores, in whichever order the
    pairs come. *)
Lemma fold_store_lookup (pairs : list (Z * Z)) (values : list Z) (i : nat) x :
  (∀ k k' v, (k, v) ∈ pairs → (k', v) ∈ pairs → k = k') →
  (x, Z.of_nat i) ∈ pairs → (i < length values)%nat →
  foldr (λ pair values, store values pair.2 pair.1) values pairs !! i = Some x.
Proof.
  intros Hfun Hin Hi. induction pairs as [|[k v] pairs IH]; simpl.
  { by apply elem_of_nil in Hin. }
  unfold store. rewrite length_fold_store.
  destruct (decide (v = Z.of_nat i)) as [->|Hne].
  - rewrite bool_decide_eq_true_2 by lia. rewrite Nat2Z.id.
    rewrite list_lookup_insert_eq by (by rewrite length_fold_store).
    f_equal. apply (Hfun k x (Z.of_nat i)); [by left|done].
  - apply elem_of_cons in Hin as [[= _ ?]|Hin]; [done|].
    assert (foldr (λ pair values, store values pair.2 pair.1) values pairs !! i
            = Some x) as Hrec.
    { apply IH; [|done]. intros k1 k2 v' H1 H2.
      apply (Hfun k1 k2 v'); by right. }
    case_bool_decide; [|done].
    rewrite list_lookup_insert_ne; [done|]. lia.
Qed.

Lemma length_NewIdArray garbage len : length (NewIdArray garbage len) = len.
Proof. unfold NewIdArray. by rewrite length_fmap, length_seq. Qed.

(** Every cell of the new array is written: [Values] does not depend on
    what the memory held. *)
Lemma compacts_Values garbage h seen :
  compacts h seen → Values garbage h = seen.
Proof.
  intros Hc. unfold Values.
  apply list_eq_same_length with (length seen); [done| |].
  { by rewrite length_fold_store, length_NewIdArray, (compacts_size _ _ Hc). }
  intros i x y Hi Hx Hy.
  rewrite fold_store_lookup with (x := y) in Hx; [congruence| | |].
  - intros k k' v Hk Hk'.
    apply elem_of_map_to_list, (compacts_lookup _ _ Hc) in Hk as (j & Hj & ->).
    apply elem_of_map_to_list, (compacts_lookup _ _ Hc) in Hk' as (j' & Hj' & Heq).
    apply Nat2Z.inj in Heq as ->. congruence.
  - apply elem_of_map_to_list. by eapply compacts_lookup_Some.
  - by rewrite length_NewIdArray, (compacts_size _ _ Hc).
Qed.

(* --------------------------------------------------------------------- *)
(** ** The statement of the specification                                 *)
(* --------------------------------------------------------------------- *)

Lemma IdHashMap_of_compacts bits ids :
  0 < bits → Z.of_nat (length ids) ≤ 2 ^ (bits - 1) →
  compacts (IdHashMap_of bits ids) (first_seen ids).
Proof.
  intros Hbits Hlen. rewrite <-foldl_add_seen_nil.
  apply Update_compacts; [done|simpl; lia|apply compacts_new].
Qed.

(** The same when only the number of distinct identifiers is bounded. *)
Lemma length_foldl_add_seen_ge seen ids :
  (length seen ≤ length (foldl add_seen seen ids))%nat.
Proof. rewrite foldl_add_seen, length_app. lia. Qed.

Lemma Update_step_compacts_fits bits h seen x :
  0 < bits → Z.of_nat (length (add_seen seen x)) ≤ 2 ^ (bits - 1) →
  compacts h seen → compacts (Update_step bits h x) (add_seen seen x).
Proof.
  intros Hbits Hlen Hc. destruct (decide (x ∈ seen)) as [Hx|Hx].
  - unfold Update_step, add_seen, flat_hash_map_insert.
    rewrite decide_True by done.
    apply list_elem_of_lookup in Hx as [i Hi].
    rewrite (compacts_lookup_Some _ _ _ _ Hc Hi).
    split; simpl; [apply Hc..|].
    intros y Hy. apply elem_of_union_r. by apply Hc.
  - apply Update_step_compacts; [done| |done].
    unfold add_seen in Hlen. rewrite decide_False, length_app in Hlen by done.
    simpl in Hlen. lia.
Qed.

Lemma Update_compacts_fits bits h seen ids :
  0 < bits → Z.of_nat (length (foldl add_seen seen ids)) ≤ 2 ^ (bits - 1) →
  compacts h seen → compacts (Update bits h ids) (foldl add_seen seen ids).
Proof.
  intros Hbits. unfold Update. revert h seen.
  induction ids as [|x ids IH]; intros h seen Hlen Hc; simpl in *; [done|].
  apply IH; [done|]. apply Update_step_compacts_fits; [done| |done].
  pose proof (length_foldl_add_seen_ge (add_seen seen x) ids). lia.
Qed.

Lemma length_first_seen_distinct ids :
  length (first_seen ids) = size (list_to_set ids : gset Z).
Proof.
  rewrite <-(size_list_to_set (C := gset Z)) by apply NoDup_first_seen.
  f_equal. apply set_eq. intros x.
  by rewrite !elem_of_list_to_set, elem_of_first_seen.
Qed.

Lemma IdHashMap_of_compacts_distinct bits ids :
  0 < bits → Z.of_nat (size (list_to_set ids : gset Z)) ≤ 2 ^ (bits - 1) →
  compacts (IdHashMap_of bits ids) (first_seen ids).
Proof.
  intros Hbits Hlen. rewrite <-foldl_add_seen_nil.
  apply Update_compacts_fits; [done| |apply compacts_new].
  by rewrite foldl_add_seen_nil, length_first_seen_distinct.
Qed.

(** C8.  For every identifier array (duplicates allowed) with at most
    [2^(bits-1)] distinct identifiers, [bits] being the width of [IdType],
    inserted via [Update] into a new compactor, each distinct identifier
    gets the next unused new id in the order of first appearance:
    [Values()] lists the distinct identifiers in that order and has length
    [Size()], the number of distinct identifiers; [Map(x, -1)] is the
    position of [x] among them for every [x] of the input; and
    [Map(Values()[i], -1) = i].  For the input [5, 3, 5, 9, 3]: 5→0, 3→1,
    9→2, [Values() = [5, 3, 9]] and [Map([9, 3, 5], -1) = [2, 1, 0]]. *)
Theorem IdHashMap_compaction (bits : Z) (garbage : nat → Z) (ids : list Z) :
  0 < bits → Z.of_nat (size (list_to_set ids : gset Z)) ≤ 2 ^ (bits - 1) →
  (let h := IdHashMap_of bits ids in
   Values garbage h = first_seen ids ∧
   length (Values garbage h) = Size h ∧
   Size h = size (list_to_set ids : gset Z) ∧
   (∀ x : Z, x ∈ ids →
      ∃ i : nat, first_seen ids !! i = Some x ∧ Map h x (-1) = Z.of_nat i) ∧
   (∀ i : nat, (i < Size h)%nat →
      Map h (Values garbage h !!! i) (-1) = Z.of_nat i)) ∧
  (let h := IdHashMap_of 64 [5; 3; 5; 9; 3] in
   Map h 5 (-1) = 0 ∧ Map h 3 (-1) = 1 ∧ Map h 9 (-1) = 2 ∧
   Values garbage h = [5; 3; 9] ∧ Size h = 3%nat ∧
   Map_array h [9; 3; 5] (-1) = [2; 1; 0]).
Proof.
  intros Hbits Hlen. split.
  - pose proof (IdHashMap_of_compacts_distinct bits ids Hbits Hlen) as Hc.
    simpl. rewrite (compacts_Values _ _ _ Hc). unfold Size.
    rewrite (compacts_size _ _ Hc). split_and!; [done..| | |].
    + apply length_first_seen_distinct.
    + intros x Hx. apply elem_of_first_seen, list_elem_of_lookup in Hx as [i Hi].
      exists i. split; [done|]. by eapply compacts_Map.
    + intros i Hi. eapply compacts_Map; [done|].
      by apply list_lookup_lookup_total_lt.
  - split_and!; [by vm_compute..| |by vm_compute|by vm_compute].
    apply (compacts_Values garbage _ (first_seen [5; 3; 5; 9; 3])).
    apply IdHashMap_of_compacts; [done|by vm_compute].
Qed.

Lemma IdHashMap_compaction_witness :
  let ids := [7; 7; -1; 4; 7; -1; 16777223] in
  let h := IdHashMap_of 32 ids in
  (0 < 32 ∧ Z.of_nat (size (list_to_set ids : gset Z)) ≤ 2 ^ (32 - 1)) ∧
  Values (λ i, 99 + Z.of_nat i) h = [7; -1; 4; 16777223] ∧
  Map_array h ids (-1) = [0; 0; 1; 2; 0; 1; 3] ∧
  Map h 16777220 (-1) = -1.
Proof.
  intros ids h.
  assert (0 < 32) as H1 by lia.
  assert (Z.of_nat (size (list_to_set ids : gset Z)) ≤ 2 ^ (32 - 1)) as H2
    by (by vm_compute).
  split; [done|].
  destruct (IdHashMap_compaction 32 (λ i, 99 + Z.of_nat i) ids H1 H2)
    as [(HV & _) _].
  split; [exact HV|]. split; vm_compute; reflexivity.
Defined.

(* --------------------------------------------------------------------- *)
(** ** Further properties of [IdHashMap]                                  *)
(* --------------------------------------------------------------------- *)

Lemma IdHashMap_eq h1 h2 :
  filter_ h1 = filter_ h2 → oldv2newv_ h1 = oldv2newv_ h2 → h1 = h2.
Proof. destruct h1, h2; simpl. by intros -> ->. Qed.

Lemma Update_step_lookup bits h id x :
  oldv2newv_ (Update_step bits h id) !! x
  = match oldv2newv_ h !! x with
    | Some v => Some v
    | None =>
        if decide (id = x)
        then Some (to_IdType bits (Z.of_nat (size (oldv2newv_ h))))
        else None
    end.
Proof.
  unfold Update_step, flat_hash_map_insert; simpl.
  destruct (oldv2newv_ h !! id) as [w|] eqn:Hid.
  - destruct (oldv2newv_ h !! x) eqn:Hx; [done|].
    case_decide; [congruence|done].
  - rewrite lookup_insert. case_decide as Heq.
    + subst. by rewrite Hid.
    + by destruct (oldv2newv_ h !! x).
Qed.

Lemma Update_step_present bits h id :
  is_Some (oldv2newv_ h !! id) → Z.land id kFilterMask ∈ filter_ h →
  Update_step bits h id = h.
Proof.
  intros [v Hv] Hbit. apply IdHashMap_eq; simpl.
  - apply subseteq_union_1_L. by apply singleton_subseteq_l.
  - unfold flat_hash_map_insert. by rewrite Hv.
Qed.

Lemma Update_snoc bits h ids id :
  Update bits h (ids ++ [id]) = Update_step bits (Update bits h ids) id.
Proof. unfold Update. by rewrite foldl_app. Qed.

(** What [Update] does to one key and to the filter. *)
Lemma Update_keeps bits h ids x v :
  oldv2newv_ h !! x = Some v → oldv2newv_ (Update bits h ids) !! x = Some v.
Proof.
  intros Hx. induction ids as [|id ids IH] using rev_ind; [done|].
  by rewrite Update_snoc, Update_step_lookup, IH.
Qed.

Lemma Update_filter_mono bits h ids : filter_ h ⊆ filter_ (Update bits h ids).
Proof.
  induction ids as [|id ids IH] using rev_ind; [done|].
  rewrite Update_snoc. simpl. by apply union_subseteq_r'.
Qed.

Lemma Update_key bits h ids x :
  is_Some (oldv2newv_ (Update bits h ids) !! x)
  ↔ is_Some (oldv2newv_ h !! x) ∨ x ∈ ids.
Proof.
  induction ids as [|id ids IH] using rev_ind.
  { rewrite elem_of_nil. simpl. tauto. }
  rewrite Update_snoc, Update_step_lookup, elem_of_app, list_elem_of_singleton.
  destruct (oldv2newv_ (Update bits h ids) !! x) as [v|] eqn:Hx.
  - assert (is_Some (Some v)) as Hs by eauto. apply IH in Hs. split; [tauto|eauto].
  - case_decide as Heq.
    + subst. split; [tauto|eauto].
    + split; [by intros [? [=]]|]. intros [Hh|[Hin|Heq']]; [| |congruence].
      * apply (or_introl (B := x ∈ ids)), IH in Hh. by destruct Hh.
      * apply (or_intror (A := is_Some (oldv2newv_ h !! x))), IH in Hin.
        by destruct Hin.
Qed.

Lemma Update_bit bits h ids x :
  x ∈ ids → Z.land x kFilterMask ∈ filter_ (Update bits h ids).
Proof.
  induction ids as [|id ids IH] using rev_ind; [by intros ?%elem_of_nil|].
  rewrite Update_snoc. simpl.
  intros [Hin| ->%list_elem_of_singleton]%elem_of_app.
  - apply elem_of_union_r. by apply IH.
  - apply elem_of_union_l. by apply elem_of_singleton.
Qed.

Lemma Update_filter_covers bits h ids :
  filter_covers h → filter_covers (Update bits h ids).
Proof.
  intros Hcov x [Hh|Hin]%Update_key.
  - by apply (Update_filter_mono bits h ids), Hcov.
  - by apply Update_bit.
Qed.

Lemma Update_size bits h ids :
  (Size h ≤ Size (Update bits h ids) ≤ Size h + length ids)%nat.
Proof.
  unfold Size. induction ids as [|id ids IH] using rev_ind; [simpl; lia|].
  rewrite Update_snoc, length_app. simpl.
  unfold flat_hash_map_insert.
  destruct (oldv2newv_ (Update bits h ids) !! id) eqn:Hid; [lia|].
  rewrite map_size_insert_None by done. lia.
Qed.

(** One identifier more than [IdType] has new ids for: the last one gets
    the new id [-2^(bits-1)]. *)
Lemma IdHashMap_overflow bits (a : Z) :
  0 < bits →
  Map (IdHashMap_of bits (seqZ a (2 ^ (bits - 1)) ++ [a + 2 ^ (bits - 1)]))
      (a + 2 ^ (bits - 1)) (-1)
  = - 2 ^ (bits - 1).
Proof.
  intros Hbits.
  assert (2 ^ bits = 2 * 2 ^ (bits - 1)) as Hpow.
  { rewrite <-Z.pow_succ_r by lia. f_equal. lia. }
  assert (0 < 2 ^ (bits - 1)) as Hpos by (apply Z.pow_pos_nonneg; lia).
  set (n := 2 ^ (bits - 1)) in *.
  set (x := a + n). set (ids := seqZ a n).
  assert (x ∉ ids) as Hx.
  { unfold ids, x. rewrite elem_of_seqZ. lia. }
  assert (Z.of_nat (size (list_to_set ids : gset Z)) = n) as Hsize.
  { rewrite size_list_to_set by apply NoDup_seqZ.
    unfold ids. rewrite length_seqZ. lia. }
  pose proof (IdHashMap_of_compacts_distinct bits ids Hbits ltac:(fold n; lia))
    as Hc.
  unfold IdHashMap_of in *. rewrite Update_snoc.
  set (h := Update bits IdHashMap_new ids) in *.
  unfold Map.
  rewrite bool_decide_eq_true_2
    by (cbn [Update_step filter_]; apply elem_of_union_l;
        by apply elem_of_singleton).
  rewrite Update_step_lookup.
  assert (oldv2newv_ h !! x = None) as ->.
  { apply eq_None_not_Some. intros Hs. apply Update_key in Hs as [Hs|Hs].
    - by destruct Hs as [? Hs].
    - done. }
  rewrite decide_True by done.
  rewrite (compacts_size _ _ Hc), length_first_seen_distinct, Hsize.
  unfold to_IdType. fold n. rewrite Hpow.
  replace (n + n) with (1 * (2 * n)) by lia.
  rewrite Z.mod_mul by lia. lia.
Qed.

(** An array of [2^31 + 1] different 32-bit identifiers, from [-1] to
    [2^31 - 1]: the last one is the distinct identifier number [2^31], and
    [Map] gives it [-2^31]. *)
Lemma IdHashMap_compaction_counterexample :
  let ids := seqZ (-1) (2 ^ 31) ++ [2 ^ 31 - 1] in
  let h := IdHashMap_of 32 ids in
  Forall (λ x, - 2 ^ 31 ≤ x < 2 ^ 31) ids ∧
  2 ^ 31 - 1 ∈ ids ∧
  Map h (2 ^ 31 - 1) (-1) = - 2 ^ 31 ∧
  ¬ ∃ i : nat, first_seen ids !! i = Some (2 ^ 31 - 1) ∧
               Map h (2 ^ 31 - 1) (-1) = Z.of_nat i.
Proof.
  intros ids h.
  assert (Map h (2 ^ 31 - 1) (-1) = - 2 ^ 31) as HMap.
  { exact (IdHashMap_overflow 32 (-1) eq_refl). }
  split; [|split; [|split]].
  - apply Forall_app. split.
    + apply Forall_forall. intros x Hx%elem_of_seqZ. lia.
    + apply Forall_singleton. lia.
  - apply elem_of_app. right. apply list_elem_of_singleton. reflexivity.
  - exact HMap.
  - intros (i & _ & Hi). rewrite HMap in Hi. lia.
Qed.

(** The same with a narrower [IdType], small enough to run: 129 different
    identifiers and 8 bits. *)
Example IdHashMap_overflow_run :
  Map (IdHashMap_of 8 (seqZ 0 129)) 128 (-1) = -128 ∧
  Map (IdHashMap_of 8 (seqZ 0 129)) 127 (-1) = 127.
Proof. by vm_compute. Qed.

(** X7.  [Update] is idempotent: inserting an array a second time changes
    neither the table nor the filter, whatever the compactor held
    before. *)
Theorem Update_idempotent (bits : Z) (h : IdHashMap) (ids : list Z) :
  Update bits (Update bits h ids) ids = Update bits h ids.
Proof.
  set (h' := Update bits h ids).
  assert (∀ l, (∀ x, x ∈ l → x ∈ ids) → Update bits h' l = h') as Hnoop.
  { intros l. induction l as [|x l IH] using rev_ind; intros Hl; [done|].
    rewrite Update_snoc, IH by (intros y Hy; apply Hl, elem_of_app; by left).
    assert (x ∈ ids) as Hx.
    { apply Hl, elem_of_app. right. by apply list_elem_of_singleton. }
    apply Update_step_present.
    - apply Update_key. by right.
    - by apply Update_bit. }
  by apply Hnoop.
Qed.

(** X8.  [Update] only adds: every identifier the compactor knew keeps its
    new id, the filter keeps its bits, an absent identifier stays absent
    unless it is in the array, and [Size()] grows by at most the length of
    the array. *)
Theorem Update_only_adds (bits : Z) (h : IdHashMap) (ids : list Z) :
  (∀ x v : Z, oldv2newv_ h !! x = Some v →
     oldv2newv_ (Update bits h ids) !! x = Some v) ∧
  (∀ x : Z, x ∉ ids → oldv2newv_ h !! x = None →
     oldv2newv_ (Update bits h ids) !! x = None) ∧
  filter_ h ⊆ filter_ (Update bits h ids) ∧
  (Size h ≤ Size (Update bits h ids) ≤ Size h + length ids)%nat.
Proof.
  split; [|split; [|split]].
  - intros x v. apply Update_keeps.
  - intros x Hx Hnone.
    destruct (oldv2newv_ (Update bits h ids) !! x) eqn:Hlook; [|done].
    assert (is_Some (oldv2newv_ (Update bits h ids) !! x)) as Hs by eauto.
    apply Update_key in Hs as [[? Hs]|?]; [congruence|done].
  - apply Update_filter_mono.
  - apply Update_size.
Qed.

Lemma filter_covers_new : filter_covers IdHashMap_new.
Proof. intros x [v Hv]. simpl in Hv. by rewrite lookup_empty in Hv. Qed.

Lemma Contains_true h x :
  filter_covers h → Contains h x = true ↔ is_Some (oldv2newv_ h !! x).
Proof.
  intros Hcov. unfold Contains.
  rewrite andb_true_iff, !bool_decide_eq_true. split; [tauto|].
  intros Hs. split; [by apply Hcov|done].
Qed.

(** X9.  [Contains] answers membership exactly, although it asks the
    filter first and the filter has false positives: after [Update],
    [Contains(id)] holds when [id] was contained before or is in the array,
    and for a compactor built from an array, exactly for the identifiers of
    the array.  [Map] gives [default_val] for every other identifier. *)
Theorem Contains_exact (bits : Z) (h : IdHashMap) (ids : list Z) (x : Z) :
  filter_covers h →
  filter_covers (Update bits h ids) ∧
  (Contains (Update bits h ids) x = true ↔ Contains h x = true ∨ x ∈ ids) ∧
  (Contains (IdHashMap_of bits ids) x = true ↔ x ∈ ids) ∧
  (∀ default_val : Z, x ∉ ids → Map (IdHashMap_of bits ids) x default_val = default_val).
Proof.
  intros Hcov. pose proof (Update_filter_covers bits h ids Hcov) as Hcov'.
  pose proof (Update_filter_covers bits IdHashMap_new ids filter_covers_new)
    as Hnew.
  split_and!; [done| | |].
  - by rewrite (Contains_true _ _ Hcov'), (Contains_true _ _ Hcov), Update_key.
  - unfold IdHashMap_of. rewrite (Contains_true _ _ Hnew), Update_key.
    simpl. rewrite lookup_empty. split; [|by right].
    intros [[? [=]]|?]; done.
  - intros default_val Hx. unfold Map, IdHashMap_of.
    destruct (oldv2newv_ (Update bits IdHashMap_new ids) !! x) eqn:Hlook.
    + assert (is_Some (oldv2newv_ (Update bits IdHashMap_new ids) !! x)) as Hs
        by eauto.
      apply Update_key in Hs as [[? Hs]|?]; [|done].
      simpl in Hs. by rewrite lookup_empty in Hs.
    + by case_bool_decide.
Qed.

Lemma Contains_exact_witness :
  let h := IdHashMap_of 64 [7; 9] in
  filter_covers IdHashMap_new ∧
  Contains h 7 = true ∧
  Contains h 16777223 = false ∧
  Map h 16777223 (-1) = -1.
Proof.
  split; [exact filter_covers_new|].
  destruct (Contains_exact 64 IdHashMap_new [7; 9] 16777223 filter_covers_new)
    as (_ & _ & _ & HMap).
  split; [by vm_compute|]. split; [by vm_compute|].
  apply HMap. rewrite !not_elem_of_cons.
  split_and!; [lia..|apply not_elem_of_nil].
Defined.

(** X10.  The new ids are stable under growth: after a second array is
    inserted, [Values()] is the former [Values()] followed by the
    identifiers that are new, in the order of their first appearance, and
    every identifier of the first array maps as it did. *)
Theorem Update_extends (bits : Z) (garbage : nat → Z) (ids1 ids2 : list Z) :
  0 < bits → Z.of_nat (length ids1 + length ids2) ≤ 2 ^ (bits - 1) →
  let h1 := IdHashMap_of bits ids1 in
  let h2 := Update bits h1 ids2 in
  h2 = IdHashMap_of bits (ids1 ++ ids2) ∧
  Values garbage h2
  = Values garbage h1 ++ filter (λ x, x ∉ ids1) (first_seen ids2) ∧
  (∀ x default_val : Z, x ∈ ids1 → Map h2 x default_val = Map h1 x default_val).
Proof.
  intros Hbits Hlen h1 h2.
  assert (compacts h1 (first_seen ids1)) as Hc1.
  { apply IdHashMap_of_compacts; [done|lia]. }
  assert (compacts h2 (first_seen ids1
                       ++ filter (λ x, x ∉ ids1) (first_seen ids2))) as Hc2.
  { rewrite (list_filter_iff (λ x, x ∉ ids1) (λ x, x ∉ first_seen ids1))
      by (intros x; by rewrite elem_of_first_seen).
    rewrite <-foldl_add_seen. apply Update_compacts; [done| |done].
    pose proof (length_first_seen ids1). lia. }
  split_and!.
  - unfold h2, h1, IdHashMap_of, Update. by rewrite foldl_app.
  - by rewrite (compacts_Values _ _ _ Hc2), (compacts_Values _ _ _ Hc1).
  - intros x default_val [i Hi]%elem_of_first_seen%list_elem_of_lookup.
    rewrite (compacts_Map _ _ i x _ Hc1 Hi).
    apply (compacts_Map _ _ i x _ Hc2).
    rewrite lookup_app_l; [done|]. by eapply lookup_lt_Some.
Qed.

Lemma Update_extends_witness :
  let h1 := IdHashMap_of 32 [5; 3; 5] in
  let h2 := Update 32 h1 [9; 3; 8; 9] in
  (0 < 32 ∧ Z.of_nat (length [5; 3; 5] + length [9; 3; 8; 9]) ≤ 2 ^ (32 - 1)) ∧
  Values (λ _, 0) h2 = Values (λ _, 0) h1 ++ [9; 8].
Proof.
  intros h1 h2.
  assert (0 < 32) as H1 by lia.
  assert (Z.of_nat (length [5; 3; 5] + length [9; 3; 8; 9]) ≤ 2 ^ (32 - 1))
    as H2 by (by vm_compute).
  split; [done|].
  exact (proj1 (proj2 (Update_extends 32 (λ _, 0) [5; 3; 5] [9; 3; 8; 9] H1 H2))).
Defined.

(** X11.  For a compactor built from an array that fits [IdType], [Map]
    gives an inserted identifier a new id in [[0, Size())], and different
    inserted identifiers different new ids. *)
Theorem Map_range_injective (bits : Z) (ids : list Z) (x y default_val : Z) :
  0 < bits → Z.of_nat (length ids) ≤ 2 ^ (bits - 1) →
  x ∈ ids → y ∈ ids →
  let h := IdHashMap_of bits ids in
  0 ≤ Map h x default_val < Z.of_nat (Size h) ∧
  (Map h x default_val = Map h y default_val → x = y).
Proof.
  intros Hbits Hlen [i Hi]%elem_of_first_seen%list_elem_of_lookup
    [j Hj]%elem_of_first_seen%list_elem_of_lookup h. subst h.
  pose proof (IdHashMap_of_compacts bits ids Hbits Hlen) as Hc.
  rewrite (compacts_Map _ _ i x _ Hc Hi), (compacts_Map _ _ j y _ Hc Hj).
  unfold Size. rewrite (compacts_size _ _ Hc).
  pose proof (lookup_lt_Some _ _ _ Hi). split; [lia|].
  intros Heq%Nat2Z.inj. subst. congruence.
Qed.

Lemma Map_range_injective_witness :
  let ids := [40; -2; 40; 16777256] in
  (0 < 64 ∧ Z.of_nat (length ids) ≤ 2 ^ (64 - 1) ∧ 40 ∈ ids ∧ 16777256 ∈ ids) ∧
  0 ≤ Map (IdHashMap_of 64 ids) 40 (-1) < Z.of_nat (Size (IdHashMap_of 64 ids)).
Proof.
  intros ids.
  assert (0 < 64) as H1 by lia.
  assert (Z.of_nat (length ids) ≤ 2 ^ (64 - 1)) as H2 by (by vm_compute).
  assert (40 ∈ ids) as H3 by (by left).
  assert (16777256 ∈ ids) as H4 by (do 3 right; by left).
  split; [done|].
  exact (proj1 (Map_range_injective 64 ids 40 16777256 (-1) H1 H2 H3 H4)).
Defined.

(* --------------------------------------------------------------------- *)
(** ** [FnvHash] and [PairHash]                                           *)
(* --------------------------------------------------------------------- *)

Lemma strlen_app (s t : list Z) :
  Forall (λ c, c ≠ 0) s → strlen (s ++ 0 :: t) = Some (length s).
Proof.
  induction 1 as [|c s Hc _ IH]; [done|].
  simpl. rewrite (proj2 (Z.eqb_neq c 0) Hc), IH. done.
Qed.

Lemma fnvHashConst_fold (str : list Z) (I : nat) :
  (I < length str)%nat →
  fnvHashConst str (S I) = Some (foldl fnv_step OFFSET_BASIS (take (S I) str)).
Proof.
  induction I as [|I IH]; intros HI.
  - destruct str as [|c str]; [simpl in HI; lia|]. done.
  - change (fnvHashConst str (S (S I)))
      with (h ← fnvHashConst str (S I); c ← str !! S I; Some (fnv_step h c)).
    rewrite IH by lia. cbn [mbind option_bind].
    destruct (lookup_lt_is_Some_2 str (S I) HI) as [c Hc].
    rewrite Hc. cbn [mbind option_bind].
    by rewrite (take_S_r _ _ _ Hc), foldl_app.
Qed.

Lemma fnv_step_range h c : 0 ≤ fnv_step h c < 2 ^ 32.
Proof. unfold fnv_step, to_unsigned. by apply Z.mod_pos_bound. Qed.

(** X18.  On a NUL-terminated string without a NUL inside, the run-time
    [fnvHash] and the compile-time [fnvHashConst] over the whole array
    give the same value, a 32-bit one; and [fnvHash] reads nothing past
    the first NUL, whereas [fnvHashConst] goes on to the end of the
    array. *)
Theorem FnvHash_literal (s t : list Z) :
  Forall (λ c, c ≠ 0) s →
  ∃ h, 0 ≤ h < 2 ^ 32 ∧
       fnvHash (s ++ [0]) = Some h ∧
       fnvHashConst (s ++ [0]) (length (s ++ [0])) = Some h ∧
       fnvHash (s ++ 0 :: t) = Some h ∧
       fnvHashConst (s ++ 0 :: t) (length (s ++ 0 :: t))
       = Some (foldl fnv_step h t).
Proof.
  intros Hs.
  assert (∀ t', take (S (length s)) (s ++ 0 :: t') = s ++ [0]) as Htake.
  { intros t'. change (0 :: t') with ([0] ++ t'). rewrite (assoc_L (++)).
    apply take_app_length'. rewrite length_app. simpl. lia. }
  exists (foldl fnv_step OFFSET_BASIS (s ++ [0])).
  split; [|split; [|split; [|split]]].
  - rewrite foldl_app. simpl. apply fnv_step_range.
  - unfold fnvHash. rewrite strlen_app by done. cbn [mbind option_bind].
    by rewrite Htake.
  - rewrite length_app. cbn [length]. rewrite Nat.add_1_r.
    rewrite fnvHashConst_fold by (rewrite length_app; simpl; lia).
    by rewrite Htake.
  - unfold fnvHash. rewrite strlen_app by done. cbn [mbind option_bind].
    by rewrite Htake.
  - rewrite length_app. cbn [length]. rewrite <-Nat.add_succ_comm.
    cbn [Nat.add]. rewrite fnvHashConst_fold by (rewrite length_app; simpl; lia).
    rewrite take_ge by (rewrite length_app; simpl; lia).
    change (0 :: t) with ([0] ++ t).
    by rewrite (assoc_L (++)), (foldl_app _ (s ++ [0])).
Qed.

Lemma FnvHash_literal_witness :
  Forall (λ c, c ≠ 0) [104; 105] ∧
  ∃ h, 0 ≤ h < 2 ^ 32 ∧
       fnvHash ([104; 105] ++ [0]) = Some h ∧
       fnvHashConst ([104; 105] ++ [0]) (length ([104; 105] ++ [0])) = Some h ∧
       fnvHash ([104; 105] ++ 0 :: [33]) = Some h ∧
       fnvHashConst ([104; 105] ++ 0 :: [33]) (length ([104; 105] ++ 0 :: [33]))
       = Some (foldl fnv_step h [33]).
Proof.
  assert (Forall (λ c, c ≠ 0) [104; 105]) as H1 by (repeat constructor; lia).
  split; [done|]. exact (FnvHash_literal [104; 105] [33] H1).
Defined.

(** X19.  [PairHash] with one hash function for both components gives a
    pair and the swapped pair the same value, and every pair of two equal
    components the value 0. *)
Theorem PairHash_symmetric {T} (hash : T → Z) (a b : T) :
  PairHash hash hash (a, b) = PairHash hash hash (b, a) ∧
  PairHash hash hash (a, a) = 0.
Proof.
  unfold PairHash. cbn [fst snd]. split; [apply Z.lxor_comm|].
  apply Z.lxor_nilpotent.
Qed.

End ArrayUtilsSpec.

Module RandomChoiceSpec.
Import RandomChoice.

(* --------------------------------------------------------------------- *)
(** ** Facts                                                              *)
(* --------------------------------------------------------------------- *)

#[export] Instance Tape_laws : RandomEngineLaws Tape.
Proof.
  split. intros n [|v e] Hn; simpl; [lia|]. by apply Z.mod_pos_bound.
Qed.

#[export] Instance ascending_set_laws : FlatHashSetLaws.
Proof. split; intros X; apply merge_sort_Permutation. Qed.

Example to_string_neg : to_string (-12) = "-12".
Proof. reflexivity. Qed.

(** *** The monad *)

Lemma bind_Ok {R A B} (m : M R A) (f : A → M R B) w a w' :
  m w = (Ok a, w') → (m ≫= f) w = f a w'.
Proof. unfold mbind, M_bind. by intros ->. Qed.

Lemma bind_Fail {R A B} (m : M R A) (f : A → M R B) w e w' :
  m w = (Fail e, w') → (m ≫= f) w = (Fail e, w').
Proof. unfold mbind, M_bind. by intros ->. Qed.

Lemma write_out_Ok {R} (i : nat) v (e : R) c l :
  (i < length l)%nat →
  write_out (Z.of_nat i) v (mkWorld e c l) = (Ok (), mkWorld e c (<[i := v]> l)).
Proof.
  intros Hi. unfold write_out; simpl.
  rewrite bool_decide_eq_true_2 by lia. by rewrite Nat2Z.id.
Qed.

(** *** Filling a stretch of the buffer *)

Lemma for_loop_write {R} (f : Z → Z) n (pre mid rest : list Z) (e : R) c :
  length mid = n →
  for_loop n (Z.of_nat (length pre)) (λ i, write_out i (f i))
    (mkWorld e c (pre ++ mid ++ rest))
  = (Ok (), mkWorld e c
              (pre ++ (f <$> seqZ (Z.of_nat (length pre)) (Z.of_nat n)) ++ rest)).
Proof.
  revert pre mid. induction n as [|n IH]; intros pre mid Hmid.
  - destruct mid; [|done]. done.
  - destruct mid as [|x mid]; [done|]. injection Hmid as Hmid.
    cbn [for_loop]. erewrite bind_Ok; last first.
    { apply write_out_Ok. rewrite length_app. simpl. lia. }
    replace (length pre) with (length pre + 0)%nat at 2 by lia.
    rewrite insert_app_r. simpl.
    set (v := f (Z.of_nat (length pre))).
    change (pre ++ v :: mid ++ rest) with (pre ++ [v] ++ mid ++ rest).
    rewrite (assoc_L (++) pre [v]).
    replace (Z.of_nat (length pre) + 1) with (Z.of_nat (length (pre ++ [v])))
      by (rewrite length_app; simpl; lia).
    rewrite (IH (pre ++ [v]) mid Hmid). do 2 f_equal.
    rewrite <-(assoc_L (++)). f_equal.
    rewrite (seqZ_cons _ (Z.of_nat (S n))) by lia. simpl.
    replace (Z.of_nat (length (pre ++ [v]))) with (Z.succ (Z.of_nat (length pre)))
      by (rewrite length_app; simpl; lia).
    by replace (Z.pred (Z.of_nat (S n))) with (Z.of_nat n) by lia.
Qed.

Lemma for_write_prefix {R} (f : Z → Z) (num : Z) (w : World R) :
  (Z.to_nat num ≤ length (out w))%nat →
  for_ 0 num (λ i, write_out i (f i)) w
  = (Ok (), mkWorld (engine w) (cache_ w)
              ((f <$> seqZ 0 num) ++ drop (Z.to_nat num) (out w))).
Proof.
  intros Hlen. destruct w as [e c l]; simpl in *. unfold for_.
  rewrite <-(take_drop (Z.to_nat num) l) at 1.
  pose proof (for_loop_write f (Z.to_nat (num - 0)) [] (take (Z.to_nat num) l)
                (drop (Z.to_nat num) l) e c) as Hfw.
  cbn [length app] in Hfw. change (Z.of_nat 0) with 0 in Hfw. rewrite Hfw.
  - do 3 f_equal. destruct (decide (0 ≤ num)).
    + by replace (Z.of_nat (Z.to_nat (num - 0))) with num by lia.
    + by rewrite !seqZ_nil by lia.
  - rewrite length_take. lia.
Qed.

(** *** The reservoir loop *)

Section Reservoir.
Context {R : Type} `{RandomEngineLaws R}.

Lemma reservoir_loop (num : Z) m i (a rest : list Z) (e : R) c :
  0 ≤ i → length a = Z.to_nat num →
  for_loop m i
    (λ i, j ← rand_int (i + 1); if j <? num then write_out j i else mret ())
    (mkWorld e c (a ++ rest))
  = (Ok (),
     mkWorld (foldl (reservoir_step num) (a, e) (seqZ i (Z.of_nat m))).2 c
             ((foldl (reservoir_step num) (a, e) (seqZ i (Z.of_nat m))).1 ++ rest)).
Proof.
  revert i a e. induction m as [|m IH]; intros i a e Hi Ha; [done|].
  rewrite (seqZ_cons _ (Z.of_nat (S m))) by lia.
  replace (Z.pred (Z.of_nat (S m))) with (Z.of_nat m) by lia.
  cbn [for_loop foldl]. unfold reservoir_step at 2 4. simpl.
  pose proof (RandInt_range (i + 1) e ltac:(lia)) as Hj.
  destruct (RandInt (i + 1) e) as [j e'] eqn:Hdraw. simpl in Hj.
  destruct (j <? num) eqn:Hjn.
  - pose proof (proj1 (Z.ltb_lt _ _) Hjn) as Hlt.
    erewrite bind_Ok; last first.
    { erewrite bind_Ok; [|by unfold rand_int; simpl; rewrite Hdraw].
      rewrite Hjn. replace j with (Z.of_nat (Z.to_nat j)) at 1 by lia.
      apply write_out_Ok. rewrite length_app. lia. }
    rewrite insert_app_l by lia.
    apply IH; [lia|by rewrite length_insert].
  - erewrite bind_Ok; last first.
    { erewrite bind_Ok; [|by unfold rand_int; simpl; rewrite Hdraw].
      rewrite Hjn. reflexivity. }
    by apply IH; [lia|].
Qed.

(** The selection keeps [num] distinct indices below the candidates seen
    so far. *)
Lemma reservoir_fold_distinct (num : Z) m i (a : list Z) (e : R) :
  0 ≤ i → length a = Z.to_nat num → NoDup a → Forall (λ x, 0 ≤ x < i) a →
  let a' := (foldl (reservoir_step num) (a, e) (seqZ i (Z.of_nat m))).1 in
  length a' = Z.to_nat num ∧ NoDup a' ∧ Forall (λ x, 0 ≤ x < i + Z.of_nat m) a'.
Proof.
  revert i a e. induction m as [|m IH]; intros i a e Hi Ha Hnd Hall.
  { simpl. split_and!; [done..|]. eapply Forall_impl; [done|]. simpl. lia. }
  rewrite (seqZ_cons _ (Z.of_nat (S m))) by lia.
  replace (Z.pred (Z.of_nat (S m))) with (Z.of_nat m) by lia.
  cbn [foldl].
  pose proof (RandInt_range (i + 1) e ltac:(lia)) as Hj.
  destruct (RandInt (i + 1) e) as [j e'] eqn:Hdraw. simpl in Hj.
  assert (reservoir_step num (a, e) i
          = (if j <? num then <[Z.to_nat j := i]> a else a, e')) as ->
    by (unfold reservoir_step; simpl; by rewrite Hdraw).
  replace (i + Z.of_nat (S m)) with (Z.succ i + Z.of_nat m) by lia.
  apply IH; [lia| | |].
  - destruct (j <? num); [by rewrite length_insert|done].
  - destruct (j <? num) eqn:Hjn; [|done].
    apply Z.ltb_lt in Hjn. rewrite insert_take_drop by lia.
    rewrite <-(take_drop_middle a (Z.to_nat j) (a !!! Z.to_nat j)) in Hnd
      by (apply list_lookup_lookup_total_lt; lia).
    apply NoDup_app in Hnd as (Hnd1 & Hdisj & Hnd2).
    apply NoDup_cons in Hnd2 as [_ Hnd2].
    assert (i ∉ a) as Hfresh.
    { intros Hin. rewrite Forall_forall in Hall. specialize (Hall i Hin). lia. }
    apply NoDup_app. split_and!; [done| |].
    + intros x Hx [->|Hx']%elem_of_cons.
      * apply Hfresh. by eapply subseteq_take.
      * apply (Hdisj x Hx). by right.
    + apply NoDup_cons. split; [|done].
      intros Hin. apply Hfresh. by eapply subseteq_drop.
  - assert (Forall (λ x, 0 ≤ x < Z.succ i) a) as Hall'.
    { eapply Forall_impl; [done|]. simpl. lia. }
    destruct (j <? num); [|done]. apply Forall_insert; [done|lia].
Qed.
End Reservoir.

(** *** The hash-set selection *)

Lemma copy_from_spec {R} (l pre mid rest : list Z) (e : R) c :
  length mid = length l →
  copy_from (Z.of_nat (length pre)) l (mkWorld e c (pre ++ mid ++ rest))
  = (Ok (), mkWorld e c (pre ++ l ++ rest)).
Proof.
  revert pre mid. induction l as [|x l IH]; intros pre mid Hmid.
  - destruct mid; [|done]. done.
  - destruct mid as [|y mid]; [done|]. injection Hmid as Hmid.
    cbn [copy_from]. erewrite bind_Ok; last first.
    { apply write_out_Ok. rewrite length_app. simpl. lia. }
    replace (length pre) with (length pre + 0)%nat at 2 by lia.
    rewrite insert_app_r. simpl.
    change (pre ++ x :: mid ++ rest) with (pre ++ [x] ++ mid ++ rest).
    rewrite (assoc_L (++) pre [x]).
    replace (Z.of_nat (length pre) + 1) with (Z.of_nat (length (pre ++ [x])))
      by (rewrite length_app; simpl; lia).
    rewrite (IH (pre ++ [x]) mid Hmid). by rewrite <-(assoc_L (++)).
Qed.

Lemma quot_10_pos population : 0 < population `quot` 10 → 0 < population.
Proof.
  intros Hq. destruct (decide (0 < population)) as [|Hneg]; [done|].
  pose proof (Z.quot_pos (- population) 10 ltac:(lia) ltac:(lia)) as Hpos.
  rewrite Z.quot_opp_l in Hpos by lia. lia.
Qed.

Lemma below_threshold_le num population :
  0 ≤ num → num < population `quot` 10 → num ≤ population.
Proof.
  intros Hnum Hlt.
  assert (0 < population) as Hpop by (apply quot_10_pos; lia).
  pose proof (Z.quot_lt population 10 Hpop). lia.
Qed.

Section HashSet.
Context {R : Type} `{RandomEngineLaws R}.

Lemma fill_selected_eq fuel num population (selected : gset Z) :
  fill_selected (R := R) fuel num population selected
  = if Z.of_nat (size selected) <? to_size_t num then
      match fuel with
      | O => fail OutOfFuel
      | S fuel' =>
          v ← rand_int population;
          fill_selected fuel' num population ({[v]} ∪ selected)
      end
    else mret selected.
Proof. by destruct fuel. Qed.

(** When the loop ends, the set holds [num] indices of the population; the
    cache and the buffer are as before. *)
Lemma fill_selected_spec fuel num population (selected selected' : gset Z)
    (w w' : World R) :
  0 < population → 0 ≤ num < 2 ^ 64 →
  Z.of_nat (size selected) ≤ num →
  set_Forall (λ x, 0 ≤ x < population) selected →
  fill_selected fuel num population selected w = (Ok selected', w') →
  Z.of_nat (size selected') = num ∧
  set_Forall (λ x, 0 ≤ x < population) selected' ∧
  cache_ w' = cache_ w ∧ out w' = out w.
Proof.
  intros Hpop Hnum. revert selected w.
  induction fuel as [|fuel IH]; intros selected w Hsize Hrange;
    rewrite fill_selected_eq; unfold to_size_t; rewrite Z.mod_small by lia;
    destruct (Z.of_nat (size selected) <? num) eqn:Hlt.
  - by intros [=].
  - apply Z.ltb_ge in Hlt. intros [= <- <-]. split_and!; [lia|done..].
  - apply Z.ltb_lt in Hlt.
    pose proof (RandInt_range population (engine w) Hpop) as Hv.
    destruct (RandInt population (engine w)) as [v e] eqn:Hdraw. simpl in Hv.
    erewrite bind_Ok; [|by unfold rand_int; rewrite Hdraw].
    intros Hrun. apply IH in Hrun; [done| |].
    + pose proof (size_union_alt (C := gset Z) {[v]} selected) as Hu.
      rewrite size_singleton in Hu.
      pose proof (subseteq_size (selected ∖ {[v]}) selected
                    (subseteq_difference_l _ _ _ (reflexivity _))).
      lia.
    + apply set_Forall_union; [by apply set_Forall_singleton|done].
  - apply Z.ltb_ge in Hlt. intros [= <- <-]. split_and!; [lia|done..].
Qed.
End HashSet.

(** *** The loop of draws *)

Section Draws.
Context {R W T : Type} `{RandomEngine R} `{!BaseSampler R W T}.

Lemma draw_loop_spec n (sampler : T) (pre mid rest : list Z) (e : R) c :
  length mid = n →
  draw_loop n (Z.of_nat (length pre)) sampler (mkWorld e c (pre ++ mid ++ rest))
  = (Ok (), mkWorld (draws_of n sampler e).2 c
              (pre ++ (draws_of n sampler e).1 ++ rest)).
Proof.
  revert sampler pre mid e. induction n as [|n IH]; intros sampler pre mid e Hmid.
  - destruct mid; [|done]. done.
  - destruct mid as [|x mid]; [done|]. injection Hmid as Hmid.
    cbn [draw_loop draws_of].
    destruct (Draw sampler e) as [[v sampler'] e'] eqn:Hdraw.
    erewrite bind_Ok; [|by unfold draw; simpl; rewrite Hdraw].
    cbv beta iota. erewrite bind_Ok; last first.
    { apply write_out_Ok. rewrite length_app. simpl. lia. }
    replace (length pre) with (length pre + 0)%nat at 2 by lia.
    rewrite insert_app_r. simpl.
    change (pre ++ v :: mid ++ rest) with (pre ++ [v] ++ mid ++ rest).
    rewrite (assoc_L (++) pre [v]).
    replace (Z.of_nat (length pre) + 1) with (Z.of_nat (length (pre ++ [v])))
      by (rewrite length_app; simpl; lia).
    rewrite (IH sampler' (pre ++ [v]) mid e' Hmid).
    destruct (draws_of n sampler' e') as [l e'']. simpl.
    by rewrite <-(assoc_L (++)).
Qed.

(** A full sample without replacement ([num] equal to the population
    size): whatever [std::iota] wrote, [out] ends up holding the [num]
    draws of the sampler. *)
Lemma Choice_full_sample (prob : list W) (w : World R) :
  let num := length prob in
  (num ≤ length (out w))%nat →
  Choice (Z.of_nat num) prob false w
  = (Ok (), mkWorld (draws_of num (TreeSampler false prob) (engine w)).2
              (cache_ w)
              ((draws_of num (TreeSampler false prob) (engine w)).1
               ++ drop num (out w))).
Proof.
  intros num Hout. unfold Choice, CHECK_LE. cbn [negb].
  rewrite Z.leb_refl, Z.eqb_refl. cbn [andb].
  erewrite bind_Ok by reflexivity.
  erewrite bind_Ok; last first.
  { unfold iota. apply for_write_prefix. by rewrite Nat2Z.id. }
  cbn [engine cache_ out]. rewrite Z.sub_0_r, Nat2Z.id.
  pose proof (draw_loop_spec num (TreeSampler false prob) []
                (Z.add 0 <$> seqZ 0 (Z.of_nat num)) (drop num (out w))
                (engine w) (cache_ w)) as Hd.
  cbn [length app] in Hd. change (Z.of_nat 0) with 0 in Hd.
  apply Hd. rewrite length_fmap, length_seqZ. lia.
Qed.
End Draws.

(* --------------------------------------------------------------------- *)
(** ** The statements of the specification                                *)
(* --------------------------------------------------------------------- *)

Section Statements.
Context {R : Type} `{RandomEngine R} `{!FlatHashSet}.
Variable std_hash : string → N.

(** Below the threshold, a call that finds its key in [cache_] copies the
    filed sample and never asks the engine. *)
Lemma UniformChoice_cache_hit fuel num population (w : World R) cache_local :
  num ≤ population → num < population `quot` 10 → (0 < length (out w))%nat →
  cache_ w !! cache_key std_hash num population (out w !!! 0%nat)
  = Some cache_local →
  UniformChoice std_hash fuel num population false w
  = copy_from 0 (copy_order cache_local) w.
Proof.
  intros Hle Hlt Hout Hhit. unfold UniformChoice, CHECK_LE. cbn [negb].
  rewrite (proj2 (Z.leb_le _ _) Hle), (proj2 (Z.ltb_lt _ _) Hlt).
  erewrite bind_Ok by reflexivity.
  erewrite bind_Ok; last first.
  { unfold read_out. rewrite bool_decide_eq_true_2 by lia. reflexivity. }
  erewrite bind_Ok by reflexivity.
  change (Z.to_nat 0) with 0%nat. unfold cache_key in Hhit.
  erewrite bind_Ok; [reflexivity|]. by rewrite Hhit.
Qed.

(** C4.  With [replace = false] and [num] greater than the population
    size, [UniformChoice] and the weighted [Choice] fail on their
    [CHECK_LE], and the world at the failure is the world of the call:
    nothing was written to [out] (nor to the cache, nor drawn from the
    engine). *)
Theorem sampling_rejects_oversized {W T} `{BaseSampler R W T}
    (fuel : nat) (num population : Z) (prob : list W) (w : World R) :
  (population < num →
   UniformChoice std_hash fuel num population false w
   = (Fail (CheckFailed check_msg), w)) ∧
  (Z.of_nat (length prob) < num →
   Choice num prob false w = (Fail (CheckFailed check_msg), w)).
Proof.
  split; intros Hlt.
  - unfold UniformChoice, CHECK_LE. cbn [negb].
    rewrite (proj2 (Z.leb_gt _ _) Hlt). by apply bind_Fail.
  - unfold Choice, CHECK_LE. cbn [negb].
    rewrite (proj2 (Z.leb_gt _ _) Hlt). by apply bind_Fail.
Qed.

Section WithLaws.
Context `{!RandomEngineLaws R}.

Section WithOrder.
Context `{!FlatHashSetLaws}.

(** A sequence that runs once through a set of [num] indices of the
    population. *)
Lemma order_sample (l : list Z) (selected : gset Z) (num population : Z) :
  l ≡ₚ elements selected →
  Z.of_nat (size selected) = num →
  set_Forall (λ x, 0 ≤ x < population) selected →
  length l = Z.to_nat num ∧ NoDup l ∧ Forall (λ x, 0 ≤ x < population) l.
Proof.
  intros Hperm Hsize Hrange. split_and!.
  - rewrite Hperm. change (length (elements selected)) with (size selected).
    lia.
  - rewrite Hperm. apply NoDup_elements.
  - rewrite Hperm. apply Forall_forall.
    intros x Hx%elem_of_elements. by apply Hrange.
Qed.

(** Below the threshold, a call that does not find its key in [cache_]
    and returns has filled the first [num] cells of [out] with [num]
    distinct indices of [[0, population)], in the order of the table, and
    has filed them under its key. *)
Lemma UniformChoice_cache_miss fuel num population (w w' : World R) :
  0 ≤ num < 2 ^ 64 → num < population `quot` 10 →
  (0 < length (out w))%nat → (Z.to_nat num ≤ length (out w))%nat →
  cache_ w !! cache_key std_hash num population (out w !!! 0%nat) = None →
  UniformChoice std_hash fuel num population false w = (Ok (), w') →
  ∃ selected : gset Z,
    out w' = table_order selected ++ drop (Z.to_nat num) (out w) ∧
    length (table_order selected) = Z.to_nat num ∧
    NoDup (table_order selected) ∧
    Forall (λ x, 0 ≤ x < population) (table_order selected) ∧
    cache_ w'
    = <[cache_key std_hash num population (out w !!! 0%nat) := selected]>
        (cache_ w).
Proof.
  intros Hnum Hlt Hout0 Hout Hmiss.
  assert (0 < population) as Hpop by (apply quot_10_pos; lia).
  unfold UniformChoice, CHECK_LE. cbn [negb].
  assert (num ≤ population) as Hle by (apply below_threshold_le; lia).
  rewrite (proj2 (Z.leb_le _ _) Hle), (proj2 (Z.ltb_lt _ _) Hlt).
  erewrite bind_Ok by reflexivity.
  erewrite bind_Ok; last first.
  { unfold read_out. rewrite bool_decide_eq_true_2 by lia. reflexivity. }
  erewrite bind_Ok by reflexivity.
  change (Z.to_nat 0) with 0%nat. unfold cache_key in Hmiss |- *.
  rewrite Hmiss.
  destruct (fill_selected fuel num population ∅ w) as [[selected|f] w1] eqn:Hfill.
  - pose proof Hfill as Hspec.
    apply fill_selected_spec in Hspec as (Hsize & Hrange & Hcache & Hbuf);
      [|done|done|rewrite size_empty; lia|apply set_Forall_empty].
    erewrite bind_Ok; last first.
    { erewrite bind_Ok by exact Hfill. erewrite bind_Ok by reflexivity.
      reflexivity. }
    destruct (order_sample (table_order selected) selected num population
                (table_order_perm selected) Hsize Hrange)
      as (Hlen & Hnd & Hall).
    unfold put_cache. cbn [engine cache_ out]. rewrite Hbuf.
    set (key := pretty (std_hash _)).
    pose proof (copy_from_spec (table_order selected) []
                  (take (Z.to_nat num) (out w))
                  (drop (Z.to_nat num) (out w)) (engine w1)
                  (<[key := selected]> (cache_ w))) as Hcopy.
    cbn [length app] in Hcopy. change (Z.of_nat 0) with 0 in Hcopy.
    rewrite take_drop in Hcopy.
    rewrite Hcopy by (rewrite length_take; lia).
    intros [= <-]. exists selected. cbn [out cache_]. done.
  - erewrite bind_Fail; [by intros [=]|].
    by erewrite bind_Fail by exact Hfill.
Qed.

(** So a later call with the same [num] and [population], on a buffer that
    starts with the same value, gives the sample of the earlier call again
    (in the order of the copy it makes), whatever the engine would have
    drawn. *)
Lemma UniformChoice_second_call_stale fuel fuel' num population
    (w w1 : World R) (e2 : R) (buf2 : list Z) :
  0 ≤ num < 2 ^ 64 → num < population `quot` 10 →
  (0 < length (out w))%nat → (Z.to_nat num ≤ length (out w))%nat →
  cache_ w !! cache_key std_hash num population (out w !!! 0%nat) = None →
  UniformChoice std_hash fuel num population false w = (Ok (), w1) →
  (0 < length buf2)%nat → (Z.to_nat num ≤ length buf2)%nat →
  buf2 !!! 0%nat = out w !!! 0%nat →
  ∃ sample : list Z,
    sample ≡ₚ take (Z.to_nat num) (out w1) ∧
    UniformChoice std_hash fuel' num population false
      (mkWorld e2 (cache_ w1) buf2)
    = (Ok (), mkWorld e2 (cache_ w1) (sample ++ drop (Z.to_nat num) buf2)).
Proof.
  intros Hnum Hlt Hout0 Hout Hmiss Hrun Hbuf0 Hbuf Hsame.
  destruct (UniformChoice_cache_miss fuel num population w w1
              Hnum Hlt Hout0 Hout Hmiss Hrun)
    as (selected & Hout1 & Hlen & _ & _ & Hcache1).
  exists (copy_order selected). split.
  { rewrite Hout1, take_app_length' by done.
    by rewrite copy_order_perm, table_order_perm. }
  rewrite (UniformChoice_cache_hit fuel' num population _ selected);
    [|apply below_threshold_le; lia|done|done|].
  - rewrite <-(take_drop (Z.to_nat num) buf2) at 1.
    pose proof (copy_from_spec (copy_order selected) []
                  (take (Z.to_nat num) buf2) (drop (Z.to_nat num) buf2)
                  e2 (cache_ w1)) as Hcopy.
    cbn [length app] in Hcopy. change (Z.of_nat 0) with 0 in Hcopy.
    apply Hcopy. rewrite length_take.
    assert (length (copy_order selected) = Z.to_nat num) as ->
      by (by rewrite <-Hlen, copy_order_perm, table_order_perm).
    lia.
  - cbn [cache_ out]. rewrite Hsame, Hcache1. apply lookup_insert_eq.
Qed.
End WithOrder.

(** C9.  Without replacement, at or above the ratio threshold,
    [UniformChoice] computes exactly the selection of the
    specification: [out[0..num-1]] starts as [0..num-1]; then for each
    candidate [i] from [num] to [population - 1] an integer [j] in
    [[0, i]] is drawn and, if [j < num], [out[j]] is overwritten with
    [i].  The cells of [out] past [num] and the cache are untouched. *)
Theorem UniformChoice_reservoir (fuel : nat) (num population : Z)
    (w : World R) :
  0 ≤ num ≤ population → ¬ num < population `quot` 10 →
  (Z.to_nat num ≤ length (out w))%nat →
  UniformChoice std_hash fuel num population false w
  = (Ok (),
     mkWorld (reservoir_spec num population (engine w)).2 (cache_ w)
             ((reservoir_spec num population (engine w)).1
              ++ drop (Z.to_nat num) (out w))) ∧
  (∀ (i : Z) (e : R), 0 ≤ i → 0 ≤ (RandInt (i + 1) e).1 ≤ i).
Proof.
  intros Hnum Hratio Hout. split.
  - unfold UniformChoice, CHECK_LE. cbn [negb].
    rewrite (proj2 (Z.leb_le num population)) by lia.
    rewrite (proj2 (Z.ltb_ge num (population `quot` 10))) by lia.
    erewrite bind_Ok by reflexivity.
    erewrite bind_Ok by (by apply (for_write_prefix (λ i, i))).
    unfold for_. rewrite reservoir_loop; [|lia|].
    + unfold reservoir_spec. rewrite list_fmap_id.
      by replace (Z.of_nat (Z.to_nat (population - num)))
        with (population - num) by lia.
    + by rewrite length_fmap, length_seqZ.
  - intros i e Hi. pose proof (RandInt_range (i + 1) e ltac:(lia)). lia.
Qed.

(** In that branch the first [num] cells of [out] end up holding
    [num] distinct indices of [[0, population)]. *)
Lemma reservoir_spec_distinct (num population : Z) (e : R) :
  0 ≤ num ≤ population →
  length (reservoir_spec num population e).1 = Z.to_nat num ∧
  NoDup (reservoir_spec num population e).1 ∧
  Forall (λ x, 0 ≤ x < population) (reservoir_spec num population e).1.
Proof.
  intros Hnum. unfold reservoir_spec.
  assert (Forall (λ x, 0 ≤ x < num) (seqZ 0 num)) as Hall.
  { apply Forall_forall. intros x Hx%elem_of_seqZ. lia. }
  pose proof (reservoir_fold_distinct num (Z.to_nat (population - num)) num
                (seqZ 0 num) e ltac:(lia) ltac:(by rewrite length_seqZ)
                (NoDup_seqZ 0 num) Hall) as Hd.
  cbv zeta in Hd.
  replace (Z.of_nat (Z.to_nat (population - num)))
    with (population - num) in Hd by lia.
  by replace (num + (population - num)) with population in Hd by lia.
Qed.
End WithLaws.
End Statements.

Lemma sampling_rejects_oversized_witness :
  let w : World Tape := mkWorld [4; 8] ∅ [9; 9; 9] in
  (5 < 6 ∧
   UniformChoice string_hash 10 6 5 false w = (Fail (CheckFailed check_msg), w)) ∧
  (Z.of_nat (length [1; 1]) < 3 ∧
   Choice 3 [1; 1] false w = (Fail (CheckFailed check_msg), w)).
Proof.
  intros w.
  destruct (sampling_rejects_oversized string_hash 10 6 5 [1; 1] w) as [HU _].
  destruct (sampling_rejects_oversized string_hash 10 3 5 [1; 1] w) as [_ HC].
  split; (split; [reflexivity|]); [apply HU|apply HC]; reflexivity.
Defined.

Lemma UniformChoice_reservoir_witness :
  let w : World Tape := mkWorld [0; 2; 4; 3] ∅ [9; 9; 9; 9] in
  (0 ≤ 3 ≤ 5 ∧ ¬ 3 < 5 `quot` 10 ∧ (Z.to_nat 3 ≤ length (out w))%nat) ∧
  UniformChoice string_hash 0 3 5 false w
  = (Ok (), mkWorld [4; 3] ∅ [3; 1; 4; 9]).
Proof.
  intros w.
  assert (0 ≤ 3 ≤ 5) as H1 by lia.
  assert (¬ 3 < 5 `quot` 10) as H2 by (vm_compute; by intros [=]).
  assert (Z.to_nat 3 ≤ length (out w))%nat as H3 by (vm_compute; lia).
  split; [done|].
  exact (proj1 (UniformChoice_reservoir string_hash 0 3 5 w H1 H2 H3)).
Defined.

(** ** Where the code departs from the specification *)

(** C1.  Below the threshold [UniformChoice] files every sample in the
    static [cache_] under a key made of [num], [population], [replace] and
    the value [out] points at, and returns the filed sample when the key is
    known.  With the arguments (1, 20, replace = false) and an engine whose
    next value is 7: after a call that drew 3 the output is 3 again and no
    value is drawn, while on an empty cache it is 7; and with the same
    cache, a buffer that starts with 5 instead of 0 gets 7. *)
Theorem UniformChoice_reuses_cached_sample :
  let call (tape : Tape) cache buf :=
    UniformChoice string_hash 100 1 20 false (mkWorld tape cache buf) in
  let prior := call [3] ∅ [0] in
  let fresh := call [7] ∅ [0] in
  let again := call [7] (cache_ prior.2) [0] in
  let other := call [7] (cache_ prior.2) [5] in
  (prior.1 = Ok () ∧ out prior.2 = [3]) ∧
  (fresh.1 = Ok () ∧ out fresh.2 = [7] ∧ engine fresh.2 = []) ∧
  (again.1 = Ok () ∧ out again.2 = [3] ∧ engine again.2 = [7]) ∧
  (other.1 = Ok () ∧ out other.2 = [7] ∧ engine other.2 = []).
Proof. vm_compute. repeat split. Qed.

(** C2.  The cache key is the concatenation of the decimal numerals, so
    (num, population) = (1, 1200) and (11, 200) share the key "1120000".
    After a call with (1, 1200) that drew 1199, the call with (11, 200)
    returns normally with [out] = 1199 followed by the ten old cells:
    neither eleven distinct indices nor all below 200. *)
Theorem UniformChoice_key_collision :
  let prior :=
    UniformChoice string_hash 100 1 1200 false
      (mkWorld ([1199] : Tape) ∅ [0]) in
  let second :=
    UniformChoice string_hash 100 11 200 false
      (mkWorld ([5; 6; 7] : Tape) (cache_ prior.2) (replicate 11 0)) in
  11 ≤ 200 ∧
  prior.1 = Ok () ∧ out prior.2 = [1199] ∧
  second.1 = Ok () ∧
  out second.2 = 1199 :: replicate 10 0 ∧
  ¬ NoDup (out second.2) ∧
  ¬ Forall (λ x, 0 ≤ x < 200) (out second.2).
Proof.
  intros prior second.
  assert (out second.2 = 1199 :: replicate 10 0) as Hout by (by vm_compute).
  split_and!; [lia|by vm_compute..|exact Hout| |]; rewrite Hout.
  - intros Hnd. apply NoDup_cons in Hnd as [_ Hnd].
    apply NoDup_cons in Hnd as [Hnd _]. apply Hnd. by left.
  - intros Hall. apply Forall_cons in Hall as [? _]. lia.
Qed.

(** C3.  [Choice] with [num] equal to the population size and
    [replace = false] writes 0..N-1 with [std::iota] and then goes on to
    build the sampler and to overwrite every cell with a draw.  For two
    equal weights and an engine that makes the first draw fall on index 1,
    the result is [1, 0], not the identity, and two values were drawn. *)
Theorem Choice_full_sample_overwrites_iota :
  let r := Choice (T := TreeSamplerState) 2 [1; 1] false
             (mkWorld ([1; 0; 5] : Tape) ∅ [9; 9]) in
  r.1 = Ok () ∧ out r.2 = [1; 0] ∧ out r.2 ≠ [0; 1] ∧ engine r.2 = [5].
Proof. vm_compute. by split_and!. Qed.

(* --------------------------------------------------------------------- *)
(** ** Further properties of the samplers                                 *)
(* --------------------------------------------------------------------- *)

Section More.
Context {R : Type} `{RandomEngineLaws R} `{!FlatHashSet}.
Variable std_hash : string → N.

Lemma rand_ints_range n population (e : R) :
  0 < population →
  length (rand_ints n population e).1 = n ∧
  Forall (λ x, 0 ≤ x < population) (rand_ints n population e).1.
Proof.
  intros Hpop. revert e. induction n as [|n IH]; intros e; simpl.
  { by split. }
  pose proof (RandInt_range population e Hpop) as Hv.
  destruct (RandInt population e) as [v e'].
  destruct (IH e') as [Hlen Hall].
  destruct (rand_ints n population e') as [l e'']. simpl in *.
  split; [by f_equal|by constructor].
Qed.

Lemma rand_loop_spec n population (pre mid rest : list Z) (e : R) c :
  length mid = n →
  for_loop n (Z.of_nat (length pre))
    (λ i, v ← rand_int population; write_out i v)
    (mkWorld e c (pre ++ mid ++ rest))
  = (Ok (), mkWorld (rand_ints n population e).2 c
              (pre ++ (rand_ints n population e).1 ++ rest)).
Proof.
  revert pre mid e. induction n as [|n IH]; intros pre mid e Hmid.
  - destruct mid; [|done]. done.
  - destruct mid as [|x mid]; [done|]. injection Hmid as Hmid.
    cbn [for_loop rand_ints].
    destruct (RandInt population e) as [v e'] eqn:Hdraw.
    erewrite bind_Ok; last first.
    { erewrite bind_Ok; [|by unfold rand_int; simpl; rewrite Hdraw].
      apply write_out_Ok. rewrite length_app. simpl. lia. }
    replace (length pre) with (length pre + 0)%nat at 2 by lia.
    rewrite insert_app_r. simpl.
    change (pre ++ v :: mid ++ rest) with (pre ++ [v] ++ mid ++ rest).
    rewrite (assoc_L (++) pre [v]).
    replace (Z.of_nat (length pre) + 1) with (Z.of_nat (length (pre ++ [v])))
      by (rewrite length_app; simpl; lia).
    rewrite (IH (pre ++ [v]) mid e' Hmid).
    destruct (rand_ints n population e') as [l e'']. simpl.
    by rewrite <-(assoc_L (++)).
Qed.

(** X12.  With [replace = true], [UniformChoice] makes exactly [num] draws
    over [[0, population)] and writes them, in order, to the first [num]
    cells of [out]; the later cells and the cache are not touched, and
    [num] may exceed [population].  With [num <= 0] it does nothing. *)
Theorem UniformChoice_with_replacement (fuel : nat) (num population : Z)
    (w : World R) :
  0 < population → (Z.to_nat num ≤ length (out w))%nat →
  UniformChoice std_hash fuel num population true w
  = (Ok (),
     mkWorld (rand_ints (Z.to_nat num) population (engine w)).2 (cache_ w)
             ((rand_ints (Z.to_nat num) population (engine w)).1
              ++ drop (Z.to_nat num) (out w))) ∧
  length (rand_ints (Z.to_nat num) population (engine w)).1 = Z.to_nat num ∧
  Forall (λ x, 0 ≤ x < population)
         (rand_ints (Z.to_nat num) population (engine w)).1 ∧
  (num ≤ 0 → UniformChoice std_hash fuel num population true w = (Ok (), w)).
Proof.
  intros Hpop Hout.
  assert (UniformChoice std_hash fuel num population true w
    = (Ok (),
       mkWorld (rand_ints (Z.to_nat num) population (engine w)).2 (cache_ w)
               ((rand_ints (Z.to_nat num) population (engine w)).1
                ++ drop (Z.to_nat num) (out w)))) as Hrun.
  { unfold UniformChoice. cbn [negb]. erewrite bind_Ok by reflexivity.
    unfold for_. rewrite Z.sub_0_r. destruct w as [e c l]; simpl in *.
    rewrite <-(take_drop (Z.to_nat num) l) at 1.
    pose proof (rand_loop_spec (Z.to_nat num) population []
                  (take (Z.to_nat num) l) (drop (Z.to_nat num) l) e c) as Hloop.
    cbn [length app] in Hloop. change (Z.of_nat 0) with 0 in Hloop.
    apply Hloop. rewrite length_take. lia. }
  destruct (rand_ints_range (Z.to_nat num) population (engine w) Hpop)
    as [Hlen Hall].
  split_and!; [done..|].
  intros Hneg. rewrite Hrun. replace (Z.to_nat num) with 0%nat by lia.
  simpl. rewrite drop_0. by destruct w.
Qed.

Lemma UniformChoice_reservoir_run fuel num population (w : World R) :
  0 ≤ num ≤ population → ¬ num < population `quot` 10 →
  (Z.to_nat num ≤ length (out w))%nat →
  UniformChoice std_hash fuel num population false w
  = (Ok (),
     mkWorld (reservoir_spec num population (engine w)).2 (cache_ w)
             ((reservoir_spec num population (engine w)).1
              ++ drop (Z.to_nat num) (out w))).
Proof.
  intros Hnum Hratio Hout.
  unfold UniformChoice, CHECK_LE. cbn [negb].
  rewrite (proj2 (Z.leb_le num population)) by lia.
  rewrite (proj2 (Z.ltb_ge num (population `quot` 10))) by lia.
  erewrite bind_Ok by reflexivity.
  erewrite bind_Ok by (by apply (for_write_prefix (λ i, i))).
  unfold for_. rewrite reservoir_loop; [|lia|].
  - unfold reservoir_spec. rewrite list_fmap_id.
    by replace (Z.of_nat (Z.to_nat (population - num)))
      with (population - num) by lia.
  - by rewrite length_fmap, length_seqZ.
Qed.

(** X13.  Without replacement, at or above the threshold, [UniformChoice]
    always returns, and the first [num] cells of [out] then hold [num]
    pairwise distinct indices of [[0, population)]; the later cells and
    the cache are not touched. *)
Theorem UniformChoice_reservoir_distinct (fuel : nat) (num population : Z)
    (w : World R) :
  0 ≤ num ≤ population → ¬ num < population `quot` 10 →
  (Z.to_nat num ≤ length (out w))%nat →
  ∃ (sample : list Z) (e : R),
    UniformChoice std_hash fuel num population false w
    = (Ok (), mkWorld e (cache_ w) (sample ++ drop (Z.to_nat num) (out w))) ∧
    length sample = Z.to_nat num ∧
    NoDup sample ∧
    Forall (λ x, 0 ≤ x < population) sample.
Proof.
  intros Hnum Hratio Hout.
  exists (reservoir_spec num population (engine w)).1,
         (reservoir_spec num population (engine w)).2.
  split; [by apply UniformChoice_reservoir_run|].
  by apply reservoir_spec_distinct.
Qed.

(** X20.  Asked without replacement for the whole population,
    [UniformChoice] draws nothing: it writes [0, 1, ..., num - 1], in this
    order, to the first [num] cells of [out] and leaves the engine, the
    cache and the later cells as they are. *)
Theorem UniformChoice_whole_population (fuel : nat) (num : Z) (w : World R) :
  0 ≤ num → (Z.to_nat num ≤ length (out w))%nat →
  UniformChoice std_hash fuel num num false w
  = (Ok (),
     mkWorld (engine w) (cache_ w) (seqZ 0 num ++ drop (Z.to_nat num) (out w))).
Proof.
  intros Hnum Hout.
  assert (¬ num < num `quot` 10) as Hratio.
  { rewrite Z.quot_div_nonneg by lia.
    pose proof (Z.mul_div_le num 10 ltac:(lia)). lia. }
  rewrite UniformChoice_reservoir_run by (done || lia).
  unfold reservoir_spec. by rewrite Z.sub_diag.
Qed.

Lemma fill_selected_Fail fuel num population (selected : gset Z)
    (w w' : World R) f :
  fill_selected fuel num population selected w = (Fail f, w') → f = OutOfFuel.
Proof.
  revert selected w. induction fuel as [|fuel IH]; intros selected w;
    rewrite fill_selected_eq;
    destruct (Z.of_nat (size selected) <? to_size_t num); try by intros [=].
  destruct (RandInt population (engine w)) as [v e] eqn:Hdraw.
  erewrite bind_Ok; [|by unfold rand_int; rewrite Hdraw]. apply IH.
Qed.

Lemma fill_selected_enough fuel num population (selected : gset Z)
    (w : World R) :
  0 ≤ num < 2 ^ 64 →
  num ≤ Z.of_nat (size (selected
                        ∪ list_to_set (rand_ints fuel population (engine w)).1)) →
  ∃ selected' w', fill_selected fuel num population selected w
                  = (Ok selected', w').
Proof.
  intros Hnum. revert selected w.
  induction fuel as [|fuel IH]; intros selected w Hsize;
    rewrite fill_selected_eq; unfold to_size_t; rewrite Z.mod_small by lia;
    destruct (Z.of_nat (size selected) <? num) eqn:Hlt; try by eexists _, _.
  - apply Z.ltb_lt in Hlt. simpl in Hsize.
    rewrite (right_id_L ∅ (∪)) in Hsize. lia.
  - cbn [rand_ints] in Hsize.
    destruct (RandInt population (engine w)) as [v e] eqn:Hdraw.
    erewrite bind_Ok; [|by unfold rand_int; rewrite Hdraw].
    apply IH. cbn [engine].
    destruct (rand_ints fuel population e) as [l e'']. cbn [fst] in *.
    rewrite list_to_set_cons in Hsize.
    by replace ({[v]} ∪ selected ∪ list_to_set l)
      with (selected ∪ ({[v]} ∪ list_to_set l))
      by (apply leibniz_equiv; set_solver).
Qed.

Section HashSetSample.
Context `{!FlatHashSetLaws}.

(** The run of the hash-set branch on a cache miss, given the run of its
    loop. *)
Lemma UniformChoice_miss_run fuel num population (w : World R) :
  0 ≤ num < 2 ^ 64 → num < population `quot` 10 →
  (0 < length (out w))%nat → (Z.to_nat num ≤ length (out w))%nat →
  cache_ w !! cache_key std_hash num population (out w !!! 0%nat) = None →
  UniformChoice std_hash fuel num population false w
  = match fill_selected fuel num population ∅ w with
    | (Ok selected, w1) =>
        (Ok (),
         mkWorld (engine w1)
           (<[cache_key std_hash num population (out w !!! 0%nat) := selected]>
              (cache_ w))
           (table_order selected ++ drop (Z.to_nat num) (out w)))
    | (Fail f, w1) => (Fail f, w1)
    end.
Proof.
  intros Hnum Hlt Hout0 Hout Hmiss.
  unfold UniformChoice, CHECK_LE. cbn [negb].
  rewrite (proj2 (Z.leb_le _ _) (below_threshold_le _ _ (proj1 Hnum) Hlt)),
    (proj2 (Z.ltb_lt _ _) Hlt).
  erewrite bind_Ok by reflexivity.
  erewrite bind_Ok; last first.
  { unfold read_out. rewrite bool_decide_eq_true_2 by lia. reflexivity. }
  erewrite bind_Ok by reflexivity.
  change (Z.to_nat 0) with 0%nat. unfold cache_key in Hmiss. rewrite Hmiss.
  destruct (fill_selected fuel num population ∅ w)
    as [[selected|f'] w1] eqn:Hfill.
  - pose proof Hfill as Hspec.
    apply fill_selected_spec in Hspec as (Hsize & _ & Hc & Hbuf);
      [|apply quot_10_pos; lia|done|rewrite size_empty; lia
       |apply set_Forall_empty].
    erewrite bind_Ok; last first.
    { erewrite bind_Ok by exact Hfill. erewrite bind_Ok by reflexivity.
      reflexivity. }
    unfold put_cache. cbn [engine cache_ out]. rewrite Hbuf.
    pose proof (copy_from_spec (table_order selected) []
                  (take (Z.to_nat num) (out w)) (drop (Z.to_nat num) (out w))
                  (engine w1)) as Hcopy.
    cbn [length app] in Hcopy. change (Z.of_nat 0) with 0 in Hcopy.
    rewrite take_drop in Hcopy. unfold cache_key. apply Hcopy.
    rewrite length_take, table_order_perm.
    change (length (elements selected)) with (size selected). lia.
  - erewrite bind_Fail; [done|].
    by erewrite bind_Fail by exact Hfill.
Qed.

(** X14.  Without replacement, below the threshold and when the key is
    not in the cache, [UniformChoice] has two outcomes only: the bound on
    the iterations of its loop is hit, or it returns with the first [num]
    cells of [out] holding, in the order of the table of the hash set,
    [num] pairwise distinct indices of [[0, population)], which it has
    filed as a set in the cache under its key.  It returns as soon as the
    values the engine gives include [num] different ones. *)
Theorem UniformChoice_hash_set_sample (fuel : nat) (num population : Z)
    (w : World R) :
  0 ≤ num < 2 ^ 64 → num < population `quot` 10 →
  (0 < length (out w))%nat → (Z.to_nat num ≤ length (out w))%nat →
  cache_ w !! cache_key std_hash num population (out w !!! 0%nat) = None →
  ((UniformChoice std_hash fuel num population false w).1 = Fail OutOfFuel ∨
   ∃ (selected : gset Z) (sample : list Z) (e : R),
     UniformChoice std_hash fuel num population false w
     = (Ok (),
        mkWorld e
          (<[cache_key std_hash num population (out w !!! 0%nat) := selected]>
             (cache_ w))
          (sample ++ drop (Z.to_nat num) (out w))) ∧
     sample ≡ₚ elements selected ∧
     length sample = Z.to_nat num ∧
     NoDup sample ∧
     Forall (λ x, 0 ≤ x < population) sample) ∧
  (num ≤ Z.of_nat (size (list_to_set (C := gset Z)
                           (rand_ints fuel population (engine w)).1)) →
   (UniformChoice std_hash fuel num population false w).1 = Ok ()).
Proof.
  intros Hnum Hlt Hout0 Hout Hmiss.
  rewrite (UniformChoice_miss_run fuel num population w Hnum Hlt Hout0 Hout
             Hmiss).
  destruct (fill_selected fuel num population ∅ w)
    as [[selected|f] w1] eqn:Hfill.
  - split; [right|done].
    apply fill_selected_spec in Hfill as (Hsize & Hall & _ & _);
      [|apply quot_10_pos; lia|done|rewrite size_empty; lia
       |apply set_Forall_empty].
    exists selected, (table_order selected), (engine w1).
    pose proof (table_order_perm selected) as Hperm.
    destruct (order_sample _ _ _ _ Hperm Hsize Hall) as (Hlen & Hnd & Hrange).
    done.
  - split.
    + left. simpl. f_equal. by eapply fill_selected_Fail.
    + intros Henough.
      destruct (fill_selected_enough fuel num population ∅ w Hnum)
        as (selected' & w' & Hok).
      { by rewrite (left_id_L ∅ (∪)). }
      rewrite Hok in Hfill. done.
Qed.
End HashSetSample.

Lemma size_below (population : Z) (selected : gset Z) :
  0 ≤ population →
  set_Forall (λ x, 0 ≤ x < population) selected →
  Z.of_nat (size selected) ≤ population.
Proof.
  intros Hpop Hall.
  assert (selected ⊆ list_to_set (seqZ 0 population)) as Hsub.
  { intros x Hx. apply elem_of_list_to_set, elem_of_seqZ.
    specialize (Hall x Hx). simpl in Hall. lia. }
  apply subseteq_size in Hsub.
  rewrite size_list_to_set, length_seqZ in Hsub by apply NoDup_seqZ. lia.
Qed.

Lemma fill_selected_frame fuel num population (selected : gset Z)
    (w : World R) :
  cache_ (fill_selected fuel num population selected w).2 = cache_ w ∧
  out (fill_selected fuel num population selected w).2 = out w.
Proof.
  revert selected w. induction fuel as [|fuel IH]; intros selected w;
    rewrite fill_selected_eq;
    destruct (Z.of_nat (size selected) <? to_size_t num); try done.
  destruct (RandInt population (engine w)) as [v e] eqn:Hdraw.
  erewrite bind_Ok; [|by unfold rand_int; rewrite Hdraw].
  apply (IH _ (mkWorld e (cache_ w) (out w))).
Qed.

Lemma fill_selected_negative fuel num population (selected : gset Z)
    (w : World R) :
  0 < population < 2 ^ 63 → - 2 ^ 63 ≤ num < 0 →
  set_Forall (λ x, 0 ≤ x < population) selected →
  (fill_selected fuel num population selected w).1 = Fail OutOfFuel.
Proof.
  intros Hpop Hnum. revert selected w.
  induction fuel as [|fuel IH]; intros selected w Hall;
    rewrite fill_selected_eq;
    pose proof (size_below population selected ltac:(lia) Hall) as Hsize;
    assert (to_size_t num = 2 ^ 64 + num) as ->
      by (unfold to_size_t;
          rewrite <-(Z.mod_add num 1 (2 ^ 64)), Z.mod_small by lia; lia);
    rewrite (proj2 (Z.ltb_lt _ _)) by lia; [done|].
  pose proof (RandInt_range population (engine w) ltac:(lia)) as Hv.
  destruct (RandInt population (engine w)) as [v e] eqn:Hdraw. simpl in Hv.
  erewrite bind_Ok; [|by unfold rand_int; rewrite Hdraw].
  apply IH. apply set_Forall_union; [by apply set_Forall_singleton|done].
Qed.

(** X15.  A negative [num] passes the check of [UniformChoice]; without
    replacement and when the key is not in the cache, the call then never
    returns: as a [size_t], [num] is at least [2^63], more than the set can
    ever hold, so the loop runs into every bound on its iterations, and
    nothing is written to [out] or to the cache. *)
Theorem UniformChoice_negative_num (fuel : nat) (num population : Z)
    (w : World R) :
  0 < population < 2 ^ 63 → - 2 ^ 63 ≤ num < 0 →
  (0 < length (out w))%nat →
  cache_ w !! cache_key std_hash num population (out w !!! 0%nat) = None →
  ∃ e : R,
    UniformChoice std_hash fuel num population false w
    = (Fail OutOfFuel, mkWorld e (cache_ w) (out w)).
Proof.
  intros Hpop Hnum Hout0 Hmiss.
  unfold UniformChoice, CHECK_LE. cbn [negb].
  rewrite (proj2 (Z.leb_le num population)) by lia.
  assert (0 ≤ population `quot` 10) by (apply Z.quot_pos; lia).
  rewrite (proj2 (Z.ltb_lt num (population `quot` 10))) by lia.
  erewrite bind_Ok by reflexivity.
  erewrite bind_Ok; last first.
  { unfold read_out. rewrite bool_decide_eq_true_2 by lia. reflexivity. }
  erewrite bind_Ok by reflexivity.
  change (Z.to_nat 0) with 0%nat. unfold cache_key in Hmiss. rewrite Hmiss.
  pose proof (fill_selected_negative fuel num population ∅ w Hpop Hnum
                (set_Forall_empty _)) as Hfail.
  pose proof (fill_selected_frame fuel num population ∅ w) as Hframe.
  destruct (fill_selected fuel num population ∅ w) as [r w1] eqn:Hfill.
  simpl in Hfail, Hframe. subst r. destruct Hframe as [Hc Ho].
  exists (engine w1).
  erewrite bind_Fail; last first.
  { by erewrite bind_Fail by exact Hfill. }
  destruct w1; simpl in *. by subst.
Qed.
End More.

Lemma UniformChoice_with_replacement_witness :
  let w : World Tape := mkWorld [7; 3; 11; 5] ∅ [9; 9; 9; 9] in
  (0 < 2 ∧ (Z.to_nat 3 ≤ length (out w))%nat) ∧
  UniformChoice string_hash 0 3 2 true w
  = (Ok (), mkWorld [5] ∅ [1; 1; 1; 9]).
Proof.
  intros w.
  assert (0 < 2) as H1 by lia.
  assert (Z.to_nat 3 ≤ length (out w))%nat as H2 by (vm_compute; lia).
  split; [done|].
  exact (proj1 (UniformChoice_with_replacement string_hash 0 3 2 w H1 H2)).
Defined.

Lemma UniformChoice_reservoir_distinct_witness :
  let w : World Tape := mkWorld [0; 2; 4; 3] ∅ [9; 9; 9; 9] in
  (0 ≤ 3 ≤ 5 ∧ ¬ 3 < 5 `quot` 10 ∧ (Z.to_nat 3 ≤ length (out w))%nat) ∧
  ∃ (sample : list Z) (e : Tape),
    UniformChoice string_hash 0 3 5 false w
    = (Ok (), mkWorld e (cache_ w) (sample ++ drop (Z.to_nat 3) (out w))) ∧
    length sample = Z.to_nat 3 ∧
    NoDup sample ∧
    Forall (λ x, 0 ≤ x < 5) sample.
Proof.
  intros w.
  assert (0 ≤ 3 ≤ 5) as H1 by lia.
  assert (¬ 3 < 5 `quot` 10) as H2 by (vm_compute; by intros [=]).
  assert (Z.to_nat 3 ≤ length (out w))%nat as H3 by (vm_compute; lia).
  split; [done|].
  exact (UniformChoice_reservoir_distinct string_hash 0 3 5 w H1 H2 H3).
Defined.

Lemma UniformChoice_whole_population_witness :
  let w : World Tape := mkWorld [4; 8] ∅ [9; 9; 9; 9] in
  (0 ≤ 3 ∧ (Z.to_nat 3 ≤ length (out w))%nat) ∧
  UniformChoice string_hash 0 3 3 false w
  = (Ok (), mkWorld [4; 8] ∅ [0; 1; 2; 9]).
Proof.
  intros w.
  assert (0 ≤ 3) as H1 by lia.
  assert (Z.to_nat 3 ≤ length (out w))%nat as H2 by (vm_compute; lia).
  split; [done|].
  exact (UniformChoice_whole_population string_hash 0 3 w H1 H2).
Defined.

Lemma UniformChoice_hash_set_sample_witness :
  let w : World Tape := mkWorld [7; 7; 3] ∅ [0; 0] in
  (0 ≤ 2 < 2 ^ 64 ∧ 2 < 30 `quot` 10 ∧
   (0 < length (out w))%nat ∧ (Z.to_nat 2 ≤ length (out w))%nat ∧
   cache_ w !! cache_key string_hash 2 30 (out w !!! 0%nat) = None) ∧
  ((UniformChoice string_hash 5 2 30 false w).1 = Fail OutOfFuel ∨
   ∃ (selected : gset Z) (sample : list Z) (e : Tape),
     UniformChoice string_hash 5 2 30 false w
     = (Ok (),
        mkWorld e
          (<[cache_key string_hash 2 30 (out w !!! 0%nat) := selected]>
             (cache_ w))
          (sample ++ drop (Z.to_nat 2) (out w))) ∧
     sample ≡ₚ elements selected ∧
     length sample = Z.to_nat 2 ∧
     NoDup sample ∧
     Forall (λ x, 0 ≤ x < 30) sample).
Proof.
  intros w.
  assert (0 ≤ 2 < 2 ^ 64) as H1 by lia.
  assert (2 < 30 `quot` 10) as H2 by (vm_compute; reflexivity).
  assert (0 < length (out w))%nat as H3 by (vm_compute; lia).
  assert (Z.to_nat 2 ≤ length (out w))%nat as H4 by (vm_compute; lia).
  assert (cache_ w !! cache_key string_hash 2 30 (out w !!! 0%nat) = None)
    as H5 by reflexivity.
  split; [done|].
  exact (proj1 (UniformChoice_hash_set_sample string_hash 5 2 30 w
                  H1 H2 H3 H4 H5)).
Defined.

Lemma UniformChoice_negative_num_witness :
  let w : World Tape := mkWorld [7; 7; 3] ∅ [0; 0] in
  (0 < 30 < 2 ^ 63 ∧ - 2 ^ 63 ≤ -1 < 0 ∧ (0 < length (out w))%nat ∧
   cache_ w !! cache_key string_hash (-1) 30 (out w !!! 0%nat) = None) ∧
  ∃ e : Tape,
    UniformChoice string_hash 5 (-1) 30 false w
    = (Fail OutOfFuel, mkWorld e (cache_ w) (out w)).
Proof.
  intros w.
  assert (0 < 30 < 2 ^ 63) as H1 by lia.
  assert (- 2 ^ 63 ≤ -1 < 0) as H2 by lia.
  assert (0 < length (out w))%nat as H3 by (vm_compute; lia).
  assert (cache_ w !! cache_key string_hash (-1) 30 (out w !!! 0%nat) = None)
    as H4 by reflexivity.
  split; [done|].
  exact (UniformChoice_negative_num string_hash 5 (-1) 30 w H1 H2 H3 H4).
Defined.

Section MoreDraws.
Context {R W T : Type} `{RandomEngine R} `{!BaseSampler R W T}.

End MoreDraws.


End RandomChoiceSpec.
